(** * valuation-app: fact normalisation, date lookups, price index and
      the Rule #1 valuation engine

    A shallow embedding of [src/lib/valuations/rule1.ts] and of
    [src/app/api/financials/route.ts]: its pure helpers, the parsing of
    the price feeds, and the valuation its [GET] handler computes from the
    documents it has fetched.

    JavaScript numbers are IEEE 754 binary64 values; they are modelled by
    Rocq's primitive [float], whose operations are the same binary64
    operations (NaN, the two infinities and the two zeros included).
    Strings are [string], compared code unit by code unit as [<] and [<=]
    compare them; arrays are [list]; a [Map] is an association list in
    insertion order; a [null] or [undefined] result is [None]; a call that
    can raise a [TypeError] returns a [completion].

    What belongs to the JavaScript engine and not to the program
    ([Math.pow], [Math.round], the conversion [Number(s)] of a string, the
    clock reading of a [Date], the collation of [localeCompare]) is a
    parameter of the definitions that use it, and the theorems hold for
    every value of it. What comes over the network (the company facts, the
    price texts, the query string) is an argument.

    Part I holds the definitions: the program, then the vocabulary of the
    properties and sample inputs. Part II holds the properties. *)

From Stdlib Require Import Floats ZArith List String Ascii Bool Lia Permutation.
From Stdlib Require Import DecimalString Sorted OrderedTypeEx.
From Equations Require Import Equations.
Import ListNotations.

Set Implicit Arguments.
Unset Strict Implicit.

(** Decimal literals denote the nearest binary64 value, as in JavaScript. *)
Set Warnings "-inexact-float".

(* ===================================================================== *)
(** * Part I. The program                                                 *)
(* ===================================================================== *)

(* ===================================================================== *)
(** ** Keys for the order of binary64 values                              *)
(* ===================================================================== *)

(** The comparison primitives are specified by [SFcompare] on [spec_float].
    [SFkey] sends every value that is not NaN to a triple of integers on
    which the lexicographic order is the order of the floats, so that order
    facts about floats become linear integer arithmetic. *)

Module F64.

Local Open Scope Z_scope.

Definition SFkey (x : spec_float) : Z * Z * Z :=
  match x with
  | S754_nan => (0, 0, 0)
  | S754_infinity true => (-2, 0, 0)
  | S754_finite true m e => (-1, - e, - Zpos m)
  | S754_zero _ => (0, 0, 0)
  | S754_finite false m e => (1, e, Zpos m)
  | S754_infinity false => (2, 0, 0)
  end.

Definition cmp3 (k k' : Z * Z * Z) : comparison :=
  let '(a, b, c) := k in
  let '(a', b', c') := k' in
  match a ?= a' with
  | Eq => match b ?= b' with Eq => c ?= c' | r => r end
  | r => r
  end.

Definition lt3 (k k' : Z * Z * Z) : Prop :=
  let '(a, b, c) := k in
  let '(a', b', c') := k' in
  a < a' \/ (a = a' /\ (b < b' \/ (b = b' /\ c < c'))).

Definition le3 (k k' : Z * Z * Z) : Prop :=
  let '(a, b, c) := k in
  let '(a', b', c') := k' in
  a < a' \/ (a = a' /\ (b < b' \/ (b = b' /\ c <= c'))).

Definition eq3 (k k' : Z * Z * Z) : Prop :=
  let '(a, b, c) := k in
  let '(a', b', c') := k' in
  a = a' /\ b = b' /\ c = c'.

Definition key (x : float) : Z * Z * Z := SFkey (Prim2SF x).

Definition notNaN (x : float) : Prop := Prim2SF x <> S754_nan.

End F64.

(* ===================================================================== *)
(** ** JavaScript built-ins used by the program                           *)
(* ===================================================================== *)

Module JS.
Import F64.
Local Open Scope float_scope.

(** [Number.isFinite(x)] on a value that is a number. *)
Definition Number_isFinite (x : float) : bool := is_finite x.

(** [Math.min(a, b)]: NaN when either argument is NaN; [-0] is below [+0]. *)
Definition Math_min (a b : float) : float :=
  match a ?= b with
  | FNotComparable => nan
  | FLt => a
  | FGt => b
  | FEq => if get_sign a then a else b
  end.

(** [Math.max(a, b)]: NaN when either argument is NaN; [+0] is above [-0]. *)
Definition Math_max (a b : float) : float :=
  match a ?= b with
  | FNotComparable => nan
  | FLt => b
  | FGt => a
  | FEq => if get_sign a then b else a
  end.

Definition Math_abs (x : float) : float := abs x.

(** [a < b] and [a > b] on strings compare code units lexicographically. *)
Definition str_lt (a b : string) : bool := String.ltb a b.
Definition str_le (a b : string) : bool := String.leb a b.

(** [s.slice(i, j)] for [0 <= i <= j]. *)
Definition slice (i j : nat) (s : string) : string := substring i (j - i) s.

(** [s.replaceAll("-", "")]. *)
Fixpoint removeHyphens (s : string) : string :=
  match s with
  | EmptyString => EmptyString
  | String c s' =>
      if Ascii.eqb c "-"%char then removeHyphens s' else String c (removeHyphens s')
  end.

(** Truthiness of a number and of a string. *)
Definition truthyNum (x : float) : bool := negb (is_nan x || is_zero x).
Definition truthyStr (s : string) : bool :=
  match s with EmptyString => false | _ => true end.

(** ** [Number(s)] on digit strings

    For a string of decimal digits [Number(s)] is the integer it spells
    (and [Number("")] is 0). [digitsToNumber] computes that value, exactly
    below 2^53, and answers NaN on every other string. It stands for the
    engine's conversion wherever a statement is applied to ISO dates. *)
Definition digitValue (c : ascii) : option float :=
  let code := nat_of_ascii c in
  if (48 <=? code)%nat && (code <=? 57)%nat
  then nth_error [0; 1; 2; 3; 4; 5; 6; 7; 8; 9]%float (code - 48)
  else None.

Fixpoint digitsFrom (acc : float) (s : string) : float :=
  match s with
  | EmptyString => acc
  | String c s' =>
      match digitValue c with
      | Some d => digitsFrom (acc * 10 + d) s'
      | None => nan
      end
  end.

Definition digitsToNumber (s : string) : float := digitsFrom 0 s.

(** ** [Array.prototype.sort(compareFn)]

    The comparator's sign is a [comparison]. The sort is stable (ES2019);
    for a consistent comparator its result is the one stable insertion sort
    computes. *)

Section Sort.

Variable A : Type.
Variable cmp : A -> A -> comparison.

Fixpoint insert (x : A) (l : list A) : list A :=
  match l with
  | [] => [x]
  | y :: l' =>
      match cmp x y with
      | Gt => y :: insert x l'
      | _ => x :: l
      end
  end.

Fixpoint sort (l : list A) : list A :=
  match l with
  | [] => []
  | x :: l' => insert x (sort l')
  end.

(** Adjacent elements are in comparator order. *)
Fixpoint ordered (l : list A) : Prop :=
  match l with
  | [] => True
  | x :: l' =>
      match l' with
      | [] => True
      | y :: _ => cmp x y <> Gt /\ ordered l'
      end
  end.

End Sort.

(** [a === b] on numbers, and the SameValueZero comparison of [Map] keys,
    under which NaN equals NaN. *)
Definition strictEquals (a b : float) : bool := (a =? b).
Definition sameValueZero (a b : float) : bool :=
  (a =? b) || (is_nan a && is_nan b).

(** ** Strings

    A string is its sequence of code units, each below 256. *)

(** The white space and line terminators [trim] strips, among the code
    units below 256: TAB, LF, VT, FF, CR, SPACE and NO-BREAK SPACE. *)
Definition isWhiteSpace (c : ascii) : bool :=
  let n := nat_of_ascii c in
  ((9 <=? n)%nat && (n <=? 13)%nat) || (n =? 32)%nat || (n =? 160)%nat.

Fixpoint trimStart (s : string) : string :=
  match s with
  | EmptyString => EmptyString
  | String c s' => if isWhiteSpace c then trimStart s' else s
  end.

Fixpoint trimEnd (s : string) : string :=
  match s with
  | EmptyString => EmptyString
  | String c s' =>
      match trimEnd s' with
      | EmptyString => if isWhiteSpace c then EmptyString else String c EmptyString
      | t => String c t
      end
  end.

(** [s.trim()]. *)
Definition trim (s : string) : string := trimEnd (trimStart s).

(** [s.replaceAll(c, "")] for a one-character [c]. *)
Fixpoint removeAll (c : ascii) (s : string) : string :=
  match s with
  | EmptyString => EmptyString
  | String d s' => if Ascii.eqb d c then removeAll c s' else String d (removeAll c s')
  end.

(** [s.split(sep)] for a one-character separator: the pieces between the
    separators, one more than there are separators. *)
Fixpoint split (sep : ascii) (s : string) : list string :=
  match s with
  | EmptyString => [EmptyString]
  | String c s' =>
      if Ascii.eqb c sep then EmptyString :: split sep s'
      else match split sep s' with
           | [] => [String c EmptyString]
           | piece :: pieces => String c piece :: pieces
           end
  end.

(** [a.indexOf(x)] on an array of strings; [None] is [-1]. *)
Fixpoint indexOf (x : string) (a : list string) : option nat :=
  match a with
  | [] => None
  | y :: a' => if String.eqb y x then Some 0%nat
               else option_map S (indexOf x a')
  end.

(** [s.toUpperCase()]. The small letters of the code units below 256 map
    to their capitals, and the sharp s to [SS]. The micro sign and the y
    with diaeresis have their capitals above 255; they are left in place,
    where a test against ASCII letters fails as it does on their
    capitals. *)
Definition upperChar (c : ascii) : string :=
  let n := nat_of_ascii c in
  if (97 <=? n)%nat && (n <=? 122)%nat then String (ascii_of_nat (n - 32)) EmptyString
  else if (n =? 223)%nat then "SS"%string
  else if (224 <=? n)%nat && (n <=? 254)%nat && negb (n =? 247)%nat
       then String (ascii_of_nat (n - 32)) EmptyString
  else String c EmptyString.

Fixpoint toUpperCase (s : string) : string :=
  match s with
  | EmptyString => EmptyString
  | String c s' => (upperChar c ++ toUpperCase s')%string
  end.

(** The number of elements of an array, as a number. *)
Definition ofLength (n : nat) : float := of_uint63 (Uint63.of_Z (Z.of_nat n)).

End JS.

(** A call either returns a value or throws: reading a property of
    [undefined] raises a [TypeError]. *)
Inductive completion (A : Type) : Type :=
| Return (a : A)
| Throw.
Arguments Throw {A}.

Definition bind {A B : Type} (c : completion A) (k : A -> completion B)
  : completion B :=
  match c with
  | Return a => k a
  | Throw => Throw
  end.

Notation "'let*' x ':=' c 'in' k" := (bind c (fun x => k))
  (at level 10, x pattern, c at level 100, k at level 200).

(** [a[i]] followed by a property read: the element, or a [TypeError] when
    the index is out of range. *)
Definition element {A : Type} (a : list A) (i : nat) : completion A :=
  match nth_error a i with
  | Some x => Return x
  | None => Throw
  end.

(* ===================================================================== *)
(** ** [src/lib/valuations/rule1.ts]                                      *)
(* ===================================================================== *)

Module Rule1.
Import F64 JS.
Local Open Scope float_scope.
Local Open Scope string_scope.

(** [{ end: string; val: number }]; [end] is [end_] here. *)
Record SeriesPoint : Type := { end_ : string; val : float }.

Inductive GrowthBasis : Type :=
| bvps_5y | bvps_10y | fcf_5y | fcf_10y | eps_5y | eps_10y.

Definition growthBasisLabel (b : GrowthBasis) : string :=
  match b with
  | bvps_5y => "BVPS last 5 years"
  | bvps_10y => "BVPS last 10 years"
  | fcf_5y => "Free Cash Flow last 5 years"
  | fcf_10y => "Free Cash Flow last 10 years"
  | eps_5y => "EPS last 5 years"
  | eps_10y => "EPS last 10 years"
  end.

Record Rule1Inputs : Type := {
  eps : list SeriesPoint;
  bookValuePerShareUSD : list SeriesPoint;
  freeCashFlowUSD : list SeriesPoint;
  historicPeRatio : option float;
  latestPriceUSD : option float
}.

Record Rule1Knobs : Type := {
  years : float;
  analystGrowth : float;
  desiredReturn : float;
  marginOfSafetyPercent : float;
  growthBasis : GrowthBasis
}.

(** The [error] object of a [Rule1Failure]; its [growthBasis] field is
    [errorGrowthBasis] here. *)
Record Rule1Error : Type := {
  type : string;
  message : string;
  errorGrowthBasis : GrowthBasis;
  pointsNeeded : nat;
  pointsAvailable : nat
}.

Record Rule1Failure : Type := { error : Rule1Error }.

Record Basis : Type := {
  key : GrowthBasis;
  label : string;
  pointsUsed : nat;
  yearsActual : float;
  startEnd : string;
  endEnd : string;
  startVal : float;
  endVal : float;
  growth : float
}.

Record Rule1Result : Type := {
  latestEps : float;
  basis : Basis;
  chosenGrowth : float;
  historicPeUsed : float;
  futureValue : float;
  stickerPrice : float;
  stickerPriceWithMOS : float;
  currentPrice : option float
}.

Inductive Rule1ResultOrFailure : Type :=
| Result (r : Rule1Result)
| Failure (e : Rule1Failure).

(** What [computeGrowthByPoints] returns when it does not return [null]. *)
Record Growth : Type := {
  g_start : SeriesPoint;
  g_end : SeriesPoint;
  g_yearsActual : float;
  g_growth : float
}.

(** The comparator of [normalizeSeries]:
    [a.end < b.end ? -1 : a.end > b.end ? 1 : 0]. *)
Definition compareEnd (a b : SeriesPoint) : comparison :=
  if str_lt (end_ a) (end_ b) then Lt
  else if str_lt (end_ b) (end_ a) then Gt
  else Eq.

(** Every element is a [SeriesPoint], so [p] is truthy and [p.end] is a
    string; the filter keeps the points whose value is finite. (A [null]
    value, which the route's metric points can carry, is no finite number
    either and is dropped alike; NaN stands for it.) [slice()] copies. *)
Definition normalizeSeries (series : list SeriesPoint) : list SeriesPoint :=
  sort compareEnd (filter (fun p => Number_isFinite (val p)) series).

Definition pointsNeededForBasis (b : GrowthBasis) : nat :=
  match b with
  | bvps_5y | fcf_5y | eps_5y => 6
  | bvps_10y | fcf_10y | eps_10y => 10
  end.

Definition decimal (n : nat) : string := NilEmpty.string_of_uint (Nat.to_uint n).

Section Runtime.

(** [Math.pow] and the conversion [Number(s)] of a string are the
    engine's; the program is modelled over any such pair. *)
Variable Math_pow : float -> float -> float.
Variable Number : string -> float.

Definition yearOf (e : string) : float := Number (slice 0 4 e).

Definition cagr (start end' years : float) : float :=
  if negb (Number_isFinite start) || negb (Number_isFinite end')
     || (years <=? 0)%float then 0%float
  else if (start <=? 0)%float || (end' <=? 0)%float then 0%float
  else (Math_pow (end' / start) (1 / years) - 1)%float.

Definition computeGrowthByPoints (series : list SeriesPoint) (points : nat)
  : completion (option Growth) :=
  let s := normalizeSeries series in
  if (List.length s <? points)%nat then Return None else
  let* e := element s (List.length s - 1) in
  let* st := element s (List.length s - points) in
  let yearsActual := Math_max 1 (yearOf (end_ e) - yearOf (end_ st)) in
  let growth := cagr (val st) (val e) yearsActual in
  Return (Some {| g_start := st; g_end := e;
                  g_yearsActual := yearsActual; g_growth := growth |}).

Definition basisSeriesOf (inputs : Rule1Inputs) (b : GrowthBasis)
  : list SeriesPoint :=
  match b with
  | bvps_5y | bvps_10y => bookValuePerShareUSD inputs
  | fcf_5y | fcf_10y => freeCashFlowUSD inputs
  | eps_5y | eps_10y => eps inputs
  end.

Definition calculateRule1 (inputs : Rule1Inputs) (knobs : Rule1Knobs)
  : completion (option Rule1ResultOrFailure) :=
  let epsSeries := normalizeSeries (eps inputs) in
  if (List.length epsSeries =? 0)%nat then Return None else
  let* lastEps := element epsSeries (List.length epsSeries - 1) in
  let latestEps := val lastEps in
  match historicPeRatio inputs with
  | None => Return None
  | Some pe =>
  if negb (Number_isFinite pe) || (pe <=? 0)%float then Return None else
  let basisKey := growthBasis knobs in
  let basisLabel := growthBasisLabel basisKey in
  let basisSeries := basisSeriesOf inputs basisKey in
  let pointsNeeded := pointsNeededForBasis basisKey in
  let normalized := normalizeSeries basisSeries in
  let pointsAvailable := List.length normalized in
  let* g := computeGrowthByPoints normalized pointsNeeded in
  match g with
  | None =>
      Return (Some (Failure {| error := {|
        type := "GROWTH_BASIS_UNAVAILABLE";
        message := "Not enough data to compute " ++ basisLabel
                   ++ " (need " ++ decimal pointsNeeded
                   ++ " annual points, have " ++ decimal pointsAvailable ++ ")";
        errorGrowthBasis := basisKey;
        pointsNeeded := pointsNeeded;
        pointsAvailable := pointsAvailable |} |}))
  | Some g =>
      let basisGrowth := g_growth g in
      let chosenGrowth := Math_min (analystGrowth knobs) basisGrowth in
      let futureValue :=
        (latestEps * pe * Math_pow (1 + chosenGrowth) (years knobs))%float in
      let stickerPrice :=
        (futureValue / Math_pow (1 + desiredReturn knobs) (years knobs))%float in
      let mosFactor :=
        Math_max 0 (Math_min 1 ((100 - marginOfSafetyPercent knobs) / 100)) in
      let stickerPriceWithMOS := (stickerPrice * mosFactor)%float in
      Return (Some (Result {|
        latestEps := latestEps;
        basis := {| key := basisKey; label := basisLabel;
                    pointsUsed := pointsNeeded;
                    yearsActual := g_yearsActual g;
                    startEnd := end_ (g_start g); endEnd := end_ (g_end g);
                    startVal := val (g_start g); endVal := val (g_end g);
                    growth := basisGrowth |};
        chosenGrowth := chosenGrowth;
        historicPeUsed := pe;
        futureValue := futureValue;
        stickerPrice := stickerPrice;
        stickerPriceWithMOS := stickerPriceWithMOS;
        currentPrice := latestPriceUSD inputs |}))
  end
  end.

End Runtime.

Local Close Scope float_scope.

(** ** Vocabulary of the properties *)

(** When the engine cannot attempt a valuation: no finite EPS point, or a
    historic P/E that is [null], not finite, or not above zero. *)
Definition cannotAttempt (inputs : Rule1Inputs) : Prop :=
  normalizeSeries (eps inputs) = [] \/
  match historicPeRatio inputs with
  | None => True
  | Some pe => Number_isFinite pe = false \/ (pe <=? 0)%float = true
  end.

(** The failure object built for a basis with too few points. *)
Definition failureFor (b : GrowthBasis) (available : nat) : Rule1Failure :=
  {| error :=
       {| type := "GROWTH_BASIS_UNAVAILABLE";
          message := "Not enough data to compute " ++ growthBasisLabel b
                     ++ " (need " ++ decimal (pointsNeededForBasis b)
                     ++ " annual points, have " ++ decimal available ++ ")";
          errorGrowthBasis := b;
          pointsNeeded := pointsNeededForBasis b;
          pointsAvailable := available |} |}.

(** The key of a growth basis in the query string. *)
Definition growthBasisKey (b : GrowthBasis) : string :=
  match b with
  | bvps_5y => "bvps_5y"
  | bvps_10y => "bvps_10y"
  | fcf_5y => "fcf_5y"
  | fcf_10y => "fcf_10y"
  | eps_5y => "eps_5y"
  | eps_10y => "eps_10y"
  end.

Section Outcomes.

Variable Math_pow : float -> float -> float.
Variable Number : string -> float.

(** The record [calculateRule1] returns once the latest EPS point, the
    historic P/E and the two endpoints of the basis are known. *)
Definition resultFor (inputs : Rule1Inputs) (knobs : Rule1Knobs)
  (lastEps : SeriesPoint) (pe : float) (st e : SeriesPoint) : Rule1Result :=
  let yearsActual := Math_max 1 (yearOf Number (end_ e) - yearOf Number (end_ st)) in
  let basisGrowth := cagr Math_pow (val st) (val e) yearsActual in
  let chosenGrowth := Math_min (analystGrowth knobs) basisGrowth in
  let futureValue :=
    (val lastEps * pe * Math_pow (1 + chosenGrowth) (years knobs))%float in
  let stickerPrice :=
    (futureValue / Math_pow (1 + desiredReturn knobs) (years knobs))%float in
  let mosFactor :=
    Math_max 0 (Math_min 1 ((100 - marginOfSafetyPercent knobs) / 100)) in
  {| latestEps := val lastEps;
     basis := {| key := growthBasis knobs;
                 label := growthBasisLabel (growthBasis knobs);
                 pointsUsed := pointsNeededForBasis (growthBasis knobs);
                 yearsActual := yearsActual;
                 startEnd := end_ st; endEnd := end_ e;
                 startVal := val st; endVal := val e;
                 growth := basisGrowth |};
     chosenGrowth := chosenGrowth;
     historicPeUsed := pe;
     futureValue := futureValue;
     stickerPrice := stickerPrice;
     stickerPriceWithMOS := (stickerPrice * mosFactor)%float;
     currentPrice := latestPriceUSD inputs |}.

End Outcomes.

(** The distinct period ends of a series. *)
Definition distinctEnds (series : list SeriesPoint) : list string :=
  nodup string_dec (map end_ series).

(** ** Sample inputs *)

Definition point (e : string) (v : float) : SeriesPoint := {| end_ := e; val := v |}.

(** Nine fiscal years, 2012 to 2020, and the same with 2011 in front. *)
Definition nineYears : list SeriesPoint :=
  [ point "2012-12-31" 1.1; point "2013-12-31" 1.2; point "2014-12-31" 1.3;
    point "2015-12-31" 1.4; point "2016-12-31" 1.5; point "2017-12-31" 1.6;
    point "2018-12-31" 1.7; point "2019-12-31" 1.8; point "2020-12-31" 1.9 ]%float.

Definition tenYears : list SeriesPoint := point "2011-12-31" 1%float :: nineYears.

Definition inputsWith (epsSeries : list SeriesPoint) (pe : option float)
  : Rule1Inputs :=
  {| eps := epsSeries; bookValuePerShareUSD := []; freeCashFlowUSD := [];
     historicPeRatio := pe; latestPriceUSD := None |}.

Definition knobsWith (analyst mos : float) (b : GrowthBasis) : Rule1Knobs :=
  {| years := 10; analystGrowth := analyst; desiredReturn := 0.15;
     marginOfSafetyPercent := mos; growthBasis := b |}.

(** Six fiscal years whose first value is 100 in 2015 and whose last is 200
    in 2020. *)
Definition doubledInFiveYears : list SeriesPoint :=
  [ point "2015-12-31" 100; point "2016-12-31" 120; point "2017-12-31" 140;
    point "2018-12-31" 160; point "2019-12-31" 180; point "2020-12-31" 200 ].

(** Eight points filed out of order, one of them with no finite value:
    the seven fiscal years 2014 to 2020, with 100 in 2015 and 200 in
    2020. *)
Definition sevenYearsScattered : list SeriesPoint :=
  [ point "2018-12-31" 160; point "2015-12-31" 100; point "2020-12-31" 200;
    point "2014-12-31" 90; point "2021-12-31" nan; point "2016-12-31" 120;
    point "2019-12-31" 180; point "2017-12-31" 140 ].

(** Fiscal 2020 reported twice: five points on four period ends, and six
    points on five period ends. *)
Definition fivePointsFourYears : list SeriesPoint :=
  [ point "2017-12-31" 2; point "2018-12-31" 3; point "2019-12-31" 4;
    point "2020-12-31" 5; point "2020-12-31" 6 ].

Definition sixPointsFiveYears : list SeriesPoint :=
  point "2016-12-31" 1 :: fivePointsFourYears.

End Rule1.

(* ===================================================================== *)
(** ** Parsed JSON documents                                              *)
(* ===================================================================== *)

(** The company-facts document is the result of [JSON.parse] and is typed
    [any]. An object lists its properties in enumeration order, each key
    once. *)

Module Json.

Unset Elimination Schemes.
Inductive value : Type :=
| Null
| Bool (b : bool)
| Num (x : float)
| Str (s : string)
| Arr (xs : list value)
| Obj (props : list (string * value)).
Set Elimination Schemes.

Fixpoint assoc {A : Type} (k : string) (props : list (string * A)) : option A :=
  match props with
  | [] => None
  | (k', v) :: rest => if String.eqb k k' then Some v else assoc k rest
  end.

(** The index keys ["0"], ["1"], ... of an array of [n] elements. *)
Definition indexKeys (n : nat) : list string :=
  map (fun i => NilEmpty.string_of_uint (Nat.to_uint i)) (seq 0 n).

(** [v[k]] on a value that is not [null]: [None] is [undefined]. Objects
    answer with their own properties and arrays with their elements; the
    keys read by the program ([facts], [us-gaap], tag names, [units], unit
    keys, [form], [fp], [end], [val], [frame]) name no built-in property of
    an array, a string, a number or a boolean, so every other read is
    [undefined]. *)
Definition get (v : value) (k : string) : option value :=
  match v with
  | Obj props => assoc k props
  | Arr xs => assoc k (combine (indexKeys (List.length xs)) xs)
  | _ => None
  end.

(** [o?.[k]]: [undefined] when [o] is [undefined] or [null]. *)
Definition oget (o : option value) (k : string) : option value :=
  match o with
  | Some v => get v k
  | None => None
  end.

(** [Object.keys(v)] for an object or an array. *)
Definition keys (v : value) : list string :=
  match v with
  | Obj props => map fst props
  | Arr xs => indexKeys (List.length xs)
  | _ => []
  end.

(** [!!v]. *)
Definition truthy (v : value) : bool :=
  match v with
  | Null => false
  | Bool b => b
  | Num x => JS.truthyNum x
  | Str s => JS.truthyStr s
  | Arr _ | Obj _ => true
  end.

(** [v && typeof v === "object"]. *)
Definition isObjectLike (o : option value) : bool :=
  match o with
  | Some (Obj _) | Some (Arr _) => true
  | _ => false
  end.

(** ** Reads that can throw *)

(** [o.k] and [o[k]]: reading a property of [undefined] or of [null]
    raises a [TypeError]. *)
Definition read (o : option value) (k : string) : completion (option value) :=
  match o with
  | None | Some Null => Throw
  | Some v => Return (get v k)
  end.

(** [o?.[k]]: [undefined], and no read, when [o] is [undefined] or
    [null]. *)
Definition readOptional (o : option value) (k : string)
  : completion (option value) :=
  match o with
  | None | Some Null => Return None
  | Some _ => read o k
  end.

(** [Object.keys(o)]: a [TypeError] on [undefined] and on [null]; a string
    lists its indices, a number and a boolean nothing. *)
Definition Object_keys (o : option value) : completion (list string) :=
  match o with
  | None | Some Null => Throw
  | Some (Str s) => Return (indexKeys (String.length s))
  | Some v => Return (keys v)
  end.

(** [Array.isArray(o)]. *)
Definition isArray (o : option value) : bool :=
  match o with
  | Some (Arr _) => true
  | _ => false
  end.

End Json.

(* ===================================================================== *)
(** ** [src/app/api/financials/route.ts]: the pure helpers                *)
(* ===================================================================== *)

Module Route.
Import F64 JS Json.
Local Open Scope string_scope.

(** [{ end: string; val: number }]. *)
Record YearPoint : Type := { end_ : string; val : float }.

(** [{ date: string; close: number }]. *)
Record DailyClose : Type := { date : string; close : float }.

(** [o === s] for a string literal [s]. *)
Definition isStr (o : option value) (s : string) : bool :=
  match o with
  | Some (Str t) => String.eqb t s
  | _ => false
  end.

(** [/Q[1-4]/.test(s)]: a [Q] directly followed by one of [1] to [4]. *)
Fixpoint matchesQuarter (s : string) : bool :=
  match s with
  | EmptyString => false
  | String c s' =>
      (Ascii.eqb c "Q"%char &&
       match s' with
       | String d _ =>
           Ascii.eqb d "1"%char || Ascii.eqb d "2"%char
           || Ascii.eqb d "3"%char || Ascii.eqb d "4"%char
       | EmptyString => false
       end)
      || matchesQuarter s'
  end.

(** [s.toLowerCase()] on the ASCII letters. *)
Definition lowerChar (c : ascii) : ascii :=
  let n := nat_of_ascii c in
  if (65 <=? n)%nat && (n <=? 90)%nat then ascii_of_nat (n + 32) else c.

Fixpoint toLowerCase (s : string) : string :=
  match s with
  | EmptyString => EmptyString
  | String c s' => String (lowerChar c) (toLowerCase s')
  end.

(** [s.includes(t)]. *)
Fixpoint includes (t s : string) : bool :=
  prefix t s ||
  match s with
  | EmptyString => false
  | String _ s' => includes t s'
  end.

(** [filter] followed by [map], or a loop that [push]es what passes. *)
Definition collect {A B : Type} (f : A -> option B) (l : list A) : list B :=
  flat_map (fun x => match f x with Some y => [y] | None => [] end) l.

(** The annual-fact filter of [pickAnnualSeriesByUnit] and
    [mergeAnnualUSDSeries], with the point it maps a passing fact to. *)
Definition annualPoint (x : value) : option YearPoint :=
  if negb (truthy x) then None
  else if negb (isStr (get x "form") "10-K") then None
  else if negb (isStr (get x "fp") "FY") then None
  else
    match get x "end" with
    | Some (Str e) =>
        match get x "val" with
        | Some (Num v) =>
            if negb (Number_isFinite v) then None
            else
              match get x "frame" with
              | Some (Str f) =>
                  if matchesQuarter f then None
                  else Some {| end_ := e; val := v |}
              | _ => Some {| end_ := e; val := v |}
              end
        | _ => None
        end
    | _ => None
    end.

(** The test of the date lookups:
    [!x || typeof x.end !== "string" || !isFiniteNumber(x.val)] fails. *)
Definition datedPoint (x : value) : option YearPoint :=
  if negb (truthy x) then None
  else
    match get x "end", get x "val" with
    | Some (Str e), Some (Num v) =>
        if Number_isFinite v then Some {| end_ := e; val := v |} else None
    | _, _ => None
    end.

(** [facts?.facts?.["us-gaap"]?.[tag]?.units]. *)
Definition unitsOf (facts : value) (tag : string) : option value :=
  oget (oget (oget (oget (Some facts) "facts") "us-gaap") tag) "units".

(** ** [Map<string, number>], in insertion order *)

Definition EndMap : Type := list (string * float).

Definition Map_get (m : EndMap) (k : string) : option float := assoc k m.

Fixpoint Map_set (m : EndMap) (k : string) (v : float) : EndMap :=
  match m with
  | [] => [(k, v)]
  | (k', v') :: rest =>
      if String.eqb k k' then (k', v) :: rest else (k', v') :: Map_set rest k v
  end.

(** One turn of the de-duplication loop. *)
Definition keepLarger (byEnd : EndMap) (p : YearPoint) : EndMap :=
  match Map_get byEnd (end_ p) with
  | None => Map_set byEnd (end_ p) (val p)
  | Some prev =>
      if (Math_abs prev <? Math_abs (val p))%float
      then Map_set byEnd (end_ p) (val p)
      else byEnd
  end.

Definition dedupeByEnd (points : list YearPoint) : EndMap :=
  fold_left keepLarger points [].

Definition entries (byEnd : EndMap) : list YearPoint :=
  map (fun kv => {| end_ := fst kv; val := snd kv |}) byEnd.

(** ** Annual series *)

Section Collation.

(** The sign of [a.localeCompare(b)] in the server's locale. *)
Variable localeCompare : string -> string -> comparison.

Definition compareByEnd (a b : YearPoint) : comparison :=
  localeCompare (end_ a) (end_ b).

(** [Array.from(byEnd.entries()).map(...).sort(...)] after the
    de-duplication loop. *)
Definition annualOf (raw : list YearPoint) : list YearPoint :=
  sort compareByEnd (entries (dedupeByEnd raw)).

(** The facts one turn of the loop of [pickAnnualSeriesByUnit] filters:
    those of the first unit key that satisfies the predicate, and none
    when the turn ends in [continue]. *)
Definition unitFacts (facts : value) (tag : string)
  (unitPredicate : string -> bool) : list value :=
  let node := unitsOf facts tag in
  match node with
  | Some n =>
      if negb (isObjectLike node) then []
      else
        match find unitPredicate (keys n) with
        | Some unitKey =>
            if negb (truthyStr unitKey) then []
            else
              match get n unitKey with
              | Some (Arr arr) => arr
              | _ => []
              end
        | None => []
        end
  | None => []
  end.

(** [annual] of one turn of the loop. *)
Definition tagAnnual (facts : value) (tag : string)
  (unitPredicate : string -> bool) : list YearPoint :=
  annualOf (collect annualPoint (unitFacts facts tag unitPredicate)).

Fixpoint pickAnnualSeriesByUnit (facts : value) (tagCandidates : list string)
  (unitPredicate : string -> bool) : list YearPoint :=
  match tagCandidates with
  | [] => []
  | tag :: rest =>
      match tagAnnual facts tag unitPredicate with
      | [] => pickAnnualSeriesByUnit facts rest unitPredicate
      | annual => annual
      end
  end.

Definition pickAnnualUSDSeries (facts : value) (tagCandidates : list string)
  : list YearPoint :=
  pickAnnualSeriesByUnit facts tagCandidates (fun u => String.eqb u "USD").

Definition pickAnnualEPSSeries (facts : value) (tagCandidates : list string)
  : list YearPoint :=
  pickAnnualSeriesByUnit facts tagCandidates
    (fun u => includes "usd" (toLowerCase u) && includes "shares" (toLowerCase u)).

(** The array [facts?.facts?.["us-gaap"]?.[tag]?.units?.["USD"]], empty
    when it is not an array. *)
Definition usdFacts (facts : value) (tag : string) : list value :=
  match oget (unitsOf facts tag) "USD" with
  | Some (Arr node) => node
  | _ => []
  end.

Definition mergeAnnualUSDSeries (facts : value) (tagCandidates : list string)
  : list YearPoint :=
  let all := flat_map (fun tag => collect annualPoint (usdFacts facts tag))
                      tagCandidates in
  annualOf all.

End Collation.

(** ** The annual series, read by read

    [pickAnnualSeriesByUnit] once more, with every property read, the call
    of [Object.keys] and the call of [filter] as steps that can throw. *)

(** [filter] followed by [map] with a callback that can throw. *)
Fixpoint collect_run {A B : Type} (f : A -> completion (option B)) (l : list A)
  : completion (list B) :=
  match l with
  | [] => Return []
  | x :: l' =>
      let* y := f x in
      let* ys := collect_run f l' in
      Return (match y with Some p => p :: ys | None => ys end)
  end.

(** [o.filter(...).map(...)]: a [TypeError] when [o] has no [filter]
    method, which only arrays have. *)
Definition filterMap_run {B : Type} (o : option value)
  (f : value -> completion (option B)) : completion (list B) :=
  match o with
  | Some (Arr xs) => collect_run f xs
  | _ => Throw
  end.

(** The callback of [filter] on an element [x], with the point the
    callback of [map] makes of a passing one. *)
Definition annualPoint_run (x : value) : completion (option YearPoint) :=
  if negb (truthy x) then Return None else
  let* form := read (Some x) "form" in
  if negb (isStr form "10-K") then Return None else
  let* fp := read (Some x) "fp" in
  if negb (isStr fp "FY") then Return None else
  let* e := read (Some x) "end" in
  match e with
  | Some (Str e') =>
      let* v := read (Some x) "val" in
      match v with
      | Some (Num v') =>
          if negb (Number_isFinite v') then Return None else
          let* frame := read (Some x) "frame" in
          match frame with
          | Some (Str f) =>
              if matchesQuarter f then Return None
              else Return (Some {| end_ := e'; val := v' |})
          | _ => Return (Some {| end_ := e'; val := v' |})
          end
      | _ => Return None
      end
  | _ => Return None
  end.

Section CollationRun.

Variable localeCompare : string -> string -> comparison.

(** One turn of the loop over the tag candidates; a turn that ends in
    [continue] has no annual point. *)
Definition tagAnnual_run (facts : value) (tag : string)
  (unitPredicate : string -> bool) : completion (list YearPoint) :=
  let* f := readOptional (Some facts) "facts" in
  let* g := readOptional f "us-gaap" in
  let* t := readOptional g tag in
  let* node := readOptional t "units" in
  if negb (isObjectLike node) then Return [] else
  let* unitKeys := Object_keys node in
  match find unitPredicate unitKeys with
  | None => Return []
  | Some unitKey =>
      if negb (truthyStr unitKey) then Return [] else
      let* arr := read node unitKey in
      if negb (isArray arr) then Return [] else
      let* annualRaw := filterMap_run arr annualPoint_run in
      Return (annualOf localeCompare annualRaw)
  end.

Fixpoint pickAnnualSeriesByUnit_run (facts : value) (tagCandidates : list string)
  (unitPredicate : string -> bool) : completion (list YearPoint) :=
  match tagCandidates with
  | [] => Return []
  | tag :: rest =>
      let* annual := tagAnnual_run facts tag unitPredicate in
      match annual with
      | [] => pickAnnualSeriesByUnit_run facts rest unitPredicate
      | _ => Return annual
      end
  end.

End CollationRun.

(** ** [closeOnOrBefore] *)

(** [history[i]] followed by a property read, for an integer index: a
    [TypeError] when [i] is outside the array. *)
Definition elementZ {A : Type} (a : list A) (i : Z) : completion A :=
  if (i <? 0)%Z then Throw else element a (Z.to_nat i).

(** The [while (lo <= hi)] loop; it returns the final [ans]. *)
Equations? searchLoop (history : list DailyClose) (isoDate : string)
  (lo hi ans : Z) : completion Z by wf (Z.to_nat (hi - lo + 1)) lt :=
searchLoop history isoDate lo hi ans with Z_le_gt_dec lo hi := {
  | right _ => Return ans
  | left _ with elementZ history ((lo + hi) / 2) := {
      | Throw => Throw
      | Return h with str_le (date h) isoDate := {
          | true => searchLoop history isoDate ((lo + hi) / 2 + 1) hi ((lo + hi) / 2)
          | false => searchLoop history isoDate lo ((lo + hi) / 2 - 1) ans } } }.
Proof.
  all: assert (lo <= (lo + hi) / 2 <= hi)%Z
    by (split; [apply Z.div_le_lower_bound | apply Z.div_le_upper_bound]; lia);
    lia.
Qed.

Definition closeOnOrBefore (history : list DailyClose) (isoDate : string)
  : completion (option float) :=
  let* ans := searchLoop history isoDate 0 (Z.of_nat (List.length history) - 1) (-1) in
  if (0 <=? ans)%Z
  then let* h := elementZ history ans in Return (Some (close h))
  else Return None.

(** ** Nearest-date lookups *)

(** The [for (const c of candidates)] loop shared by the three lookups:
    a candidate replaces the best one when its distance is strictly
    smaller. *)
Fixpoint nearestLoop (diff : YearPoint -> float) (candidates : list YearPoint)
  (best : option YearPoint) (bestDiff : float) : option YearPoint * float :=
  match candidates with
  | [] => (best, bestDiff)
  | c :: rest =>
      if (diff c <? bestDiff)%float
      then nearestLoop diff rest (Some c) (diff c)
      else nearestLoop diff rest best bestDiff
  end.

(** The candidates pushed from the [USD] arrays of the tags, in tag order
    and then array order. *)
Definition usdCandidates (facts : value) (tags : list string) : list YearPoint :=
  flat_map (fun tag => collect datedPoint (usdFacts facts tag)) tags.

Definition shareTags : list string :=
  ["CommonStockSharesOutstanding"; "EntityCommonStockSharesOutstanding"].

Definition isSharesUnit (k : string) : bool := String.eqb (toLowerCase k) "shares".

(** The candidates pushed from the share-count arrays. *)
Definition shareCandidates (facts : value) : list YearPoint :=
  flat_map (fun tag => collect datedPoint (unitFacts facts tag isSharesUnit))
           shareTags.

Section Lookups.

(** [Number(s)], [new Date(s).getTime()] and [Math.round] are the
    engine's. *)
Variable Number : string -> float.
Variable Date_getTime : string -> float.
Variable Math_round : float -> float.

(** The distance of the dollar lookups:
    [Math.abs(Number(c.end.replaceAll("-", "")) - Number(endDate.replaceAll("-", "")))]. *)
Definition encodedDistance (endDate : string) (c : YearPoint) : float :=
  Math_abs (Number (removeHyphens (end_ c)) - Number (removeHyphens endDate)).

Definition daysBetween (aISO bISO : string) : float :=
  let a := Date_getTime (aISO ++ "T00:00:00Z") in
  let b := Date_getTime (bISO ++ "T00:00:00Z") in
  Math_abs (Math_round ((a - b) / (1000 * 60 * 60 * 24))).

Definition pickDebtNearestToEndDate (facts : value) (endDate : string)
  : option float :=
  let candidates := usdCandidates facts ["LongTermDebtNoncurrent"; "LongTermDebt"] in
  match candidates with
  | [] => None
  | _ =>
      let '(best, bestDiff) :=
        nearestLoop (encodedDistance endDate) candidates None infinity in
      match best with
      | Some b => Some (val b)
      | None => None
      end
  end.

Definition pickNearestUSDValue (facts : value) (tagCandidates : list string)
  (endDate : string) (maxDays : float) : option float :=
  let candidates := usdCandidates facts tagCandidates in
  match candidates with
  | [] => None
  | _ =>
      let '(best, bestDiff) :=
        nearestLoop (encodedDistance endDate) candidates None infinity in
      match best with
      | None => None
      | Some b => if (maxDays * 10 <? bestDiff)%float then None else Some (val b)
      end
  end.

Definition pickSharesNearestToEndDate (facts : value) (endDate : string)
  : option float :=
  let candidates := shareCandidates facts in
  match candidates with
  | [] => None
  | _ =>
      let '(best, bestDays) :=
        nearestLoop (fun c => daysBetween (end_ c) endDate) candidates None infinity in
      match best with
      | None => None
      | Some b => if (180 <? bestDays)%float then None else Some (val b)
      end
  end.

End Lookups.

(** ** Tiny helpers *)

(** [/^[A-Z.\-]{1,10}$/.test(t)]. *)
Definition isTickerChar (c : ascii) : bool :=
  let n := nat_of_ascii c in
  ((65 <=? n)%nat && (n <=? 90)%nat) || Ascii.eqb c "."%char || Ascii.eqb c "-"%char.

Definition matchesTicker (t : string) : bool :=
  (1 <=? String.length t)%nat && (String.length t <=? 10)%nat
  && forallb isTickerChar (list_ascii_of_string t).

(** [input] is [null] when the query has no ticker. *)
Definition cleanTicker (input : option string) : completion string :=
  let t := toUpperCase (trim (match input with Some s => s | None => "" end)) in
  if negb (matchesTicker t) then Throw else Return t.

(** [typeof x === "number" && Number.isFinite(x)] on a value that is a
    number, [undefined] or [null]. *)
Definition isFiniteNumber (x : option float) : bool :=
  match x with
  | Some v => Number_isFinite v
  | None => false
  end.

(** ** [Map<number, number>], in insertion order

    Keys are compared by SameValueZero and a key [-0] is stored as [+0];
    the values here are counts, below 2^53, and are natural numbers. *)
Definition CountMap : Type := list (float * nat).

Fixpoint Count_get (m : CountMap) (k : float) : option nat :=
  match m with
  | [] => None
  | (k', c) :: rest => if sameValueZero k' k then Some c else Count_get rest k
  end.

Fixpoint Count_set (m : CountMap) (k : float) (c : nat) : CountMap :=
  match m with
  | [] => [(if is_zero k then 0%float else k, c)]
  | (k', c') :: rest =>
      if sameValueZero k' k then (k', c) :: rest else (k', c') :: Count_set rest k c
  end.

Section Months.

Variable Number : string -> float.

(** [Number(p.end.slice(5, 7))]. *)
Definition monthOf (p : YearPoint) : float := Number (slice 5 7 (end_ p)).

(** One turn of the counting loop. *)
Definition countMonth (monthCounts : CountMap) (p : YearPoint) : CountMap :=
  let m := monthOf p in
  Count_set monthCounts m
            (match Count_get monthCounts m with Some c => c | None => 0 end + 1).

(** One turn of the loop over the entries: [c > bestCount]. *)
Definition betterMonth (best : float * Z) (entry : float * nat) : float * Z :=
  let '(bestMonth, bestCount) := best in
  let '(m, c) := entry in
  if (bestCount <? Z.of_nat c)%Z then (m, Z.of_nat c) else (bestMonth, bestCount).

Definition keepMostCommonFiscalYearEndMonth (series : list YearPoint)
  : list YearPoint :=
  match series with
  | [] => series
  | _ =>
      let monthCounts := fold_left countMonth series [] in
      let '(bestMonth, bestCount) :=
        fold_left betterMonth monthCounts ((-1)%float, (-1)%Z) in
      filter (fun p => strictEquals (monthOf p) bestMonth) series
  end.

End Months.

(** ** Stock splits *)

Record StockSplit : Type := { effectiveDate : string; ratio : float }.

Definition SPLITS_BY_TICKER : list (string * list StockSplit) :=
  [ ("AAPL", [ {| effectiveDate := "2020-08-31"; ratio := 4 |} ]) ].

(** The properties every object literal inherits from [Object.prototype]:
    read under one of these names, [SPLITS_BY_TICKER[ticker]] is a function
    or an object that is not iterable, and the [for ... of] loop raises a
    [TypeError]. *)
Definition inheritedNames : list string :=
  [ "constructor"; "hasOwnProperty"; "isPrototypeOf"; "propertyIsEnumerable";
    "toLocaleString"; "toString"; "valueOf"; "__proto__";
    "__defineGetter__"; "__defineSetter__"; "__lookupGetter__"; "__lookupSetter__" ].

Definition cumulativeSplitFactor (ticker endDate : string) : completion float :=
  match assoc ticker SPLITS_BY_TICKER with
  | Some splits =>
      Return (fold_left (fun factor s =>
                           if str_lt endDate (effectiveDate s)
                           then (factor * ratio s)%float else factor)
                        splits 1%float)
  | None =>
      if existsb (String.eqb ticker) inheritedNames then Throw
      else Return 1%float
  end.

(** ** Latest price (Stooq) *)

(** [csvText.replaceAll("\r", "").split("\n").map((l) => l.trim()).filter(Boolean)]. *)
Definition nonBlankLines (csvText : string) : list string :=
  filter truthyStr (map trim (split "010"%char (removeAll "013"%char csvText))).

(** [line.split(",").map((s) => s.trim())]. *)
Definition cells (line : string) : list string := map trim (split ","%char line).

Section Csv.

Variable Number : string -> float.

(** [Number(row[i])]: [Number(undefined)] is NaN. *)
Definition numberAt (row : list string) (i : nat) : float :=
  match nth_error row i with
  | Some s => Number s
  | None => nan
  end.

(** [Number.isFinite(close) ? close : null]. *)
Definition finiteOrNull (x : float) : option float :=
  if Number_isFinite x then Some x else None.

Definition parseStooqClose (csvText : string) : option float :=
  let lines := nonBlankLines csvText in
  match lines with
  | [] => None
  | first :: rest =>
      if includes "close" (toLowerCase first) then
        match rest with
        | [] => None
        | second :: _ =>
            let header := map toLowerCase (cells first) in
            let row := cells second in
            match indexOf "close" header with
            | None => None
            | Some closeIndex => finiteOrNull (numberAt row closeIndex)
            end
        end
      else
        let parts := cells first in
        if (List.length parts <? 7)%nat then None
        else finiteOrNull (numberAt parts 6)
  end.

Variable localeCompare : string -> string -> comparison.

(** One turn of the loop over the data lines of the history. *)
Definition dailyCloseOf (dateIdx closeIdx : nat) (line : string)
  : option DailyClose :=
  let parts := cells line in
  let close := numberAt parts closeIdx in
  match nth_error parts dateIdx with
  | Some date =>
      if (10 <=? String.length date)%nat && Number_isFinite close
      then Some {| date := date; close := close |}
      else None
  | None => None
  end.

(** What [fetchStooqDailyHistory] makes of the text of a successful
    response when the cache holds no entry for the ticker. *)
Definition dailyHistoryOf (text : string) : list DailyClose :=
  let lines := nonBlankLines text in
  if (List.length lines <? 2)%nat then []
  else
    match lines with
    | [] => []
    | first :: rest =>
        let header := map toLowerCase (cells first) in
        match indexOf "date" header, indexOf "close" header with
        | Some dateIdx, Some closeIdx =>
            sort (fun a b => localeCompare (date a) (date b))
                 (collect (dailyCloseOf dateIdx closeIdx) rest)
        | _, _ => []
        end
    end.

End Csv.

(** ** Latest value and last years *)

(** The array [facts?.facts?.["us-gaap"]?.[tag]?.units?.[unitKey]], empty
    when it is not an array. *)
Definition unitArray (facts : value) (tag unitKey : string) : list value :=
  match oget (unitsOf facts tag) unitKey with
  | Some (Arr arr) => arr
  | _ => []
  end.

Section Latest.

Variable localeCompare : string -> string -> comparison.

(** The comparator [(a, b) => b.end.localeCompare(a.end)]. *)
Definition compareByEndDescending (a b : YearPoint) : comparison :=
  localeCompare (end_ b) (end_ a).

Fixpoint pickLatestValue (facts : value) (tagCandidates : list string)
  (unitKey : string) : option YearPoint :=
  match tagCandidates with
  | [] => None
  | tag :: rest =>
      match sort compareByEndDescending
                 (collect datedPoint (unitArray facts tag unitKey)) with
      | latest :: _ => Some latest
      | [] => pickLatestValue facts rest unitKey
      end
  end.

End Latest.

(** [n] is a count of years, a natural number. *)
Definition lastNYears (series : list YearPoint) (n : nat) : list YearPoint :=
  if (List.length series <=? n)%nat then series
  else skipn (List.length series - n) series.

(** ** Metrics computation *)

(** [{ end: string; val: number | null }]; the fields are [metricEnd] and
    [metricVal] here. *)
Record YearMetric : Type := { metricEnd : string; metricVal : option float }.

Definition Map_has (m : EndMap) (k : string) : bool :=
  match Map_get m k with Some _ => true | None => false end.

Definition alignByEnd (ends : list string) (lookup : EndMap) : list YearMetric :=
  map (fun e => {| metricEnd := e;
                   metricVal := if Map_has lookup e then Map_get lookup e else None |})
      ends.

Definition toMap (series : list YearPoint) : EndMap :=
  fold_left (fun m p => Map_set m (end_ p) (val p)) series [].

(** [URLSearchParams]: the pairs of the query string in order; [get]
    answers with the first value of a key, or [null]. *)
Definition URLSearchParams : Type := list (string * string).

Definition searchParams_get (searchParams : URLSearchParams) (key : string)
  : option string := assoc key searchParams.

Section Query.

Variable Number : string -> float.

Definition numParam (searchParams : URLSearchParams) (key : string) (def : float)
  : float :=
  let v := searchParams_get searchParams key in
  let n := match v with Some s => Number s | None => nan end in
  if Number_isFinite n then n else def.

End Query.

(** ** The valuation inside [GET] *)

(** A monadic [map]: the callback may throw. *)
Fixpoint mapM {A B : Type} (f : A -> completion B) (l : list A)
  : completion (list B) :=
  match l with
  | [] => Return []
  | x :: l' =>
      let* y := f x in
      let* ys := mapM f l' in
      Return (y :: ys)
  end.

(** The test on [growthBasisRaw]: one of the six keys, or else
    ["bvps_5y"]. *)
Definition growthBasisOf (growthBasisRaw : string) : Rule1.GrowthBasis :=
  if String.eqb growthBasisRaw "bvps_5y" then Rule1.bvps_5y
  else if String.eqb growthBasisRaw "bvps_10y" then Rule1.bvps_10y
  else if String.eqb growthBasisRaw "fcf_5y" then Rule1.fcf_5y
  else if String.eqb growthBasisRaw "fcf_10y" then Rule1.fcf_10y
  else if String.eqb growthBasisRaw "eps_5y" then Rule1.eps_5y
  else if String.eqb growthBasisRaw "eps_10y" then Rule1.eps_10y
  else Rule1.bvps_5y.

(** [YearPoint[]] and [YearMetric[]] passed where [SeriesPoint[]] is
    expected; a [null] value is no finite number and NaN stands for it. *)
Definition seriesOfPoints (series : list YearPoint) : list Rule1.SeriesPoint :=
  map (fun p => {| Rule1.end_ := end_ p; Rule1.val := val p |}) series.

Definition seriesOfMetrics (series : list YearMetric) : list Rule1.SeriesPoint :=
  map (fun p => {| Rule1.end_ := metricEnd p;
                   Rule1.val := match metricVal p with
                                | Some v => v
                                | None => nan
                                end |}) series.

(** The callback of [fcf]: operating cash flow less capital expenditure
    where both are known. *)
Definition fcfAt (ocfMap capexMap : EndMap) (e : string) : YearMetric :=
  let o := Map_get ocfMap e in
  let c := Map_get capexMap e in
  if negb (isFiniteNumber o) || negb (isFiniteNumber c)
  then {| metricEnd := e; metricVal := None |}
  else match o, c with
       | Some o', Some c' => {| metricEnd := e; metricVal := Some (o' - c')%float |}
       | _, _ => {| metricEnd := e; metricVal := None |}
       end.

(** The callback of [peByYear]. *)
Definition peAt (epsMap : EndMap) (history : list DailyClose) (e : string)
  : completion YearMetric :=
  match Map_get epsMap e with
  | Some eps =>
      if negb (Number_isFinite eps) || (eps <=? 0)%float
      then Return {| metricEnd := e; metricVal := None |}
      else
        let* px := closeOnOrBefore history e in
        match px with
        | Some px' =>
            if negb (Number_isFinite px')
            then Return {| metricEnd := e; metricVal := None |}
            else Return {| metricEnd := e; metricVal := Some (px' / eps)%float |}
        | None => Return {| metricEnd := e; metricVal := None |}
        end
  | None => Return {| metricEnd := e; metricVal := None |}
  end.

(** [peValues] and [averagePe10y]. *)
Definition peValues (peByYear : list YearMetric) : list float :=
  collect (fun p => match metricVal p with
                    | Some v => if Number_isFinite v then Some v else None
                    | None => None
                    end) peByYear.

Definition averagePe10y (peByYear : list YearMetric) : option float :=
  match peValues peByYear with
  | [] => None
  | values =>
      Some (fold_left (fun a b => (a + b)%float) values 0%float
            / ofLength (List.length values))%float
  end.

Section Handler.

Variable localeCompare : string -> string -> comparison.
Variable Number : string -> float.
Variable Date_getTime : string -> float.
Variable Math_round : float -> float.
Variable Math_pow : float -> float -> float.

(** The knobs [GET] reads from the query string. *)
Definition assumptions (searchParams : URLSearchParams) : Rule1.Rule1Knobs :=
  {| Rule1.years :=
       Math_max 1 (Math_round (numParam Number searchParams "years" 10));
     Rule1.analystGrowth := numParam Number searchParams "growth" 0.10;
     Rule1.desiredReturn := numParam Number searchParams "return" 0.2;
     Rule1.marginOfSafetyPercent := numParam Number searchParams "mos" 40;
     Rule1.growthBasis :=
       growthBasisOf (match searchParams_get searchParams "growthBasis" with
                      | Some raw => raw
                      | None => "bvps_5y"
                      end) |}.

(** The callback of [bookValuePerShareUSD]. *)
Definition bookValueAt (equityMap : EndMap) (facts : value) (e : string)
  : YearMetric :=
  let eq :=
    match Map_get equityMap e with
    | Some v => Some v
    | None =>
        pickNearestUSDValue Number facts
          [ "StockholdersEquity";
            "StockholdersEquityIncludingPortionAttributableToNoncontrollingInterest" ]
          e 200
    end in
  let sh := pickSharesNearestToEndDate Date_getTime Math_round facts e in
  match eq, sh with
  | Some eq', Some sh' =>
      if negb (Number_isFinite eq') || negb (Number_isFinite sh')
         || (sh' <=? 0)%float
      then {| metricEnd := e; metricVal := None |}
      else {| metricEnd := e; metricVal := Some (eq' / sh')%float |}
  | _, _ => {| metricEnd := e; metricVal := None |}
  end.

(** The callback of [bookValuePerShareUSD_splitAdjusted]; a [null] value
    is no finite number. *)
Definition splitAdjustedAt (ticker : string) (p : YearMetric)
  : completion YearMetric :=
  match metricVal p with
  | Some v =>
      if negb (Number_isFinite v) then Return p
      else
        let* factor := cumulativeSplitFactor ticker (metricEnd p) in
        Return {| metricEnd := metricEnd p; metricVal := Some (v / factor)%float |}
  | None => Return p
  end.

(** The EPS series of the response. *)
Definition epsSeries (facts : value) : list YearPoint :=
  lastNYears
    (keepMostCommonFiscalYearEndMonth Number
       (pickAnnualEPSSeries localeCompare facts
          ["EarningsPerShareDiluted"; "EarningsPerShareBasic"]))
    10.

(** [rule1], the valuation [GET] computes once the latest price, the
    company facts and the price history have arrived. The statements are
    those of [GET] in their order, less the ones that cannot throw and
    whose values [rule1] does not depend on (revenue, the other income
    series, the latest debt and ROIC). The split-adjusted book values go to
    the response; the engine is given the unadjusted ones. *)
Definition rule1 (ticker : string) (facts : value) (history : list DailyClose)
  (price : option float) (searchParams : URLSearchParams)
  : completion (option Rule1.Rule1ResultOrFailure) :=
  let eps := epsSeries facts in
  let ocf :=
    lastNYears (pickAnnualUSDSeries localeCompare facts
                  ["NetCashProvidedByUsedInOperatingActivities"]) 10 in
  let capex :=
    lastNYears (pickAnnualUSDSeries localeCompare facts
                  ["PaymentsToAcquirePropertyPlantAndEquipment"]) 10 in
  let equity :=
    lastNYears (pickAnnualUSDSeries localeCompare facts
                  [ "StockholdersEquity";
                    "StockholdersEquityIncludingPortionAttributableToNoncontrollingInterest" ])
               10 in
  let ends := map end_ eps in
  let fcf := map (fcfAt (toMap ocf) (toMap capex)) ends in
  let bookValuePerShareUSD := map (bookValueAt (toMap equity) facts) ends in
  let* bookValuePerShareUSD_splitAdjusted :=
    mapM (splitAdjustedAt ticker) bookValuePerShareUSD in
  let* peByYear := mapM (peAt (toMap eps) history) ends in
  Rule1.calculateRule1 Math_pow Number
    {| Rule1.eps := seriesOfPoints eps;
       Rule1.bookValuePerShareUSD := seriesOfMetrics bookValuePerShareUSD;
       Rule1.freeCashFlowUSD := seriesOfMetrics fcf;
       Rule1.historicPeRatio := averagePe10y peByYear;
       Rule1.latestPriceUSD := price |}
    (assumptions searchParams).

End Handler.

(** ** Vocabulary of the properties *)

(** What the loop maintains once it has gone through [seen]: the keys are
    distinct; every stored value is that of a seen point with that end;
    and no seen point has a larger magnitude than the value stored for
    its end. *)
Definition dedupeInvariant (seen : list YearPoint) (m : EndMap) : Prop :=
  NoDup (map fst m)
  /\ (forall k v, Map_get m k = Some v -> In {| end_ := k; val := v |} seen)
  /\ (forall p, In p seen ->
        exists v, Map_get m (end_ p) = Some v
                  /\ (Math_abs (val p) <=? Math_abs v)%float = true).

(** For any two facts of [raw] on one period end, [series] has exactly one
    point for that end; it is a fact of [raw] and its magnitude is at least
    that of both. *)
Definition keepsLargerMagnitude (raw series : list YearPoint) : Prop :=
  forall p1 p2, In p1 raw -> In p2 raw -> end_ p1 = end_ p2 ->
    exists q,
      In q series /\ In q raw /\ end_ q = end_ p1
      /\ (forall q', In q' series -> end_ q' = end_ p1 -> q' = q)
      /\ (Math_abs (val p1) <=? Math_abs (val q))%float = true
      /\ (Math_abs (val p2) <=? Math_abs (val q))%float = true
      /\ ((Math_abs (val p1) <? Math_abs (val p2))%float = true ->
          ~ In p1 series).

(** A frame label that marks a quarter: a [Q] directly followed by a digit
    from 1 to 4. *)
Definition quarterFrame (f : string) : Prop :=
  exists pre d post,
    f = pre ++ String "Q" (String d post)
    /\ (d = "1" \/ d = "2" \/ d = "3" \/ d = "4")%char.

(** A qualifying annual fact and its point: an object filed on form 10-K
    for the fiscal period FY, with a string for its period end and a finite
    number for its value, and whose frame label, if it has one, marks no
    quarter. *)
Definition qualifyingFact (x : value) (p : YearPoint) : Prop :=
  exists props,
    x = Obj props
    /\ assoc "form" props = Some (Str "10-K")
    /\ assoc "fp" props = Some (Str "FY")
    /\ assoc "end" props = Some (Str (end_ p))
    /\ assoc "val" props = Some (Num (val p))
    /\ is_finite (val p) = true
    /\ (forall f, assoc "frame" props = Some (Str f) -> ~ quarterFrame f).

(** Strictly increasing by period end, in collation order. *)
Definition increasing (localeCompare : string -> string -> comparison)
  (series : list YearPoint) : Prop :=
  StronglySorted (fun p q => localeCompare (end_ p) (end_ q) = Lt) series.

(** An ISO date [YYYY-MM-DD]. *)
Definition isDigit (c : ascii) : bool :=
  match digitValue c with Some _ => true | None => false end.

Definition isISODate (s : string) : Prop :=
  match s with
  | String y1 (String y2 (String y3 (String y4 (String h1
      (String m1 (String m2 (String h2 (String d1 (String d2 EmptyString))))))))) =>
      isDigit y1 && isDigit y2 && isDigit y3 && isDigit y4
      && Ascii.eqb h1 "-"%char && isDigit m1 && isDigit m2
      && Ascii.eqb h2 "-"%char && isDigit d1 && isDigit d2 = true
  | _ => False
  end.

(** Sorted ascending by date: each entry's date is at most the next one's. *)
Definition sortedByDate (history : list DailyClose) : Prop :=
  Sorted (fun a b => str_le (date a) (date b) = true) history.

(** The latest entry on or before a date: the last entry of the history,
    in its order, whose date is at most the query date. *)
Fixpoint latestOnOrBefore (history : list DailyClose) (isoDate : string)
  : option DailyClose :=
  match history with
  | [] => None
  | h :: rest =>
      match latestOnOrBefore rest isoDate with
      | Some later => Some later
      | None => if str_le (date h) isoDate then Some h else None
      end
  end.

(** [b] is the first candidate, in candidate order, at the least distance:
    every candidate before it is strictly farther (or at no comparable
    distance), and no candidate after it is strictly nearer. *)
Definition nearestFirst (dist : YearPoint -> float) (candidates : list YearPoint)
  (b : YearPoint) : Prop :=
  (dist b <? infinity)%float = true
  /\ exists pre post,
       candidates = (pre ++ b :: post)%list
       /\ (forall p, In p pre -> (dist p <=? dist b)%float = false)
       /\ (forall p, In p post -> (dist p <? dist b)%float = false).

(** No candidate is at a distance below infinity. *)
Definition noneNear (dist : YearPoint -> float) (candidates : list YearPoint)
  : Prop :=
  forall c, In c candidates -> (dist c <? infinity)%float = false.

(** What the loop has established after [seen]. *)
Definition loopState (dist : YearPoint -> float) (seen : list YearPoint)
  (best : option YearPoint) (bestDiff : float) : Prop :=
  match best with
  | None => bestDiff = infinity /\ noneNear dist seen
  | Some b => bestDiff = dist b /\ nearestFirst dist seen b
  end.

(** What a lookup with distance [dist] and an optional tolerance answers:
    the value of the first candidate at the least distance, unless that
    distance is above the tolerance; and nothing when no candidate is at a
    distance below infinity or the least distance is above the tolerance. *)
Definition lookupSpec (dist : YearPoint -> float) (candidates : list YearPoint)
  (tolerance : option float) (answer : option float) : Prop :=
  match answer with
  | Some v =>
      exists b, nearestFirst dist candidates b /\ val b = v
                /\ match tolerance with
                   | Some t => (t <? dist b)%float = false
                   | None => True
                   end
  | None =>
      noneNear dist candidates
      \/ exists b, nearestFirst dist candidates b
                   /\ match tolerance with
                      | Some t => (t <? dist b)%float = true
                      | None => False
                      end
  end.

(** The number of points of a series whose month is [m], NaN counting as
    one month. *)
Definition monthCount (Number : string -> float) (series : list YearPoint)
  (m : float) : nat :=
  List.length (filter (fun p => sameValueZero (monthOf Number p) m) series).

(** Keys no two of which are the same value. *)
Definition distinctKeys (keys : list float) : Prop :=
  ForallOrdPairs (fun k k' => sameValueZero k k' = false) keys.

(** Every character of a string passes a test. *)
Fixpoint allChars (test : ascii -> bool) (s : string) : bool :=
  match s with
  | EmptyString => true
  | String c s' => test c && allChars test s'
  end.

(** A cell of a CSV line as Stooq writes them: not empty, and free of
    commas, white space and line breaks. *)
Definition plainChar (c : ascii) : bool :=
  negb (isWhiteSpace c) && negb (Ascii.eqb c ","%char).

Definition plainCell (s : string) : Prop :=
  s <> "" /\ allChars plainChar s = true.

(** The cells of a line joined by commas. *)
Definition csvLine (line : list string) : string := String.concat "," line.

(** A line break: LF, or CR LF. *)
Definition lineBreak (b : string) : Prop :=
  b = String "010"%char "" \/ b = String "013"%char (String "010"%char "").

(** ** Sample documents *)

Definition fact (e : string) (v : float) : value :=
  Obj [("end", Str e); ("val", Num v); ("form", Str "10-K"); ("fp", Str "FY")].

(** A document with the given tags, each with its unit arrays. *)
Definition companyFacts (tags : list (string * list (string * list value)))
  : value :=
  Obj [("facts",
        Obj [("us-gaap",
              Obj (map (fun t =>
                          (fst t,
                           Obj [("units",
                                 Obj (map (fun u => (fst u, Arr (snd u)))
                                          (snd t)))]))
                       tags))])].

(** Two annual facts for the period ending 2020-12-31, under one tag and
    unit. *)
Definition restatedRevenue : value :=
  companyFacts
    [("Revenues", [("USD", [fact "2020-12-31" 100; fact "2020-12-31" (-150)])])].

(** Filings of three fiscal years out of order, 2019 restated, with a
    quarterly frame and a non-finite value among them; a second tag holds
    one more year. *)
Definition scatteredRevenue : value :=
  companyFacts
    [("Revenues",
      [("USD",
        [ fact "2020-12-31" 300; fact "2018-12-31" 100; fact "2019-12-31" 150;
          fact "2019-12-31" 200;
          Obj [("end", Str "2020-03-31"); ("val", Num 70); ("form", Str "10-K");
               ("fp", Str "FY"); ("frame", Str "CY2020Q1")];
          fact "2021-12-31" infinity ])]);
     ("SalesRevenueNet", [("USD", [ fact "2017-12-31" 90 ])])].

(** A first tag whose entries all fail the filter, each for a reason of
    its own ([null], a quarterly report, a fiscal quarter, a value that is
    a string, a missing period end, a quarterly frame), before two tags
    with annual facts. *)
Definition mixedFilings : value :=
  companyFacts
    [("Revenues",
      [("USD",
        [ Null;
          Obj [("end", Str "2020-12-31"); ("val", Num 300); ("form", Str "10-Q");
               ("fp", Str "FY")];
          Obj [("end", Str "2020-12-31"); ("val", Num 300); ("form", Str "10-K");
               ("fp", Str "Q4")];
          Obj [("end", Str "2020-12-31"); ("val", Str "300"); ("form", Str "10-K");
               ("fp", Str "FY")];
          Obj [("val", Num 300); ("form", Str "10-K"); ("fp", Str "FY")];
          Obj [("end", Str "2020-12-31"); ("val", Num 300); ("form", Str "10-K");
               ("fp", Str "FY"); ("frame", Str "CY2020Q4")] ])]);
     ("SalesRevenueNet",
      [("USD", [ fact "2019-12-31" 200; fact "2018-12-31" 100 ])]);
     ("SalesRevenueGoodsNet", [("USD", [ fact "2017-12-31" 90 ])])].

(** The soft hyphen, U+00AD. *)
Definition softHyphen : ascii := "173"%char.

(** A collation that ignores soft hyphens, as the Unicode collation
    algorithm does, and compares what is left code unit by code unit. *)
Definition compareIgnoringSoftHyphens (a b : string) : comparison :=
  String.compare (removeAll softHyphen a) (removeAll softHyphen b).

(** Two annual facts whose period ends differ by a soft hyphen at the end
    of the first. *)
Definition softHyphenRevenue : value :=
  companyFacts
    [("Revenues",
      [("USD",
        [ fact ("2020-12-31" ++ String softHyphen "") 1; fact "2020-12-31" 2 ])])].

(** The series both normalisations make of them under that collation. *)
Definition softHyphenSeries : list YearPoint :=
  [ {| end_ := "2020-12-31" ++ String softHyphen ""; val := 1 |};
    {| end_ := "2020-12-31"; val := 2 |} ].

(** Three trading days around a weekend. *)
Definition firstWeekOfJanuary : list DailyClose :=
  [ {| date := "2020-01-02"; close := 10 |};
    {| date := "2020-01-03"; close := 11 |};
    {| date := "2020-01-06"; close := 12 |} ].

(** Cash reported five days after and five days before 15 December, the
    later date first. *)
Definition cashAroundMidDecember : value :=
  companyFacts
    [("CashAndCashEquivalentsAtCarryingValue",
      [("USD", [ fact "2020-12-20" 2; fact "2020-12-10" 1 ])])].

(** Debt reported once, ten years before the target. *)
Definition debtTenYearsBefore : value :=
  companyFacts [("LongTermDebt", [("USD", [ fact "2010-12-31" 7 ])])].

(** Equity reported on 31 December and on 1 March around a 1 January
    target. *)
Definition equityAroundNewYear : value :=
  companyFacts
    [("StockholdersEquity",
      [("USD", [ fact "2020-12-31" 1; fact "2021-03-01" 59 ])])].

(** The clock readings [new Date(s).getTime()] of four midnights (UTC), in
    milliseconds; any other string reads as an invalid date. *)
Definition midnightMs (s : string) : float :=
  match assoc s [ ("2020-09-26T00:00:00Z", 1601078400000%float);
                  ("2020-10-16T00:00:00Z", 1602806400000%float);
                  ("2020-09-06T00:00:00Z", 1599350400000%float);
                  ("2020-03-28T00:00:00Z", 1585353600000%float) ] with
  | Some ms => ms
  | None => nan
  end.

(** [Math.round] on values that are whole numbers already. *)
Definition roundWhole (x : float) : float := x.

(** Share counts dated twenty days after and twenty days before 26
    September, the later date first; and one dated 182 days before. *)
Definition sharesAroundYearEnd : value :=
  companyFacts
    [("CommonStockSharesOutstanding",
      [("shares", [ fact "2020-10-16" 17; fact "2020-09-06" 16 ])])].

Definition sharesHalfAYearBefore : value :=
  companyFacts
    [("EntityCommonStockSharesOutstanding",
      [("Shares", [ fact "2020-03-28" 15 ])])].

(** Four fiscal years, the year end moved from September to December:
    two points on each month. *)
Definition fiscalYearEndMoved : list YearPoint :=
  [ {| end_ := "2015-09-26"; val := 1 |}; {| end_ := "2016-09-24"; val := 2 |};
    {| end_ := "2017-12-30"; val := 3 |}; {| end_ := "2018-12-29"; val := 4 |} ].

(** Long-term debt reported three times, out of order. *)
Definition debtOverTheYears : value :=
  companyFacts
    [("LongTermDebtNoncurrent",
      [("USD", [ fact "2019-12-31" 5; fact "2020-12-31" 7; fact "2020-06-30" 6 ])])].

(** A latest quote as Stooq sends it, with and without the header line,
    lines ending in CR LF. *)
Definition crlf : string := String "013"%char (String "010"%char "").

Definition quoteHeader : list string :=
  ["Symbol"; "Date"; "Time"; "Open"; "High"; "Low"; "Close"; "Volume"].

Definition quoteRow : list string :=
  ["AAPL.US"; "2024-01-05"; "22:00:07"; "181.99"; "182.76"; "180.17"; "181.18";
   "62196924"].

(** A daily history of two trading days, the later one first. *)
Definition twoDaysOfHistory : string :=
  csvLine ["Date"; "Open"; "High"; "Low"; "Close"; "Volume"] ++ crlf
  ++ csvLine ["2020-01-03"; "10"; "12"; "9"; "11"; "700"] ++ crlf
  ++ csvLine ["2020-01-02"; "9"; "11"; "9"; "10"; "800"] ++ crlf.

(** Diluted earnings per share of three fiscal years. *)
Definition threeYearsOfEps : value :=
  companyFacts
    [("EarningsPerShareDiluted",
      [("USD/shares",
        [ fact "2019-09-28" 3; fact "2018-09-29" 2; fact "2020-09-26" 4 ])])].

(** Diluted earnings per share of six fiscal years that end with the
    calendar year. *)
Definition sixYearsOfEps : value :=
  companyFacts
    [("EarningsPerShareDiluted",
      [("USD/shares",
        [ fact "2015-12-31" 1; fact "2016-12-31" 1.25; fact "2017-12-31" 1.5;
          fact "2018-12-31" 1.75; fact "2019-12-31" 2; fact "2020-12-31" 2.5 ])])].

End Route.

(* ===================================================================== *)
(** * Part II. Properties                                                 *)
(* ===================================================================== *)

(** ** The order of binary64 values *)

Module F64Facts.
Import F64.
Local Open Scope Z_scope.

Lemma SFcompare_nan_l y : SFcompare S754_nan y = None.
Proof. reflexivity. Qed.

Lemma SFcompare_nan_r x : SFcompare x S754_nan = None.
Proof. destruct x; reflexivity. Qed.

Lemma SFcompare_key x y :
  x <> S754_nan -> y <> S754_nan ->
  SFcompare x y = Some (cmp3 (SFkey x) (SFkey y)).
Proof.
  intros Hx Hy.
  destruct x as [sx|sx| |sx mx ex], y as [sy|sy| |sy my ey];
    try congruence;
    try destruct sx; try destruct sy; cbn [SFcompare SFkey cmp3];
    try reflexivity.
  change (-1 ?= -1) with Eq; cbv iota.
  rewrite Z.compare_opp, (Z.compare_antisym ex ey).
  destruct (ex ?= ey); reflexivity.
Qed.

Lemma cmp3_Lt k k' : cmp3 k k' = Lt <-> lt3 k k'.
Proof.
  destruct k as [[a b] c], k' as [[a' b'] c']; unfold cmp3, lt3.
  destruct (Z.compare_spec a a'), (Z.compare_spec b b'), (Z.compare_spec c c');
    split; intros Hc; try discriminate; try reflexivity; try lia.
Qed.

Lemma cmp3_Eq k k' : cmp3 k k' = Eq <-> eq3 k k'.
Proof.
  destruct k as [[a b] c], k' as [[a' b'] c']; unfold cmp3, eq3.
  destruct (Z.compare_spec a a'), (Z.compare_spec b b'), (Z.compare_spec c c');
    split; intros Hc; try discriminate; try reflexivity; try lia.
Qed.

Lemma cmp3_Gt k k' : cmp3 k k' = Gt <-> lt3 k' k.
Proof.
  destruct k as [[a b] c], k' as [[a' b'] c']; unfold cmp3, lt3.
  destruct (Z.compare_spec a a'), (Z.compare_spec b b'), (Z.compare_spec c c');
    split; intros Hc; try discriminate; try reflexivity; try lia.
Qed.

Ltac by_keys :=
  repeat match goal with
         | |- context [key ?x] => generalize (key x)
         end;
  unfold lt3, le3, eq3; intros; 
  repeat match goal with
         | k : (Z * Z * Z)%type |- _ => destruct k as [[? ?] ?]
         end;
  lia.

Lemma notNaN_dec x : {notNaN x} + {Prim2SF x = S754_nan}.
Proof.
  unfold notNaN. destruct (Prim2SF x); try (left; discriminate); right; reflexivity.
Qed.

Lemma compare_key a b :
  notNaN a -> notNaN b ->
  SFcompare (Prim2SF a) (Prim2SF b) = Some (cmp3 (key a) (key b)).
Proof. intros; now apply SFcompare_key. Qed.

Lemma compare_nan a b :
  Prim2SF a = S754_nan \/ Prim2SF b = S754_nan ->
  SFcompare (Prim2SF a) (Prim2SF b) = None.
Proof.
  intros [H|H]; rewrite H; [apply SFcompare_nan_l | apply SFcompare_nan_r].
Qed.

Lemma is_nan_false x : is_nan x = false <-> notNaN x.
Proof.
  unfold is_nan. rewrite FloatAxioms.eqb_spec. unfold SFeqb.
  destruct (notNaN_dec x) as [H|H].
  - rewrite (compare_key H H).
    replace (cmp3 (key x) (key x)) with Eq; [tauto|].
    symmetry; apply cmp3_Eq. by_keys.
  - rewrite compare_nan by auto. unfold notNaN. split; [discriminate | congruence].
Qed.

Lemma ltb_key a b :
  (a <? b)%float = true <-> notNaN a /\ notNaN b /\ lt3 (key a) (key b).
Proof.
  rewrite FloatAxioms.ltb_spec. unfold SFltb.
  destruct (notNaN_dec a) as [Ha|Ha], (notNaN_dec b) as [Hb|Hb];
    try (rewrite compare_nan by auto; unfold notNaN;
         split; [discriminate | intros (? & ? & _); congruence]).
  rewrite (compare_key Ha Hb), <- cmp3_Lt.
  destruct (cmp3 (key a) (key b)); split; try tauto; try discriminate;
    intros (_ & _ & ?); discriminate.
Qed.

Lemma leb_key a b :
  (a <=? b)%float = true <-> notNaN a /\ notNaN b /\ le3 (key a) (key b).
Proof.
  rewrite FloatAxioms.leb_spec. unfold SFleb.
  destruct (notNaN_dec a) as [Ha|Ha], (notNaN_dec b) as [Hb|Hb];
    try (rewrite compare_nan by auto; unfold notNaN;
         split; [discriminate | intros (? & ? & _); congruence]).
  rewrite (compare_key Ha Hb).
  assert (E : le3 (key a) (key b) <->
              lt3 (key a) (key b) \/ eq3 (key a) (key b)) by by_keys.
  rewrite E, <- cmp3_Lt, <- cmp3_Eq.
  destruct (cmp3 (key a) (key b)); split; try tauto; try discriminate;
    intros (_ & _ & [?|?]); discriminate.
Qed.

Lemma eqb_key a b :
  (a =? b)%float = true <-> notNaN a /\ notNaN b /\ eq3 (key a) (key b).
Proof.
  rewrite FloatAxioms.eqb_spec. unfold SFeqb.
  destruct (notNaN_dec a) as [Ha|Ha], (notNaN_dec b) as [Hb|Hb];
    try (rewrite compare_nan by auto; unfold notNaN;
         split; [discriminate | intros (? & ? & _); congruence]).
  rewrite (compare_key Ha Hb), <- cmp3_Eq.
  destruct (cmp3 (key a) (key b)); split; try tauto; try discriminate;
    intros (_ & _ & ?); discriminate.
Qed.

Lemma ltb_trans a b c :
  (a <? b)%float = true -> (b <? c)%float = true -> (a <? c)%float = true.
Proof.
  rewrite !ltb_key. intros (Ha & Hb & H1) (_ & Hc & H2).
  repeat split; trivial. revert H1 H2. by_keys.
Qed.

Lemma leb_ltb_trans a b c :
  (a <=? b)%float = true -> (b <? c)%float = true -> (a <? c)%float = true.
Proof.
  rewrite leb_key, !ltb_key. intros (Ha & Hb & H1) (_ & Hc & H2).
  repeat split; trivial. revert H1 H2. by_keys.
Qed.

Lemma ltb_leb_trans a b c :
  (a <? b)%float = true -> (b <=? c)%float = true -> (a <? c)%float = true.
Proof.
  rewrite leb_key, !ltb_key. intros (Ha & Hb & H1) (_ & Hc & H2).
  repeat split; trivial. revert H1 H2. by_keys.
Qed.

Lemma leb_trans a b c :
  (a <=? b)%float = true -> (b <=? c)%float = true -> (a <=? c)%float = true.
Proof.
  rewrite !leb_key. intros (Ha & Hb & H1) (_ & Hc & H2).
  repeat split; trivial. revert H1 H2. by_keys.
Qed.

Lemma ltb_leb a b : (a <? b)%float = true -> (a <=? b)%float = true.
Proof.
  rewrite leb_key, ltb_key. intros (Ha & Hb & H1).
  repeat split; trivial. revert H1. by_keys.
Qed.

Lemma leb_refl a : notNaN a -> (a <=? a)%float = true.
Proof. intros Ha. apply leb_key. repeat split; trivial. by_keys. Qed.

Lemma ltb_irrefl a : (a <? a)%float = false.
Proof.
  destruct (a <? a)%float eqn:E; trivial.
  apply ltb_key in E. destruct E as (_ & _ & E). revert E. by_keys.
Qed.

Lemma ltb_nleb a b : (a <? b)%float = true -> (b <=? a)%float = false.
Proof.
  intros H. destruct (b <=? a)%float eqn:E; trivial.
  pose proof (leb_ltb_trans E H) as C. now rewrite ltb_irrefl in C.
Qed.

Lemma leb_nltb a b : (a <=? b)%float = true -> (b <? a)%float = false.
Proof.
  intros H. destruct (b <? a)%float eqn:E; trivial.
  pose proof (leb_ltb_trans H E) as C. now rewrite ltb_irrefl in C.
Qed.

Lemma nltb_leb a b :
  notNaN a -> notNaN b -> (a <? b)%float = false -> (b <=? a)%float = true.
Proof.
  intros Ha Hb H. apply leb_key. repeat split; trivial.
  assert (N : ~ lt3 (key a) (key b)).
  { intros L. enough ((a <? b)%float = true) by congruence.
    apply ltb_key; auto. }
  revert N. by_keys.
Qed.

Lemma leb_notNaN a b : (a <=? b)%float = true -> notNaN a /\ notNaN b.
Proof. rewrite leb_key; tauto. Qed.

Lemma ltb_notNaN a b : (a <? b)%float = true -> notNaN a /\ notNaN b.
Proof. rewrite ltb_key; tauto. Qed.

Lemma compare_FLt a b : (a ?= b)%float = FLt <-> (a <? b)%float = true.
Proof.
  rewrite FloatAxioms.compare_spec, FloatAxioms.ltb_spec. unfold SFltb, flatten_cmp_opt.
  destruct (SFcompare (Prim2SF a) (Prim2SF b)) as [[]|];
    split; congruence.
Qed.

Lemma compare_FEq a b : (a ?= b)%float = FEq <-> (a =? b)%float = true.
Proof.
  rewrite FloatAxioms.compare_spec, FloatAxioms.eqb_spec. unfold SFeqb, flatten_cmp_opt.
  destruct (SFcompare (Prim2SF a) (Prim2SF b)) as [[]|];
    split; congruence.
Qed.

Lemma compare_FGt a b : (a ?= b)%float = FGt <-> (b <? a)%float = true.
Proof.
  rewrite ltb_key, FloatAxioms.compare_spec.
  destruct (notNaN_dec a) as [Ha|Ha], (notNaN_dec b) as [Hb|Hb];
    try (rewrite compare_nan by auto; unfold notNaN; cbn;
         split; [discriminate | intros (? & ? & _); congruence]).
  rewrite (compare_key Ha Hb), <- cmp3_Gt. cbn.
  destruct (cmp3 (key a) (key b)); split; try tauto; try discriminate;
    intros (_ & _ & ?); discriminate.
Qed.

Lemma compare_FNotComparable a b :
  (a ?= b)%float = FNotComparable <-> is_nan a = true \/ is_nan b = true.
Proof.
  rewrite FloatAxioms.compare_spec.
  destruct (notNaN_dec a) as [Ha|Ha], (notNaN_dec b) as [Hb|Hb].
  - rewrite (compare_key Ha Hb). apply is_nan_false in Ha, Hb.
    rewrite Ha, Hb. cbn. destruct (cmp3 _ _); split;
      try discriminate; intros [?|?]; discriminate.
  - rewrite compare_nan by auto. cbn. split; trivial. intros _. right.
    destruct (is_nan b) eqn:E; trivial. apply is_nan_false in E. congruence.
  - rewrite compare_nan by auto. cbn. split; trivial. intros _. left.
    destruct (is_nan a) eqn:E; trivial. apply is_nan_false in E. congruence.
  - rewrite compare_nan by auto. cbn. split; trivial. intros _. left.
    destruct (is_nan a) eqn:E; trivial. apply is_nan_false in E. congruence.
Qed.

Lemma eqb_leb a b : (a =? b)%float = true -> (a <=? b)%float = true.
Proof.
  rewrite eqb_key, leb_key. intros (Ha & Hb & H1).
  repeat split; trivial. revert H1. by_keys.
Qed.

Lemma eqb_sym a b : (a =? b)%float = true -> (b =? a)%float = true.
Proof.
  rewrite !eqb_key. intros (Ha & Hb & H1).
  repeat split; trivial. revert H1. by_keys.
Qed.

Lemma is_finite_notNaN x : is_finite x = true -> notNaN x.
Proof.
  unfold is_finite. intros H. apply is_nan_false.
  destruct (is_nan x); trivial; discriminate.
Qed.

Lemma abs_notNaN x : notNaN x -> notNaN (abs x).
Proof.
  unfold notNaN. rewrite abs_spec. destruct (Prim2SF x); cbn; congruence.
Qed.

Lemma is_nan_true x : is_nan x = true <-> Prim2SF x = S754_nan.
Proof.
  destruct (is_nan x) eqn:E.
  - split; trivial. intros _. destruct (notNaN_dec x) as [H|H]; trivial.
    apply is_nan_false in H. congruence.
  - apply is_nan_false in E. unfold notNaN in E. split; [discriminate | tauto].
Qed.

Lemma is_finite_spec x :
  is_finite x = true ->
  (exists s, Prim2SF x = S754_zero s) \/ (exists s m e, Prim2SF x = S754_finite s m e).
Proof.
  unfold is_finite, is_infinity. intros H.
  apply negb_true_iff, orb_false_iff in H. destruct H as [Hn Hi].
  apply is_nan_false in Hn. unfold notNaN in Hn.
  rewrite FloatAxioms.eqb_spec, abs_spec in Hi.
  destruct (Prim2SF x) as [s|s| |s m e]; eauto.
  - discriminate Hi.
  - congruence.
Qed.

(** The product of any value with [+0] is a zero or NaN: never below zero. *)
Lemma mul_zero_not_negative x : (x * 0 <? 0)%float = false.
Proof.
  rewrite FloatAxioms.ltb_spec, mul_spec.
  change (Prim2SF 0) with (S754_zero false).
  destruct (Prim2SF x) as [s|s| |s m e]; reflexivity.
Qed.

Lemma mul_zero_finite x : is_finite x = true -> (x * 0 =? 0)%float = true.
Proof.
  intros H. rewrite FloatAxioms.eqb_spec, mul_spec.
  change (Prim2SF 0) with (S754_zero false).
  destruct (is_finite_spec H) as [[s E]|(s & m & e & E)]; rewrite E; reflexivity.
Qed.

(** Once a product has overflowed to infinity, scaling, dividing and
    multiplying by zero yields NaN whatever the other factors are. *)
Lemma infinity_mul_div_mul_zero p q :
  is_nan (infinity * p / q * 0)%float = true.
Proof.
  apply is_nan_true. rewrite mul_spec, div_spec, mul_spec.
  change (Prim2SF 0) with (S754_zero false).
  change (Prim2SF infinity) with (S754_infinity false).
  destruct (Prim2SF p) as [s|s| |s m e], (Prim2SF q) as [s'|s'| |s' m' e'];
    reflexivity.
Qed.

Lemma leb_nan_l x : (nan <=? x)%float = false.
Proof. rewrite FloatAxioms.leb_spec. reflexivity. Qed.

End F64Facts.

(** ** JavaScript built-ins *)

Module JSFacts.
Import F64 F64Facts JS.
Local Open Scope float_scope.

(** ** The sort: a permutation, in comparator order *)

Section Sort.

Variable A : Type.
Variable cmp : A -> A -> comparison.

Lemma insert_perm x l : Permutation (insert cmp x l) (x :: l).
Proof.
  induction l as [|y l IH]; cbn; [reflexivity|].
  destruct (cmp x y); try reflexivity.
  rewrite IH. apply perm_swap.
Qed.

Lemma sort_perm l : Permutation (sort cmp l) l.
Proof.
  induction l as [|x l IH]; cbn; [constructor|].
  rewrite insert_perm. now constructor.
Qed.

Lemma sort_length l : List.length (sort cmp l) = List.length l.
Proof. apply Permutation_length, sort_perm. Qed.

Lemma sort_In x l : In x (sort cmp l) <-> In x l.
Proof.
  split; apply Permutation_in; [|symmetry]; apply sort_perm.
Qed.

Lemma ordered_tail x l : ordered cmp (x :: l) -> ordered cmp l.
Proof. destruct l; cbn; tauto. Qed.

Lemma insert_ordered_id x l : ordered cmp (x :: l) -> insert cmp x l = x :: l.
Proof.
  destruct l as [|y l]; cbn; trivial.
  intros [H _]. destruct (cmp x y); congruence.
Qed.

Lemma sort_ordered_id l : ordered cmp l -> sort cmp l = l.
Proof.
  induction l as [|x l IH]; trivial.
  intros H. cbn [sort]. rewrite IH by exact (ordered_tail H).
  now apply insert_ordered_id.
Qed.

(** A comparator is consistent on the values that satisfy [P] when
    swapping two such arguments flips its sign. *)
Variable P : A -> Prop.
Hypothesis cmp_antisym : forall a b, P a -> P b -> cmp b a = CompOpp (cmp a b).

Lemma insert_ordered x l : P x -> Forall P l -> ordered cmp l -> ordered cmp (insert cmp x l).
Proof.
  intros Px.
  induction l as [|y l IH]; cbn [insert]; [cbn; trivial|].
  intros Pl H. inversion Pl as [|? ? Py Pl']; subst.
  destruct (cmp x y) eqn:E.
  - split; [congruence | exact H].
  - split; [congruence | exact H].
  - specialize (IH Pl' (ordered_tail H)).
    destruct l as [|z l]; cbn [insert] in *.
    + split; [|exact I]. rewrite cmp_antisym, E by trivial. discriminate.
    + destruct (cmp x z).
      * split; [rewrite cmp_antisym, E by trivial; discriminate | exact IH].
      * split; [rewrite cmp_antisym, E by trivial; discriminate | exact IH].
      * split; [exact (proj1 H) | exact IH].
Qed.

Lemma insert_Forall x l : P x -> Forall P l -> Forall P (insert cmp x l).
Proof.
  intros Px Pl. eapply Permutation_Forall.
  - symmetry. apply insert_perm.
  - now constructor.
Qed.

Lemma sort_Forall l : Forall P l -> Forall P (sort cmp l).
Proof.
  intros Pl. eapply Permutation_Forall; [symmetry; apply sort_perm | exact Pl].
Qed.

Lemma sort_ordered l : Forall P l -> ordered cmp (sort cmp l).
Proof.
  induction l as [|x l IH]; cbn [sort]; [intros; exact I|].
  intros Pl. inversion Pl as [|? ? Px Pl']; subst.
  apply insert_ordered; auto using sort_Forall.
Qed.

Lemma sort_idempotent l : Forall P l -> sort cmp (sort cmp l) = sort cmp l.
Proof. intros Pl. apply sort_ordered_id, sort_ordered, Pl. Qed.

End Sort.

(** ** The order of strings *)

Lemma string_compare_trans a b c :
  String.compare a b = Lt -> String.compare b c = Lt -> String.compare a c = Lt.
Proof.
  intros H1 H2. apply String_as_OT.cmp_lt.
  apply String_as_OT.cmp_lt in H1, H2.
  exact (String_as_OT.lt_trans _ _ _ H1 H2).
Qed.

Lemma str_le_trans a b c :
  str_le a b = true -> str_le b c = true -> str_le a c = true.
Proof.
  unfold str_le, String.leb. intros H1 H2.
  destruct (String.compare a b) eqn:E1; try discriminate;
    destruct (String.compare b c) eqn:E2; try discriminate.
  - apply String.compare_eq_iff in E1. subst. now rewrite E2.
  - apply String.compare_eq_iff in E1. subst. now rewrite E2.
  - apply String.compare_eq_iff in E2. subst. now rewrite E1.
  - now rewrite (string_compare_trans E1 E2).
Qed.

Lemma str_le_refl a : str_le a a = true.
Proof. unfold str_le. now destruct (String.leb_total a a). Qed.

(** ** Facts about [Math.min] and [Math.max] *)

Lemma Math_min_le a b :
  is_nan a = false -> is_nan b = false ->
  (Math_min a b <=? a) = true /\ (Math_min a b <=? b) = true.
Proof.
  intros Ha Hb. apply is_nan_false in Ha, Hb. unfold Math_min.
  destruct (a ?= b) eqn:E.
  - apply compare_FEq in E. destruct (get_sign a); split;
      auto using leb_refl, eqb_leb, eqb_sym.
  - apply compare_FLt in E. split; auto using leb_refl, ltb_leb.
  - apply compare_FGt in E. split; auto using leb_refl, ltb_leb.
  - apply compare_FNotComparable in E.
    apply is_nan_false in Ha, Hb. destruct E; congruence.
Qed.

Lemma Math_min_nan a b :
  is_nan a = true \/ is_nan b = true -> Math_min a b = nan.
Proof.
  intros H. apply compare_FNotComparable in H. unfold Math_min. now rewrite H.
Qed.

Lemma Math_max_one_positive d : (Math_max 1 d <=? 0) = false.
Proof.
  unfold Math_max. destruct (1 ?= d) eqn:E; try reflexivity.
  apply compare_FLt in E.
  destruct (d <=? 0) eqn:L; trivial.
  pose proof (ltb_leb_trans E L) as C. discriminate C.
Qed.

End JSFacts.

Lemma element_in_range (A : Type) (l : list A) (i : nat) :
  i < List.length l -> exists x, nth_error l i = Some x /\ element l i = Return x.
Proof.
  intros H. unfold element. destruct (nth_error l i) as [x|] eqn:E.
  - now exists x.
  - apply nth_error_None in E. lia.
Qed.

(** ** The valuation engine *)

Module Rule1Facts.
Import F64 F64Facts JS JSFacts Rule1.
Local Open Scope string_scope.

(** ** The internal normalisation of a series *)

Lemma compareEnd_compare a b : compareEnd a b = String.compare (end_ a) (end_ b).
Proof.
  unfold compareEnd, str_lt, String.ltb.
  rewrite (String.compare_antisym (end_ b) (end_ a)).
  destruct (String.compare (end_ a) (end_ b)); reflexivity.
Qed.

Lemma compareEnd_antisym a b : compareEnd b a = CompOpp (compareEnd a b).
Proof. rewrite !compareEnd_compare. apply String.compare_antisym. Qed.

Lemma filter_id (A : Type) (f : A -> bool) (l : list A) :
  (forall x, In x l -> f x = true) -> filter f l = l.
Proof.
  induction l as [|x l IH]; cbn; trivial.
  intros H. rewrite (H x) by auto. f_equal. apply IH. intros; apply H; auto.
Qed.

Lemma normalizeSeries_perm series :
  Permutation (normalizeSeries series)
              (filter (fun p => Number_isFinite (val p)) series).
Proof. apply sort_perm. Qed.

Lemma normalizeSeries_In p series :
  In p (normalizeSeries series) <->
  In p series /\ Number_isFinite (val p) = true.
Proof. unfold normalizeSeries. rewrite sort_In, filter_In. tauto. Qed.

Lemma normalizeSeries_finite p series :
  In p (normalizeSeries series) -> is_finite (val p) = true.
Proof. intros H. now apply normalizeSeries_In in H. Qed.

Lemma normalizeSeries_ordered series : ordered compareEnd (normalizeSeries series).
Proof.
  apply (sort_ordered (P := fun _ => True)).
  - intros a b _ _. apply compareEnd_antisym.
  - apply Forall_forall. trivial.
Qed.

Lemma normalizeSeries_idempotent series :
  normalizeSeries (normalizeSeries series) = normalizeSeries series.
Proof.
  unfold normalizeSeries at 1. rewrite filter_id.
  - apply sort_ordered_id, normalizeSeries_ordered.
  - intros p Hp. now apply normalizeSeries_In in Hp.
Qed.

Lemma compare_self a : String.compare a a = Eq.
Proof.
  pose proof (String.compare_antisym a a) as H.
  destruct (String.compare a a); trivial; discriminate H.
Qed.

Lemma compareEnd_Gt_ends a b : compareEnd a b = Gt -> end_ a <> end_ b.
Proof.
  rewrite compareEnd_compare. intros H E. rewrite E, compare_self in H.
  discriminate.
Qed.

Lemma insert_filter_end e x l :
  filter (fun p => String.eqb (end_ p) e) (insert compareEnd x l)
  = filter (fun p => String.eqb (end_ p) e) (x :: l).
Proof.
  induction l as [|y l IH]; [reflexivity|].
  cbn [insert]. destruct (compareEnd x y) eqn:E; try reflexivity.
  apply compareEnd_Gt_ends in E.
  cbn [filter] in *. rewrite IH.
  destruct (String.eqb (end_ x) e) eqn:Ex, (String.eqb (end_ y) e) eqn:Ey; trivial.
  apply String.eqb_eq in Ex, Ey. congruence.
Qed.

Lemma sort_filter_end e l :
  filter (fun p => String.eqb (end_ p) e) (sort compareEnd l)
  = filter (fun p => String.eqb (end_ p) e) l.
Proof.
  induction l as [|x l IH]; [reflexivity|].
  cbn [sort]. rewrite insert_filter_end. cbn [filter]. now rewrite IH.
Qed.

Lemma compareEnd_le a b : compareEnd a b <> Gt <-> str_le (end_ a) (end_ b) = true.
Proof.
  rewrite compareEnd_compare. unfold str_le, String.leb.
  destruct (String.compare (end_ a) (end_ b)); split; congruence.
Qed.

Lemma normalizeSeries_sorted series :
  StronglySorted (fun a b => str_le (end_ a) (end_ b) = true)
                 (normalizeSeries series).
Proof.
  apply Sorted_StronglySorted; [intros x y z; apply str_le_trans|].
  pose proof (normalizeSeries_ordered series) as Ho.
  induction (normalizeSeries series) as [|p l IH]; [constructor|].
  constructor; [apply IH; exact (ordered_tail Ho)|].
  destruct l as [|q l]; constructor. apply compareEnd_le. exact (proj1 Ho).
Qed.

Lemma pointsNeededForBasis_positive b : 0 < pointsNeededForBasis b.
Proof. destruct b; cbn; lia. Qed.

Section RuntimeFacts.

Variable Math_pow : float -> float -> float.
Variable Number : string -> float.

(** [cagr] on finite endpoints and a span produced by [Math.max(1, _)]:
    neither early return on non-finite input or non-positive span fires. *)
Lemma cagr_finite_endpoints start end' d :
  is_finite start = true -> is_finite end' = true ->
  cagr Math_pow start end' (Math_max 1 d) =
  if (0 <? start)%float && (0 <? end')%float
  then (Math_pow (end' / start) (1 / Math_max 1 d) - 1)%float
  else 0%float.
Proof.
  intros Hs He. unfold cagr, Number_isFinite.
  rewrite Hs, He, Math_max_one_positive. cbn [negb orb].
  apply is_finite_notNaN in Hs, He.
  assert (Z0 : notNaN 0%float) by (apply is_nan_false; reflexivity).
  destruct (0 <? start)%float eqn:S1.
  - rewrite (ltb_nleb S1). cbn [orb andb].
    destruct (0 <? end')%float eqn:S2.
    + now rewrite (ltb_nleb S2).
    + now rewrite (nltb_leb Z0 He S2).
  - now rewrite (nltb_leb Z0 Hs S1).
Qed.

(** [computeGrowthByPoints] applied, as [calculateRule1] applies it, to a
    series that is already normalised. *)
Lemma computeGrowthByPoints_short series points :
  List.length (normalizeSeries series) < points ->
  computeGrowthByPoints Math_pow Number (normalizeSeries series) points = Return None.
Proof.
  intros H. unfold computeGrowthByPoints. rewrite normalizeSeries_idempotent.
  apply Nat.ltb_lt in H. now rewrite H.
Qed.

Lemma computeGrowthByPoints_enough series points :
  0 < points -> points <= List.length (normalizeSeries series) ->
  exists st e,
    nth_error (normalizeSeries series)
              (List.length (normalizeSeries series) - points) = Some st /\
    nth_error (normalizeSeries series)
              (List.length (normalizeSeries series) - 1) = Some e /\
    computeGrowthByPoints Math_pow Number (normalizeSeries series) points =
    Return (Some {| g_start := st; g_end := e;
                    g_yearsActual :=
                      Math_max 1 (yearOf Number (end_ e) - yearOf Number (end_ st));
                    g_growth :=
                      cagr Math_pow (val st) (val e)
                        (Math_max 1 (yearOf Number (end_ e) - yearOf Number (end_ st))) |}).
Proof.
  intros Hp Hl. unfold computeGrowthByPoints. rewrite normalizeSeries_idempotent.
  set (s := normalizeSeries series) in *.
  destruct (element_in_range (l := s) (i := List.length s - 1)) as (e & He & He'); [lia|].
  destruct (element_in_range (l := s) (i := List.length s - points)) as (st & Hs & Hs'); [lia|].
  exists st, e. repeat split; trivial.
  apply Nat.ltb_ge in Hl. rewrite Hl, He', Hs'. reflexivity.
Qed.

End RuntimeFacts.

Section Outcomes.

Variable Math_pow : float -> float -> float.
Variable Number : string -> float.

Lemma calculateRule1_cases inputs knobs :
  let epsSeries := normalizeSeries (eps inputs) in
  let normalized := normalizeSeries (basisSeriesOf inputs (growthBasis knobs)) in
  let needed := pointsNeededForBasis (growthBasis knobs) in
  (cannotAttempt inputs /\
   calculateRule1 Math_pow Number inputs knobs = Return None)
  \/
  (~ cannotAttempt inputs /\ List.length normalized < needed /\
   calculateRule1 Math_pow Number inputs knobs =
   Return (Some (Failure (failureFor (growthBasis knobs) (List.length normalized)))))
  \/
  (~ cannotAttempt inputs /\ needed <= List.length normalized /\
   exists lastEps pe st e,
     nth_error epsSeries (List.length epsSeries - 1) = Some lastEps /\
     historicPeRatio inputs = Some pe /\
     nth_error normalized (List.length normalized - needed) = Some st /\
     nth_error normalized (List.length normalized - 1) = Some e /\
     calculateRule1 Math_pow Number inputs knobs =
     Return (Some (Result (resultFor Math_pow Number inputs knobs lastEps pe st e)))).
Proof.
  intros epsSeries normalized needed. unfold calculateRule1, cannotAttempt.
  fold epsSeries. fold normalized. fold needed.
  destruct (List.length epsSeries =? 0)%nat eqn:E0.
  { left. split; trivial. left. apply Nat.eqb_eq in E0.
    now destruct epsSeries. }
  apply Nat.eqb_neq in E0.
  assert (Hne : epsSeries <> []) by (intros ->; now apply E0).
  destruct (element_in_range (l := epsSeries) (i := List.length epsSeries - 1))
    as (lastEps & HlastEps & ->); [lia|]. cbn [bind].
  destruct (historicPeRatio inputs) as [pe|]; [|left; split; auto].
  destruct (Number_isFinite pe) eqn:Fpe; [|left; split; auto].
  destruct (pe <=? 0)%float eqn:Lpe; [left; split; auto|].
  cbn [negb orb].
  assert (Hatt : ~ (epsSeries = [] \/ (true = false \/ false = true))).
  { intros [?|[?|?]]; congruence. }
  destruct (Nat.lt_ge_cases (List.length normalized) needed) as [Hlt|Hge].
  - right; left. repeat split; trivial.
    unfold normalized, needed in *.
    rewrite (computeGrowthByPoints_short Math_pow Number (series := _) Hlt).
    reflexivity.
  - right; right. repeat split; trivial.
    destruct (computeGrowthByPoints_enough Math_pow Number (series := basisSeriesOf inputs (growthBasis knobs))
                (pointsNeededForBasis_positive (growthBasis knobs)) Hge)
      as (st & e & Hst & He & Hg).
    exists lastEps, pe, st, e. repeat split; trivial.
    unfold normalized, needed in *. rewrite Hg. reflexivity.
Qed.

End Outcomes.

(** ** The three outcomes of [calculateRule1] *)

(** C1 (as amended). [calculateRule1] never throws and returns exactly one
    of three outcomes. It returns [null] when the EPS series has no finite
    point or the historic P/E is [null], not finite or not above zero.
    Otherwise, when the normalised basis series has fewer points than the
    basis needs (6 for a 5-year basis, 10 for a 10-year basis), it returns
    a Failure that carries the basis key, the points needed and the points
    available. Otherwise it returns a Result. *)
Theorem calculateRule1_outcomes
  (Math_pow : float -> float -> float) (Number : string -> float)
  (inputs : Rule1Inputs) (knobs : Rule1Knobs) :
  let normalized := normalizeSeries (basisSeriesOf inputs (growthBasis knobs)) in
  let needed := pointsNeededForBasis (growthBasis knobs) in
  needed = match growthBasis knobs with
           | bvps_5y | fcf_5y | eps_5y => 6
           | bvps_10y | fcf_10y | eps_10y => 10
           end
  /\ (cannotAttempt inputs ->
      calculateRule1 Math_pow Number inputs knobs = Return None)
  /\ (~ cannotAttempt inputs -> List.length normalized < needed ->
      exists msg,
        calculateRule1 Math_pow Number inputs knobs =
        Return (Some (Failure {| error := {|
                        type := "GROWTH_BASIS_UNAVAILABLE";
                        message := msg;
                        errorGrowthBasis := growthBasis knobs;
                        pointsNeeded := needed;
                        pointsAvailable := List.length normalized |} |})))
  /\ (~ cannotAttempt inputs -> needed <= List.length normalized ->
      exists r,
        calculateRule1 Math_pow Number inputs knobs = Return (Some (Result r))).
Proof.
  intros normalized needed.
  pose proof (calculateRule1_cases Math_pow Number inputs knobs) as H.
  cbv zeta in H. fold normalized in H. fold needed in H.
  split; [reflexivity|].
  destruct H as [[Ha H]|[(Ha & Hl & H)|(Ha & Hl & lastEps & pe & st & e & _ & _ & _ & _ & H)]].
  - repeat split; intros; trivial; contradiction.
  - repeat split; intros; try contradiction; try lia.
    eexists. rewrite H. reflexivity.
  - repeat split; intros; try contradiction; try lia.
    eexists. exact H.
Qed.

(** Nine points under a 10-year basis give a Failure with
    [pointsNeeded = 10] and [pointsAvailable = 9]; ten points give a Result. *)
Lemma calculateRule1_outcomes_ten_year_basis :
  (forall Math_pow Number, exists msg,
      calculateRule1 Math_pow Number
        (inputsWith nineYears (Some 15%float)) (knobsWith 0.12 50 eps_10y) =
      Return (Some (Failure {| error := {|
                      type := "GROWTH_BASIS_UNAVAILABLE"; message := msg;
                      errorGrowthBasis := eps_10y;
                      pointsNeeded := 10; pointsAvailable := 9 |} |})))
  /\
  (forall Math_pow Number, exists r,
      calculateRule1 Math_pow Number
        (inputsWith tenYears (Some 15%float)) (knobsWith 0.12 50 eps_10y) =
      Return (Some (Result r))).
Proof.
  split; intros Math_pow Number.
  - apply (calculateRule1_outcomes Math_pow Number
             (inputsWith nineYears (Some 15%float)) (knobsWith 0.12 50 eps_10y)).
    + intros [H|[H|H]]; vm_compute in H; discriminate H.
    + vm_compute. lia.
  - apply (calculateRule1_outcomes Math_pow Number
             (inputsWith tenYears (Some 15%float)) (knobsWith 0.12 50 eps_10y)).
    + intros [H|[H|H]]; vm_compute in H; discriminate H.
    + vm_compute. lia.
Defined.

(** A positive but infinite historic P/E, and a non-empty EPS series none of
    whose values is finite, both give [null] although the basis has enough
    points. *)
Lemma calculateRule1_null_outside_listed_cases :
  (eps (inputsWith tenYears (Some infinity)) <> []
   /\ (infinity <=? 0)%float = false
   /\ 10 <= List.length (normalizeSeries tenYears)
   /\ forall Math_pow Number,
       calculateRule1 Math_pow Number
         (inputsWith tenYears (Some infinity)) (knobsWith 0.12 50 eps_10y)
       = Return None)
  /\
  (let inputs := {| eps := [point "2020-12-31" nan];
                    bookValuePerShareUSD := tenYears; freeCashFlowUSD := [];
                    historicPeRatio := Some 15%float; latestPriceUSD := None |} in
   eps inputs <> []
   /\ 10 <= List.length (normalizeSeries (bookValuePerShareUSD inputs))
   /\ forall Math_pow Number,
       calculateRule1 Math_pow Number inputs (knobsWith 0.12 50 bvps_10y)
       = Return None).
Proof.
  split; [|cbv zeta]; repeat split; try discriminate; reflexivity.
Qed.

(** ** Growth over the basis *)

(** C2. When a valuation can be attempted and the normalised basis series
    has at least [pointsNeeded] points (6 for a 5-year basis, 10 for a
    10-year one), [calculateRule1] returns a Result whose growth is
    computed from the point [pointsNeeded] positions from the end of the
    normalised series (start) and from its last point (end). The
    normalised series is that of the series the basis key selects (book
    value per share, free cash flow or EPS): a permutation of its
    finite-valued points, ascending by period end in the order of code
    units, in which the points of one period end keep their input order.
    Actual years are [Math.max(1, end.year - start.year)], a year being
    [Number] of the first four characters of a period end; growth is
    [(end.value / start.value)^(1/actualYears) - 1] when both endpoint
    values are above zero and 0 otherwise. *)
Theorem calculateRule1_growth
  (Math_pow : float -> float -> float) (Number : string -> float)
  (inputs : Rule1Inputs) (knobs : Rule1Knobs) :
  let series := match growthBasis knobs with
                | bvps_5y | bvps_10y => bookValuePerShareUSD inputs
                | fcf_5y | fcf_10y => freeCashFlowUSD inputs
                | eps_5y | eps_10y => eps inputs
                end in
  let needed := match growthBasis knobs with
                | bvps_5y | fcf_5y | eps_5y => 6
                | bvps_10y | fcf_10y | eps_10y => 10
                end in
  let finite := filter (fun p => is_finite (val p)) series in
  let normalized := normalizeSeries series in
  ~ cannotAttempt inputs ->
  needed <= List.length normalized ->
  exists r st e,
    calculateRule1 Math_pow Number inputs knobs = Return (Some (Result r))
    /\ Permutation normalized finite
    /\ StronglySorted (fun a b => str_le (end_ a) (end_ b) = true) normalized
    /\ (forall d, filter (fun p => String.eqb (end_ p) d) normalized
                  = filter (fun p => String.eqb (end_ p) d) finite)
    /\ nth_error normalized (List.length normalized - needed) = Some st
    /\ nth_error normalized (List.length normalized - 1) = Some e
    /\ startEnd (basis r) = end_ st /\ startVal (basis r) = val st
    /\ endEnd (basis r) = end_ e /\ endVal (basis r) = val e
    /\ pointsUsed (basis r) = needed
    /\ yearsActual (basis r) =
       Math_max 1 (Number (slice 0 4 (end_ e)) - Number (slice 0 4 (end_ st)))
    /\ growth (basis r) =
       if (0 <? val st)%float && (0 <? val e)%float
       then (Math_pow (val e / val st) (1 / yearsActual (basis r)) - 1)%float
       else 0%float.
Proof.
  intros series needed finite normalized Hatt Hlen.
  assert (Es : series = basisSeriesOf inputs (growthBasis knobs))
    by (subst series; destruct (growthBasis knobs); reflexivity).
  assert (En : needed = pointsNeededForBasis (growthBasis knobs))
    by (subst needed; destruct (growthBasis knobs); reflexivity).
  pose proof (calculateRule1_cases Math_pow Number inputs knobs) as H.
  cbv zeta in H. rewrite <- Es, <- En in H. fold normalized in H.
  destruct H as [[Ha _]|[(_ & Hl & _)|(_ & _ & lastEps & pe & st & e & _ & _ & Hst & He & H)]];
    [contradiction | lia |].
  exists (resultFor Math_pow Number inputs knobs lastEps pe st e), st, e.
  split; [exact H|].
  split; [apply normalizeSeries_perm|].
  split; [apply normalizeSeries_sorted|].
  split; [intros d; apply sort_filter_end|].
  split; [exact Hst|]. split; [exact He|].
  cbn [resultFor basis startEnd startVal endEnd endVal pointsUsed yearsActual growth].
  do 4 (split; [reflexivity|]).
  split; [symmetry; exact En|].
  split; [reflexivity|].
  apply cagr_finite_endpoints.
  - apply nth_error_In in Hst. exact (normalizeSeries_finite Hst).
  - apply nth_error_In in He. exact (normalizeSeries_finite He).
Qed.

(** Eight points filed out of order, one of them NaN: the start is the
    sixth point from the end of the seven sorted ones, 100 in 2015, and the
    end is 200 in 2020. That is five actual years and growth
    [2^(1/5) - 1], which is 0.1486983549970351 when [Math.pow(2, 0.2)] is
    the binary64 value nearest to the fifth root of 2. *)
Lemma calculateRule1_growth_2015_2020 :
  ~ StronglySorted (fun a b => str_le (end_ a) (end_ b) = true) sevenYearsScattered
  /\ normalizeSeries sevenYearsScattered
     = [ point "2014-12-31" 90; point "2015-12-31" 100; point "2016-12-31" 120;
         point "2017-12-31" 140; point "2018-12-31" 160; point "2019-12-31" 180;
         point "2020-12-31" 200 ]
  /\ forall Math_pow, exists r,
      calculateRule1 Math_pow digitsToNumber
        (inputsWith sevenYearsScattered (Some 20%float)) (knobsWith 0.12 50 eps_5y)
      = Return (Some (Result r))
      /\ startEnd (basis r) = "2015-12-31" /\ startVal (basis r) = 100%float
      /\ endEnd (basis r) = "2020-12-31" /\ endVal (basis r) = 200%float
      /\ yearsActual (basis r) = 5%float
      /\ growth (basis r) = (Math_pow 2 (1 / 5) - 1)%float
      /\ (Math_pow 2 (1 / 5) = 1.148698354997035 ->
          growth (basis r) = 0.1486983549970351)%float.
Proof.
  split.
  { intros H. inversion H as [|? ? _ Hall]; subst.
    inversion Hall as [|? ? Hle _]; subst. vm_compute in Hle. discriminate Hle. }
  split; [reflexivity|]. intros Math_pow.
  destruct (calculateRule1_growth Math_pow digitsToNumber
              (inputs := inputsWith sevenYearsScattered (Some 20%float))
              (knobs := knobsWith 0.12 50 eps_5y))
    as (r & st & e & Hr & _ & _ & _ & Hst & He & Hse & Hsv & Hee & Hev & _ & Hy & Hg).
  - intros [H|[H|H]]; vm_compute in H; discriminate H.
  - vm_compute. lia.
  - vm_compute in Hst, He.
    injection Hst as <-. injection He as <-.
    exists r. rewrite Hg, Hy, Hse, Hsv, Hee, Hev.
    repeat split; trivial.
    vm_compute. intros ->. reflexivity.
Defined.

(** ** Chosen growth, future value and sticker prices *)

Lemma calculateRule1_Result_inv
  (Math_pow : float -> float -> float) (Number : string -> float)
  (inputs : Rule1Inputs) (knobs : Rule1Knobs) (r : Rule1Result) :
  calculateRule1 Math_pow Number inputs knobs = Return (Some (Result r)) ->
  exists lastEps pe st e,
    nth_error (normalizeSeries (eps inputs))
              (List.length (normalizeSeries (eps inputs)) - 1) = Some lastEps
    /\ historicPeRatio inputs = Some pe
    /\ r = resultFor Math_pow Number inputs knobs lastEps pe st e.
Proof.
  intros Hr.
  pose proof (calculateRule1_cases Math_pow Number inputs knobs) as H.
  cbv zeta in H.
  destruct H as [[_ H]|[(_ & _ & H)|(_ & _ & lastEps & pe & st & e & Hl & Hpe & _ & _ & H)]];
    rewrite H in Hr; try discriminate Hr.
  injection Hr as <-. now exists lastEps, pe, st, e.
Qed.

(** C3 (as amended). In every Result, [chosenGrowth] is
    [Math.min(analystGrowth, basisGrowth)]; whenever neither of the two is
    NaN it is at most the analyst's estimate and at most the basis growth. *)
Theorem calculateRule1_chosenGrowth
  (Math_pow : float -> float -> float) (Number : string -> float)
  (inputs : Rule1Inputs) (knobs : Rule1Knobs) (r : Rule1Result) :
  calculateRule1 Math_pow Number inputs knobs = Return (Some (Result r)) ->
  chosenGrowth r = Math_min (analystGrowth knobs) (growth (basis r))
  /\ (is_nan (analystGrowth knobs) = false ->
      is_nan (growth (basis r)) = false ->
      (chosenGrowth r <=? analystGrowth knobs)%float = true
      /\ (chosenGrowth r <=? growth (basis r))%float = true).
Proof.
  intros Hr.
  destruct (calculateRule1_Result_inv Hr) as (lastEps & pe & st & e & _ & _ & ->).
  cbn [resultFor chosenGrowth basis growth].
  split; [reflexivity|]. apply Math_min_le.
Qed.

Lemma calculateRule1_chosenGrowth_sample :
  List.length doubledInFiveYears = 6
  /\ forall Math_pow, exists r,
      calculateRule1 Math_pow digitsToNumber
        (inputsWith doubledInFiveYears (Some 20%float)) (knobsWith 0.12 50 eps_5y)
      = Return (Some (Result r))
      /\ chosenGrowth r = Math_min 0.12 (Math_pow 2 (1 / 5) - 1)%float.
Proof.
  split; [reflexivity|]. intros Math_pow. eexists. split; [reflexivity|].
  exact (proj1 (calculateRule1_chosenGrowth
                  (Math_pow := Math_pow) (Number := digitsToNumber)
                  (inputs := inputsWith doubledInFiveYears (Some 20%float))
                  (knobs := knobsWith 0.12 50 eps_5y) eq_refl)).
Defined.

(** With a NaN analyst estimate the Result's chosen growth is NaN, which is
    not at most anything. *)
Lemma calculateRule1_chosenGrowth_nan_estimate :
  List.length doubledInFiveYears = 6
  /\ forall Math_pow Number, exists r,
      calculateRule1 Math_pow Number
        (inputsWith doubledInFiveYears (Some 20%float)) (knobsWith nan 50 eps_5y)
      = Return (Some (Result r))
      /\ is_nan (chosenGrowth r) = true
      /\ (chosenGrowth r <=? analystGrowth (knobsWith nan 50 eps_5y))%float = false
      /\ (chosenGrowth r <=? growth (basis r))%float = false.
Proof.
  split; [reflexivity|]. intros Math_pow Number. eexists. split; [reflexivity|].
  cbn [chosenGrowth]. rewrite Math_min_nan by (left; reflexivity).
  repeat split; apply leb_nan_l.
Qed.

(** C4 (as amended). In every Result: [futureValue] is
    [latestEps * historicPE * (1 + chosenGrowth)^years], where [latestEps]
    is the value of the last normalised EPS point and [historicPE] the
    input ratio; [stickerPrice] is [futureValue / (1 + desiredReturn)^years];
    and [stickerPriceWithMOS] is [stickerPrice] times
    [max(0, min(1, (100 - marginOfSafetyPercent) / 100))]. For
    [marginOfSafetyPercent = 150] that factor is 0, and
    [stickerPriceWithMOS] is never below zero and is zero whenever
    [stickerPrice] is finite. *)
Theorem calculateRule1_prices
  (Math_pow : float -> float -> float) (Number : string -> float)
  (inputs : Rule1Inputs) (knobs : Rule1Knobs) (r : Rule1Result) :
  calculateRule1 Math_pow Number inputs knobs = Return (Some (Result r)) ->
  let mosFactor :=
    Math_max 0 (Math_min 1 ((100 - marginOfSafetyPercent knobs) / 100)) in
  (exists lastEps,
      nth_error (normalizeSeries (eps inputs))
                (List.length (normalizeSeries (eps inputs)) - 1) = Some lastEps
      /\ latestEps r = val lastEps)
  /\ historicPeRatio inputs = Some (historicPeUsed r)
  /\ futureValue r =
     (latestEps r * historicPeUsed r
      * Math_pow (1 + chosenGrowth r) (years knobs))%float
  /\ stickerPrice r =
     (futureValue r / Math_pow (1 + desiredReturn knobs) (years knobs))%float
  /\ stickerPriceWithMOS r = (stickerPrice r * mosFactor)%float
  /\ (marginOfSafetyPercent knobs = 150%float ->
      mosFactor = 0%float
      /\ (stickerPriceWithMOS r <? 0)%float = false
      /\ (is_finite (stickerPrice r) = true ->
          (stickerPriceWithMOS r =? 0)%float = true)).
Proof.
  intros Hr mosFactor.
  destruct (calculateRule1_Result_inv Hr) as (lastEps & pe & st & e & Hl & Hpe & ->).
  cbn [resultFor latestEps historicPeUsed futureValue stickerPrice
       stickerPriceWithMOS chosenGrowth].
  split; [now exists lastEps|].
  do 4 (split; [trivial|]).
  intros Hmos. subst mosFactor. rewrite Hmos.
  change (Math_max 0 (Math_min 1 ((100 - 150) / 100))) with 0%float.
  split; [reflexivity|]. split.
  - apply mul_zero_not_negative.
  - apply mul_zero_finite.
Qed.

Lemma calculateRule1_prices_sample :
  List.length doubledInFiveYears = 6
  /\ forall Math_pow, exists r,
      calculateRule1 Math_pow digitsToNumber
        (inputsWith doubledInFiveYears (Some 20%float)) (knobsWith 0.12 150 eps_5y)
      = Return (Some (Result r))
      /\ latestEps r = 200%float /\ historicPeUsed r = 20%float
      /\ futureValue r = (200 * 20 * Math_pow (1 + chosenGrowth r) 10)%float
      /\ stickerPrice r = (futureValue r / Math_pow (1 + 0.15) 10)%float
      /\ stickerPriceWithMOS r = (stickerPrice r * 0)%float
      /\ (stickerPriceWithMOS r <? 0)%float = false.
Proof.
  split; [reflexivity|]. intros Math_pow. eexists. split; [reflexivity|].
  destruct (calculateRule1_prices
              (Math_pow := Math_pow) (Number := digitsToNumber)
              (inputs := inputsWith doubledInFiveYears (Some 20%float))
              (knobs := knobsWith 0.12 150 eps_5y) eq_refl)
    as (_ & _ & Hf & Hs & Hm & Hz).
  destruct (Hz eq_refl) as (_ & Hneg & _).
  repeat split; trivial.
Defined.

(** A latest EPS of 1e308 and a historic P/E of 1e308 overflow: with a
    margin of safety of 150 the sticker price with MOS is NaN, not 0,
    whatever [Math.pow] returns. *)
Lemma calculateRule1_prices_overflow :
  let series := [ point "2015-12-31" 1; point "2016-12-31" 1;
                  point "2017-12-31" 1; point "2018-12-31" 1;
                  point "2019-12-31" 1; point "2020-12-31" 1e308 ] in
  is_finite 1e308 = true
  /\ forall Math_pow Number, exists r,
      calculateRule1 Math_pow Number
        (inputsWith series (Some 1e308%float)) (knobsWith 0.12 150 eps_5y)
      = Return (Some (Result r))
      /\ is_nan (stickerPriceWithMOS r) = true
      /\ (stickerPriceWithMOS r =? 0)%float = false.
Proof.
  cbv zeta. split; [reflexivity|]. intros Math_pow Number.
  eexists. split; [reflexivity|].
  cbn [stickerPriceWithMOS].
  match goal with
  | |- is_nan ?x = true /\ _ =>
      assert (E : is_nan x = true)
  end.
  { set (p := Math_pow _ (years _)). set (q := Math_pow _ (years _)).
    change (Math_max 0 (Math_min 1 ((100 - marginOfSafetyPercent (knobsWith 0.12 150 eps_5y)) / 100)))
      with 0%float.
    change (1e308 * 1e308)%float with infinity.
    apply infinity_mul_div_mul_zero. }
  split; [exact E|].
  unfold is_nan in E. apply negb_true_iff in E.
  match goal with
  | |- (?x =? 0)%float = false => destruct (x =? 0)%float eqn:Z; trivial
  end.
  apply eqb_key in Z. destruct Z as (Hn & _).
  match type of Hn with notNaN ?x => apply is_nan_false in Hn; unfold is_nan in Hn end.
  rewrite E in Hn. discriminate Hn.
Qed.

(** ** Duplicate period ends inside the engine *)

(** C10. The engine's own normalisation keeps every finite point: it is a
    reordering of the finite points of its input, duplicates of a period
    end included. So there is a basis series with two points on one period
    end for which [calculateRule1] counts both: six points on five distinct
    period ends satisfy a basis that needs six points and produce a Result,
    and five points on four distinct period ends are reported as
    [pointsAvailable = 5]. *)
Theorem calculateRule1_counts_duplicate_periods :
  (forall series,
      Permutation (normalizeSeries series)
                  (filter (fun p => Number_isFinite (val p)) series))
  /\ (List.length sixPointsFiveYears = 6
      /\ List.length (distinctEnds sixPointsFiveYears) = 5
      /\ pointsNeededForBasis eps_5y = 6
      /\ forall Math_pow Number, exists r,
          calculateRule1 Math_pow Number
            (inputsWith sixPointsFiveYears (Some 20%float)) (knobsWith 0.12 50 eps_5y)
          = Return (Some (Result r))
          /\ pointsUsed (basis r) = 6
          /\ startEnd (basis r) = "2016-12-31" /\ endEnd (basis r) = "2020-12-31")
  /\ (List.length (distinctEnds fivePointsFourYears) = 4
      /\ forall Math_pow Number, exists msg,
          calculateRule1 Math_pow Number
            (inputsWith fivePointsFourYears (Some 20%float)) (knobsWith 0.12 50 eps_5y)
          = Return (Some (Failure {| error := {|
                            type := "GROWTH_BASIS_UNAVAILABLE"; message := msg;
                            errorGrowthBasis := eps_5y;
                            pointsNeeded := 6; pointsAvailable := 5 |} |}))).
Proof.
  split; [exact normalizeSeries_perm|]. split.
  - do 3 (split; [reflexivity|]). intros Math_pow Number.
    eexists. split; [reflexivity|]. repeat split.
  - split; [reflexivity|]. intros Math_pow Number.
    eexists. reflexivity.
Qed.

(** ** Stability and independence of the input order *)

(** X1. The sort of [normalizeSeries] is stable: for every period end, the
    finite-valued points on that end come out in the order they had in the
    input. Normalising a series that is already normalised changes
    nothing, which [computeGrowthByPoints] relies on when [calculateRule1]
    hands it a normalised series. *)
Theorem normalizeSeries_stable (series : list SeriesPoint) :
  (forall e,
      filter (fun p => String.eqb (end_ p) e) (normalizeSeries series)
      = filter (fun p => String.eqb (end_ p) e)
               (filter (fun p => Number_isFinite (val p)) series))
  /\ normalizeSeries (normalizeSeries series) = normalizeSeries series.
Proof.
  split.
  - intros e. apply sort_filter_end.
  - unfold normalizeSeries at 1. rewrite filter_id.
    + apply sort_ordered_id, normalizeSeries_ordered.
    + intros p Hp. now apply normalizeSeries_In in Hp.
Qed.

Lemma ordered_nth (series : list SeriesPoint) i j a b :
  ordered compareEnd series -> i <= j ->
  nth_error series i = Some a -> nth_error series j = Some b ->
  str_le (end_ a) (end_ b) = true.
Proof.
  intros Ho.
  assert (Hs : StronglySorted (fun a b => str_le (end_ a) (end_ b) = true) series).
  { apply Sorted_StronglySorted; [intros x y z; apply str_le_trans|].
    induction series as [|p l IH]; [constructor|].
    constructor; [apply IH; exact (ordered_tail Ho)|].
    destruct l as [|q l]; constructor. apply compareEnd_le. exact (proj1 Ho). }
  clear Ho. revert i j a b.
  induction Hs as [|h rest Hs IH Hall]; intros i j a b Hij Hi Hj.
  - destruct i; discriminate.
  - destruct i as [|i], j as [|j]; cbn in Hi, Hj; try lia.
    + injection Hi as <-. injection Hj as <-. apply str_le_refl.
    + injection Hi as <-. rewrite Forall_forall in Hall.
      apply Hall. eapply nth_error_In, Hj.
    + apply (IH i j); trivial; lia.
Qed.

Lemma ordered_strictly (series : list SeriesPoint) :
  ordered compareEnd series -> NoDup (map end_ series) ->
  StronglySorted (fun p q => String.compare (end_ p) (end_ q) = Lt) series.
Proof.
  induction series as [|p l IH]; intros Ho ND; [constructor|].
  inversion ND as [|? ? Hnot ND']; subst.
  specialize (IH (ordered_tail Ho) ND').
  constructor; trivial.
  destruct l as [|q l]; [constructor|].
  destruct Ho as [Hpq _]. rewrite compareEnd_compare in Hpq.
  assert (Lpq : String.compare (end_ p) (end_ q) = Lt).
  { destruct (String.compare (end_ p) (end_ q)) eqn:E; trivial; [|congruence].
    exfalso. apply Hnot. left. symmetry. now apply String.compare_eq_iff. }
  inversion IH as [|? ? _ Hq]; subst.
  constructor; trivial.
  apply Forall_forall. intros r Hr. rewrite Forall_forall in Hq.
  exact (string_compare_trans Lpq (Hq r Hr)).
Qed.

Lemma compare_Lt_irrefl a : String.compare a a <> Lt.
Proof. rewrite compare_self. discriminate. Qed.

Lemma strictly_sorted_unique (l1 l2 : list SeriesPoint) :
  StronglySorted (fun p q => String.compare (end_ p) (end_ q) = Lt) l1 ->
  StronglySorted (fun p q => String.compare (end_ p) (end_ q) = Lt) l2 ->
  Permutation l1 l2 -> l1 = l2.
Proof.
  intros H1. revert l2.
  induction H1 as [|x l1 H1 IH Hx]; intros l2 H2 HP.
  - apply Permutation_nil in HP. now subst.
  - destruct l2 as [|y l2]; [symmetry in HP; now apply Permutation_nil in HP|].
    inversion H2 as [|? ? H2' Hy]; subst.
    rewrite Forall_forall in Hx, Hy.
    assert (x = y).
    { assert (Ix : In x (y :: l2)) by (eapply Permutation_in; [exact HP | now left]).
      assert (Iy : In y (x :: l1))
        by (eapply Permutation_in; [symmetry; exact HP | now left]).
      destruct Ix as [->|Ix]; trivial.
      destruct Iy as [->|Iy]; trivial.
      exfalso. apply (@compare_Lt_irrefl (end_ x)).
      exact (string_compare_trans (Hx y Iy) (Hy x Ix)). }
    subst y. f_equal. apply IH; trivial.
    now apply Permutation_cons_inv in HP.
Qed.

Lemma filter_perm (A : Type) (f : A -> bool) (l l' : list A) :
  Permutation l l' -> Permutation (filter f l) (filter f l').
Proof.
  induction 1; cbn.
  - constructor.
  - destruct (f x); auto.
  - destruct (f x), (f y); auto using perm_swap.
  - etransitivity; eauto.
Qed.

Lemma NoDup_map_filter (A B : Type) (g : A -> B) (f : A -> bool) (l : list A) :
  NoDup (map g l) -> NoDup (map g (filter f l)).
Proof.
  induction l as [|x l IH]; cbn; intros H; [constructor|].
  inversion H as [|? ? Hn H']; subst.
  destruct (f x); cbn; auto.
  constructor; auto.
  intros C. apply Hn. apply in_map_iff in C. destruct C as (y & Ey & Hy).
  apply in_map_iff. exists y. split; trivial. now apply filter_In in Hy.
Qed.

Lemma normalizeSeries_permuted series series' :
  Permutation series series' -> NoDup (map end_ series) ->
  normalizeSeries series = normalizeSeries series'.
Proof.
  intros HP ND.
  assert (HP' : Permutation (normalizeSeries series) (normalizeSeries series')).
  { rewrite !normalizeSeries_perm. now apply filter_perm. }
  assert (ND1 : NoDup (map end_ (normalizeSeries series))).
  { eapply Permutation_NoDup.
    - apply Permutation_map. symmetry. apply normalizeSeries_perm.
    - now apply NoDup_map_filter. }
  assert (ND2 : NoDup (map end_ (normalizeSeries series'))).
  { eapply Permutation_NoDup; [apply Permutation_map; exact HP' | exact ND1]. }
  apply strictly_sorted_unique; trivial;
    apply ordered_strictly; trivial; apply normalizeSeries_ordered.
Qed.

(** X2. The order of the points within the input series does not matter:
    when no series has two points on one period end, reordering the EPS,
    book-value and free-cash-flow series leaves the outcome of
    [calculateRule1] unchanged. *)
Theorem calculateRule1_order_independent
  (Math_pow : float -> float -> float) (Number : string -> float)
  (inputs inputs' : Rule1Inputs) (knobs : Rule1Knobs) :
  Permutation (eps inputs) (eps inputs') ->
  Permutation (bookValuePerShareUSD inputs) (bookValuePerShareUSD inputs') ->
  Permutation (freeCashFlowUSD inputs) (freeCashFlowUSD inputs') ->
  historicPeRatio inputs = historicPeRatio inputs' ->
  latestPriceUSD inputs = latestPriceUSD inputs' ->
  NoDup (map end_ (eps inputs)) ->
  NoDup (map end_ (bookValuePerShareUSD inputs)) ->
  NoDup (map end_ (freeCashFlowUSD inputs)) ->
  calculateRule1 Math_pow Number inputs knobs
  = calculateRule1 Math_pow Number inputs' knobs.
Proof.
  intros Pe Pb Pf Hpe Hpx Ne Nb Nf.
  assert (Ee : normalizeSeries (eps inputs) = normalizeSeries (eps inputs'))
    by now apply normalizeSeries_permuted.
  assert (Eb : normalizeSeries (basisSeriesOf inputs (growthBasis knobs))
               = normalizeSeries (basisSeriesOf inputs' (growthBasis knobs))).
  { destruct (growthBasis knobs); cbn [basisSeriesOf];
      now apply normalizeSeries_permuted. }
  unfold calculateRule1. rewrite Ee, Hpe, Eb, Hpx. reflexivity.
Qed.

(** The six fiscal years in reverse order give the same outcome. *)
Lemma calculateRule1_order_independent_reversed :
  Permutation doubledInFiveYears (rev doubledInFiveYears)
  /\ NoDup (map end_ doubledInFiveYears)
  /\ forall Math_pow Number,
       calculateRule1 Math_pow Number
         (inputsWith doubledInFiveYears (Some 20%float)) (knobsWith 0.12 50 eps_5y)
       = calculateRule1 Math_pow Number
           (inputsWith (rev doubledInFiveYears) (Some 20%float))
           (knobsWith 0.12 50 eps_5y).
Proof.
  assert (ND : NoDup (map end_ doubledInFiveYears)).
  { repeat (constructor; [cbn; intuition discriminate|]). constructor. }
  split; [apply Permutation_rev|]. split; [exact ND|].
  intros Math_pow Number.
  apply (@calculateRule1_order_independent Math_pow Number
           (inputsWith doubledInFiveYears (Some 20%float))
           (inputsWith (rev doubledInFiveYears) (Some 20%float))
           (knobsWith 0.12 50 eps_5y));
    cbn [inputsWith eps bookValuePerShareUSD freeCashFlowUSD historicPeRatio
         latestPriceUSD map]; trivial; try constructor.
  apply Permutation_rev.
Defined.

(** ** What a Result and a Failure carry *)

Local Open Scope float_scope.

Lemma Math_max_one_least d : (Math_max 1 d <? 1) = false.
Proof.
  unfold Math_max. destruct (1 ?= d) eqn:E; try reflexivity.
  apply compare_FLt in E. apply leb_nltb. now apply ltb_leb.
Qed.

Lemma Math_min_one_cases x :
  Math_min 1 x = nan /\ is_nan x = true
  \/ Math_min 1 x = 1
  \/ (Math_min 1 x = x /\ (x <=? 1) = true).
Proof.
  unfold Math_min. destruct (1 ?= x) eqn:E.
  - apply compare_FEq in E. right; right. split; [reflexivity|].
    now apply eqb_leb, eqb_sym.
  - right; left. reflexivity.
  - apply compare_FGt in E. right; right. split; [reflexivity|]. now apply ltb_leb.
  - apply compare_FNotComparable in E. left. split; [reflexivity|].
    destruct E as [E|E]; [discriminate E | exact E].
Qed.

Lemma Math_max_zero_cases y :
  Math_max 0 y = nan /\ is_nan y = true
  \/ Math_max 0 y = 0
  \/ (Math_max 0 y = y /\ (0 <? y) = true).
Proof.
  unfold Math_max. destruct (0 ?= y) eqn:E.
  - right; left. reflexivity.
  - apply compare_FLt in E. right; right. now split.
  - right; left. reflexivity.
  - apply compare_FNotComparable in E. left. split; [reflexivity|].
    destruct E as [E|E]; [discriminate E | exact E].
Qed.

Lemma clamp_unit_range x :
  let f := Math_max 0 (Math_min 1 x) in
  (is_nan f = true /\ is_nan x = true)
  \/ ((0 <=? f) = true /\ (f <=? 1) = true).
Proof.
  intros f. subst f.
  destruct (Math_max_zero_cases (Math_min 1 x)) as [[-> Hn]|[->|[-> Hpos]]].
  - left. split; [reflexivity|].
    destruct (Math_min_one_cases x) as [[_ H]|[H|[H _]]]; trivial.
    + rewrite H in Hn. discriminate Hn.
    + now rewrite H in Hn.
  - right. split; reflexivity.
  - right. split; [now apply ltb_leb|].
    destruct (Math_min_one_cases x) as [[H _]|[H|[H Hle]]]; rewrite H in *.
    + discriminate Hpos.
    + reflexivity.
    + exact Hle.
Qed.

Local Close Scope float_scope.

(** X3. What a Result carries besides the prices. [latestEps] is the value
    of a finite-valued EPS point whose period end no finite-valued EPS
    point exceeds, in code-unit order; [historicPeUsed] is the input P/E,
    which is finite and above zero; [currentPrice] is the input price; the
    basis block names the chosen basis, its label and the number of points
    it needs; its start is not after its end; and [yearsActual] is never
    below 1. *)
Theorem calculateRule1_result_fields
  (Math_pow : float -> float -> float) (Number : string -> float)
  (inputs : Rule1Inputs) (knobs : Rule1Knobs) (r : Rule1Result) :
  calculateRule1 Math_pow Number inputs knobs = Return (Some (Result r)) ->
  (exists p,
      In p (eps inputs) /\ is_finite (val p) = true /\ latestEps r = val p
      /\ forall q, In q (eps inputs) -> is_finite (val q) = true ->
                   str_le (end_ q) (end_ p) = true)
  /\ historicPeRatio inputs = Some (historicPeUsed r)
  /\ is_finite (historicPeUsed r) = true
  /\ (0 <? historicPeUsed r)%float = true
  /\ currentPrice r = latestPriceUSD inputs
  /\ key (basis r) = growthBasis knobs
  /\ label (basis r) = growthBasisLabel (growthBasis knobs)
  /\ pointsUsed (basis r) = pointsNeededForBasis (growthBasis knobs)
  /\ str_le (startEnd (basis r)) (endEnd (basis r)) = true
  /\ (yearsActual (basis r) <? 1)%float = false.
Proof.
  intros Hr.
  destruct (calculateRule1_cases Math_pow Number inputs knobs)
    as [[_ H]|[(_ & _ & H)|(Hatt & Hge & lastEps & pe & st & e & Hl & Hpe & Hst & He & H)]];
    rewrite H in Hr; try discriminate Hr.
  injection Hr as <-. cbn.
  pose proof (pointsNeededForBasis_positive (growthBasis knobs)) as Hpos.
  split; [|split; [|split; [|split; [|split; [|split; [|split; [|split; [|split]]]]]]]];
    trivial.
  - exists lastEps.
    assert (Hin : In lastEps (normalizeSeries (eps inputs)))
      by (eapply nth_error_In; exact Hl).
    apply normalizeSeries_In in Hin. destruct Hin as [Hin Hfin].
    repeat split; trivial.
    intros q Hq Fq.
    assert (Hq' : In q (normalizeSeries (eps inputs)))
      by (apply normalizeSeries_In; now split).
    apply In_nth_error in Hq'. destruct Hq' as [i Hi].
    assert (i < List.length (normalizeSeries (eps inputs)))
      by (apply nth_error_Some; congruence).
    apply (ordered_nth (normalizeSeries_ordered (eps inputs))
                       (i := i) (j := List.length (normalizeSeries (eps inputs)) - 1));
      trivial; lia.
  - unfold cannotAttempt in Hatt. rewrite Hpe in Hatt.
    destruct (Number_isFinite pe) eqn:F; trivial.
    exfalso. apply Hatt. right. now left.
  - unfold cannotAttempt in Hatt. rewrite Hpe in Hatt.
    destruct (Number_isFinite pe) eqn:F; [|exfalso; apply Hatt; right; now left].
    destruct (0 <? pe)%float eqn:L; trivial.
    exfalso. apply Hatt. right. right.
    apply nltb_leb; trivial.
    + apply is_nan_false. reflexivity.
    + now apply is_finite_notNaN.
  - apply (ordered_nth
             (normalizeSeries_ordered (basisSeriesOf inputs (growthBasis knobs)))
             (i := List.length (normalizeSeries (basisSeriesOf inputs (growthBasis knobs)))
                   - pointsNeededForBasis (growthBasis knobs))
             (j := List.length (normalizeSeries (basisSeriesOf inputs (growthBasis knobs)))
                   - 1)); trivial; lia.
  - apply Math_max_one_least.
Qed.

(** On the six fiscal years from 2015 to 2020 with a P/E of 20. *)
Lemma calculateRule1_result_fields_sample :
  List.length doubledInFiveYears = 6
  /\ forall Math_pow, exists r,
      calculateRule1 Math_pow digitsToNumber
        (inputsWith doubledInFiveYears (Some 20%float)) (knobsWith 0.12 50 eps_5y)
      = Return (Some (Result r))
      /\ latestEps r = 200%float
      /\ historicPeUsed r = 20%float
      /\ (0 <? historicPeUsed r)%float = true
      /\ startEnd (basis r) = "2015-12-31" /\ endEnd (basis r) = "2020-12-31"
      /\ str_le (startEnd (basis r)) (endEnd (basis r)) = true
      /\ (yearsActual (basis r) <? 1)%float = false.
Proof.
  split; [reflexivity|]. intros Math_pow. eexists. split; [reflexivity|].
  destruct (calculateRule1_result_fields
              (Math_pow := Math_pow) (Number := digitsToNumber)
              (inputs := inputsWith doubledInFiveYears (Some 20%float))
              (knobs := knobsWith 0.12 50 eps_5y) eq_refl)
    as (_ & _ & _ & Hpe & _ & _ & _ & _ & Hse & Hy).
  repeat split; trivial.
Defined.

(** X4. The outcome tells its cause. [null] is returned only when the
    valuation cannot be attempted. A Failure is returned only when it can
    and the normalised basis series has fewer points than the basis needs;
    its message then names the label of the basis and both counts, in
    decimal. A Result is returned only when the basis series has enough
    points. *)
Theorem calculateRule1_outcome_causes
  (Math_pow : float -> float -> float) (Number : string -> float)
  (inputs : Rule1Inputs) (knobs : Rule1Knobs) :
  let label := growthBasisLabel (growthBasis knobs) in
  let needed := pointsNeededForBasis (growthBasis knobs) in
  let available :=
    List.length (normalizeSeries (basisSeriesOf inputs (growthBasis knobs))) in
  (calculateRule1 Math_pow Number inputs knobs = Return None ->
   cannotAttempt inputs)
  /\ (forall f,
        calculateRule1 Math_pow Number inputs knobs = Return (Some (Failure f)) ->
        ~ cannotAttempt inputs
        /\ available < needed
        /\ type (error f) = "GROWTH_BASIS_UNAVAILABLE"
        /\ message (error f)
           = "Not enough data to compute " ++ label ++ " (need " ++ decimal needed
             ++ " annual points, have " ++ decimal available ++ ")"
        /\ errorGrowthBasis (error f) = growthBasis knobs
        /\ pointsNeeded (error f) = needed
        /\ pointsAvailable (error f) = available)
  /\ (forall r,
        calculateRule1 Math_pow Number inputs knobs = Return (Some (Result r)) ->
        ~ cannotAttempt inputs /\ needed <= available).
Proof.
  intros label needed available.
  destruct (calculateRule1_cases Math_pow Number inputs knobs)
    as [[Hc H]|[(Hatt & Hlt & H)|(Hatt & Hge & lastEps & pe & st & e & _ & _ & _ & _ & H)]];
    rewrite H; (split; [|split]); try discriminate; trivial.
  - intros f [= <-]. cbn. repeat split; trivial.
  - intros r _. now split.
Qed.

(** X5. In every Result the factor applied for the margin of safety lies
    between 0 and 1, both included, whatever the knob; it is NaN only when
    [(100 - marginOfSafetyPercent) / 100] is NaN. *)
Theorem calculateRule1_mos_factor
  (Math_pow : float -> float -> float) (Number : string -> float)
  (inputs : Rule1Inputs) (knobs : Rule1Knobs) (r : Rule1Result) :
  calculateRule1 Math_pow Number inputs knobs = Return (Some (Result r)) ->
  let mosFactor :=
    Math_max 0 (Math_min 1 ((100 - marginOfSafetyPercent knobs) / 100)) in
  stickerPriceWithMOS r = (stickerPrice r * mosFactor)%float
  /\ ((is_nan mosFactor = true
       /\ is_nan ((100 - marginOfSafetyPercent knobs) / 100)%float = true)
      \/ ((0 <=? mosFactor)%float = true /\ (mosFactor <=? 1)%float = true)).
Proof.
  intros Hr mosFactor.
  destruct (calculateRule1_Result_inv Hr) as (lastEps & pe & st & e & _ & _ & ->).
  split; [reflexivity|]. apply clamp_unit_range.
Qed.

(** A margin of safety of 50 halves the sticker price. *)
Lemma calculateRule1_mos_factor_sample :
  List.length doubledInFiveYears = 6
  /\ forall Math_pow, exists r,
      calculateRule1 Math_pow digitsToNumber
        (inputsWith doubledInFiveYears (Some 20%float)) (knobsWith 0.12 50 eps_5y)
      = Return (Some (Result r))
      /\ stickerPriceWithMOS r = (stickerPrice r * 0.5)%float
      /\ (0 <=? 0.5)%float = true /\ (0.5 <=? 1)%float = true.
Proof.
  split; [reflexivity|]. intros Math_pow. eexists. split; [reflexivity|].
  destruct (calculateRule1_mos_factor
              (Math_pow := Math_pow) (Number := digitsToNumber)
              (inputs := inputsWith doubledInFiveYears (Some 20%float))
              (knobs := knobsWith 0.12 50 eps_5y) eq_refl)
    as (Hf & _).
  split; [exact Hf|]. split; reflexivity.
Defined.

End Rule1Facts.

(** ** Fact normalisation, price index and date lookups *)

Module RouteFacts.
Import F64 F64Facts JS JSFacts Json Route.
Local Open Scope string_scope.

(** ** The de-duplication loop *)

Lemma Map_get_set_same m k v : Map_get (Map_set m k v) k = Some v.
Proof.
  unfold Map_get. induction m as [|[k' v'] m IH]; cbn.
  - now rewrite String.eqb_refl.
  - destruct (String.eqb k k') eqn:E; cbn; rewrite E; trivial.
Qed.

Lemma Map_get_set_other m k k' v :
  k <> k' -> Map_get (Map_set m k v) k' = Map_get m k'.
Proof.
  unfold Map_get. intros N.
  assert (N' : String.eqb k' k = false) by (apply String.eqb_neq; congruence).
  induction m as [|[k0 v0] m IH]; cbn.
  - now rewrite N'.
  - destruct (String.eqb k k0) eqn:E; cbn.
    + apply String.eqb_eq in E. subst k0. now rewrite N'.
    + now rewrite IH.
Qed.

Lemma Map_get_None m k : Map_get m k = None <-> ~ In k (map fst m).
Proof.
  unfold Map_get. induction m as [|[k' v'] m IH]; cbn; [tauto|].
  destruct (String.eqb k k') eqn:E.
  - apply String.eqb_eq in E. subst. split; [discriminate | tauto].
  - apply String.eqb_neq in E. rewrite IH. split; [|tauto].
    intros H [H'|H']; [congruence | tauto].
Qed.

Lemma Map_get_In m k v :
  NoDup (map fst m) -> (In (k, v) m <-> Map_get m k = Some v).
Proof.
  unfold Map_get. induction m as [|[k' v'] m IH]; cbn; intros ND.
  - split; [tauto | discriminate].
  - inversion ND as [|? ? Hnot ND']; subst.
    destruct (String.eqb k k') eqn:E.
    + apply String.eqb_eq in E. subst k'. split.
      * intros [H|H]; [congruence|].
        exfalso. apply Hnot. now apply (in_map fst) in H.
      * intros H. left. congruence.
    + apply String.eqb_neq in E. rewrite <- (IH ND'). split; [|tauto].
      intros [H|H]; [congruence | trivial].
Qed.

Lemma Map_set_keys m k v :
  map fst (Map_set m k v) =
  match Map_get m k with
  | Some _ => map fst m
  | None => (map fst m ++ [k])%list
  end.
Proof.
  unfold Map_get. induction m as [|[k' v'] m IH]; cbn; trivial.
  destruct (String.eqb k k') eqn:E; cbn; trivial.
  rewrite IH. now destruct (assoc k m).
Qed.

Lemma Map_set_NoDup m k v : NoDup (map fst m) -> NoDup (map fst (Map_set m k v)).
Proof.
  intros ND. rewrite Map_set_keys. destruct (Map_get m k) eqn:E; trivial.
  apply Map_get_None in E.
  apply NoDup_app; trivial.
  - repeat constructor. intros [].
  - intros x Hx [<-|[]]. contradiction.
Qed.

Lemma keepLarger_invariant seen m p :
  (forall q, In q (p :: seen) -> is_finite (val q) = true) ->
  dedupeInvariant seen m -> dedupeInvariant (p :: seen) (keepLarger m p).
Proof.
  intros Hfin (ND & Hfrom & Hmax).
  assert (Habs : forall q, In q (p :: seen) -> notNaN (Math_abs (val q))).
  { intros q Hq. apply abs_notNaN, is_finite_notNaN, Hfin, Hq. }
  assert (Hset :
    (forall q, In q seen -> end_ q = end_ p ->
               (Math_abs (val q) <=? Math_abs (val p))%float = true) ->
    dedupeInvariant (p :: seen) (Map_set m (end_ p) (val p))).
  { intros Hdom. split; [now apply Map_set_NoDup|]. split.
    - intros k v Hk. destruct (string_dec (end_ p) k) as [<-|N].
      + rewrite Map_get_set_same in Hk. injection Hk as <-. left. now destruct p.
      + rewrite Map_get_set_other in Hk by trivial. right. eauto.
    - intros q [<-|Hq].
      + exists (val p). rewrite Map_get_set_same. split; trivial.
        apply leb_refl, Habs. now left.
      + destruct (string_dec (end_ p) (end_ q)) as [E|N].
        * exists (val p). rewrite <- E, Map_get_set_same. split; trivial.
          now apply Hdom.
        * destruct (Hmax q Hq) as (v & Hv & Hle).
          exists v. now rewrite Map_get_set_other. }
  unfold keepLarger. destruct (Map_get m (end_ p)) as [prev|] eqn:G.
  - destruct (Math_abs prev <? Math_abs (val p))%float eqn:L.
    + apply Hset. intros q Hq E. destruct (Hmax q Hq) as (v & Hv & Hle).
      rewrite E, G in Hv. injection Hv as <-.
      apply ltb_leb, (leb_ltb_trans Hle L).
    + split; trivial. split.
      * intros k v Hk. right. eauto.
      * intros q [<-|Hq]; [|auto].
        exists prev. split; trivial.
        apply nltb_leb; trivial.
        -- apply (Habs {| end_ := end_ p; val := prev |}). right. auto.
        -- apply Habs. now left.
  - apply Hset. intros q Hq E. destruct (Hmax q Hq) as (v & Hv & _).
    rewrite E, G in Hv. discriminate Hv.
Qed.

Lemma dedupe_fold_invariant points seen m :
  (forall q, In q (points ++ seen)%list -> is_finite (val q) = true) ->
  dedupeInvariant seen m ->
  dedupeInvariant (rev points ++ seen)%list (fold_left keepLarger points m).
Proof.
  revert seen m. induction points as [|p points IH]; intros seen m Hfin Hinv;
    cbn [fold_left rev app]; trivial.
  rewrite <- app_assoc. cbn [app]. apply IH.
  - intros q Hq. apply Hfin. apply in_app_or in Hq. cbn.
    destruct Hq as [Hq|[<-|Hq]]; auto using in_or_app.
  - apply keepLarger_invariant; trivial.
    intros q Hq. apply Hfin. cbn. destruct Hq as [<-|Hq]; auto.
    right. apply in_or_app. auto.
Qed.

Lemma dedupeByEnd_invariant points :
  (forall q, In q points -> is_finite (val q) = true) ->
  dedupeInvariant points (dedupeByEnd points).
Proof.
  intros Hfin.
  pose proof (@dedupe_fold_invariant points [] []) as H.
  rewrite app_nil_r in H.
  destruct H as (ND & Hfrom & Hmax).
  - exact Hfin.
  - split; [constructor|]. split; [discriminate | intros ? []].
  - split; trivial. split.
    + intros k v Hk. rewrite app_nil_r in Hfrom. apply in_rev. eauto.
    + intros p Hp. apply Hmax. rewrite app_nil_r. now apply in_rev in Hp.
Qed.

Lemma collect_In (A B : Type) (f : A -> option B) (l : list A) (y : B) :
  In y (collect f l) <-> exists x, In x l /\ f x = Some y.
Proof.
  unfold collect. rewrite in_flat_map. split; intros (x & Hx & H); exists x.
  - split; trivial. destruct (f x); [destruct H as [<-|[]]; trivial | destruct H].
  - split; trivial. rewrite H. now left.
Qed.

Lemma collect_flat_map (A B C : Type) (f : B -> option C) (g : A -> list B)
  (l : list A) :
  flat_map (fun a => collect f (g a)) l = collect f (flat_map g l).
Proof.
  unfold collect. induction l as [|a l IH]; cbn; trivial.
  now rewrite IH, flat_map_app.
Qed.

Lemma annualPoint_finite x p : annualPoint x = Some p -> is_finite (val p) = true.
Proof.
  unfold annualPoint, Number_isFinite.
  destruct (negb (truthy x)); [discriminate|].
  destruct (negb (isStr (get x "form") "10-K")); [discriminate|].
  destruct (negb (isStr (get x "fp") "FY")); [discriminate|].
  destruct (get x "end") as [[]|]; try discriminate.
  destruct (get x "val") as [[]|]; try discriminate.
  destruct (is_finite x0) eqn:F; [|discriminate]. cbn [negb].
  destruct (get x "frame") as [[]|];
    try (intros H; injection H as <-; exact F).
  destruct (matchesQuarter s0); [discriminate|].
  intros H; injection H as <-; exact F.
Qed.

Lemma entries_In m q : In q (entries m) <-> In (end_ q, val q) m.
Proof.
  unfold entries. rewrite in_map_iff. split.
  - intros ([k v] & <- & H). exact H.
  - intros H. exists (end_ q, val q). split; trivial. now destruct q.
Qed.

Lemma entries_ends m : map end_ (entries m) = map fst m.
Proof. unfold entries. rewrite map_map. reflexivity. Qed.

Section AnnualSeries.

Variable localeCompare : string -> string -> comparison.

Lemma annualOf_perm raw : Permutation (annualOf localeCompare raw) (entries (dedupeByEnd raw)).
Proof. apply sort_perm. Qed.

Lemma annualOf_NoDup raw :
  (forall p, In p raw -> is_finite (val p) = true) ->
  NoDup (map end_ (annualOf localeCompare raw)).
Proof.
  intros Hfin. destruct (dedupeByEnd_invariant Hfin) as (ND & _ & _).
  apply (Permutation_NoDup (l := map end_ (entries (dedupeByEnd raw)))).
  - symmetry. apply Permutation_map, annualOf_perm.
  - now rewrite entries_ends.
Qed.

Lemma annualOf_In raw q :
  (forall p, In p raw -> is_finite (val p) = true) ->
  In q (annualOf localeCompare raw) <-> Map_get (dedupeByEnd raw) (end_ q) = Some (val q).
Proof.
  intros Hfin. destruct (dedupeByEnd_invariant Hfin) as (ND & _ & _).
  unfold annualOf. rewrite sort_In, entries_In.
  now apply Map_get_In.
Qed.

Lemma annualOf_from_raw raw q :
  (forall p, In p raw -> is_finite (val p) = true) ->
  In q (annualOf localeCompare raw) -> In q raw.
Proof.
  intros Hfin Hq. destruct (dedupeByEnd_invariant Hfin) as (_ & Hfrom & _).
  apply (annualOf_In q Hfin) in Hq. apply Hfrom in Hq. now destruct q.
Qed.

Lemma annualOf_covers raw p :
  (forall p, In p raw -> is_finite (val p) = true) ->
  In p raw ->
  exists q, In q (annualOf localeCompare raw) /\ end_ q = end_ p
            /\ (Math_abs (val p) <=? Math_abs (val q))%float = true.
Proof.
  intros Hfin Hp. destruct (dedupeByEnd_invariant Hfin) as (_ & _ & Hmax).
  destruct (Hmax p Hp) as (v & Hv & Hle).
  exists {| end_ := end_ p; val := v |}. split; [|split; trivial].
  now apply annualOf_In.
Qed.

Lemma annualOf_finite raw q :
  (forall p, In p raw -> is_finite (val p) = true) ->
  In q (annualOf localeCompare raw) -> is_finite (val q) = true.
Proof. intros Hfin Hq. apply Hfin, (annualOf_from_raw Hfin Hq). Qed.

Lemma annualOf_nil raw :
  (forall p, In p raw -> is_finite (val p) = true) ->
  annualOf localeCompare raw = [] <-> raw = [].
Proof.
  intros Hfin. split; [|intros ->; reflexivity].
  intros E. destruct raw as [|p raw]; trivial.
  destruct (@annualOf_covers (p :: raw) p Hfin) as (q & Hq & _); [now left|].
  rewrite E in Hq. destruct Hq.
Qed.

Lemma qualifying_finite (arr : list value) p :
  In p (collect annualPoint arr) -> is_finite (val p) = true.
Proof.
  intros H. apply collect_In in H. destruct H as (x & _ & H).
  exact (annualPoint_finite H).
Qed.

End AnnualSeries.

(** ** De-duplication keeps the larger magnitude *)

Lemma NoDup_map_unique (A B : Type) (f : A -> B) (l : list A) (a b : A) :
  NoDup (map f l) -> In a l -> In b l -> f a = f b -> a = b.
Proof.
  induction l as [|x l IH]; cbn; [tauto|].
  intros ND Ha Hb E. inversion ND as [|? ? Hnot ND']; subst.
  destruct Ha as [<-|Ha], Hb as [<-|Hb]; trivial.
  - exfalso. apply Hnot. rewrite E. now apply in_map.
  - exfalso. apply Hnot. rewrite <- E. now apply in_map.
  - now apply IH.
Qed.

Lemma annualOf_keepsLargerMagnitude localeCompare raw :
  (forall p, In p raw -> is_finite (val p) = true) ->
  keepsLargerMagnitude raw (annualOf localeCompare raw).
Proof.
  intros Hfin p1 p2 H1 H2 E.
  destruct (annualOf_covers localeCompare Hfin H1) as (q & Hq & Eq1 & L1).
  destruct (annualOf_covers localeCompare Hfin H2) as (q2 & Hq2 & Eq2 & L2).
  pose proof (annualOf_NoDup localeCompare Hfin) as ND.
  assert (q2 = q) as -> by (apply (NoDup_map_unique ND); congruence).
  exists q. repeat split; trivial.
  - exact (annualOf_from_raw Hfin Hq).
  - intros q' Hq' E'. apply (NoDup_map_unique ND); congruence.
  - intros L Hin.
    assert (p1 = q) as -> by (apply (NoDup_map_unique ND); congruence).
    pose proof (leb_ltb_trans L2 L) as C. now rewrite ltb_irrefl in C.
Qed.

(** [pickAnnualSeriesByUnit] returns the series of the first tag whose turn
    yields a point, or nothing. *)
Lemma pickAnnualSeriesByUnit_split localeCompare facts tagCandidates unitPredicate :
  (pickAnnualSeriesByUnit localeCompare facts tagCandidates unitPredicate = []
   /\ forall t, In t tagCandidates ->
                tagAnnual localeCompare facts t unitPredicate = [])
  \/ (exists pre tag post,
        tagCandidates = (pre ++ tag :: post)%list
        /\ (forall t, In t pre -> tagAnnual localeCompare facts t unitPredicate = [])
        /\ tagAnnual localeCompare facts tag unitPredicate <> []
        /\ pickAnnualSeriesByUnit localeCompare facts tagCandidates unitPredicate
           = tagAnnual localeCompare facts tag unitPredicate).
Proof.
  induction tagCandidates as [|tag rest IH]; cbn [pickAnnualSeriesByUnit].
  - left. split; trivial. intros t [].
  - destruct (tagAnnual localeCompare facts tag unitPredicate) as [|q s] eqn:E.
    + destruct IH as [[H1 H2]|(pre & t & post & -> & Hpre & Hne & Hpick)].
      * left. split; trivial. intros t [<-|Ht]; auto.
      * right. exists (tag :: pre), t, post. repeat split; trivial.
        intros t' [<-|Ht']; auto.
    + right. exists [], tag, rest. rewrite E. repeat split; trivial.
      * intros t [].
      * discriminate.
Qed.

(** C6. Among the qualifying facts that one turn of
    [pickAnnualSeriesByUnit] or [mergeAnnualUSDSeries] normalises, two
    facts on the same period end leave exactly one point for that end, a
    fact of the largest magnitude; the fact of smaller magnitude is
    dropped. In particular the facts (2020-12-31, 100) and
    (2020-12-31, -150) under one tag and unit give exactly the point
    (2020-12-31, -150). *)
Theorem normalization_keeps_larger_magnitude
  (localeCompare : string -> string -> comparison) :
  (forall facts tag unitPredicate,
      keepsLargerMagnitude
        (collect annualPoint (unitFacts facts tag unitPredicate))
        (tagAnnual localeCompare facts tag unitPredicate))
  /\ (forall facts tagCandidates,
        keepsLargerMagnitude
          (collect annualPoint (flat_map (usdFacts facts) tagCandidates))
          (mergeAnnualUSDSeries localeCompare facts tagCandidates))
  /\ (forall facts tagCandidates unitPredicate,
        pickAnnualSeriesByUnit localeCompare facts tagCandidates unitPredicate = []
        \/ exists tag,
             In tag tagCandidates
             /\ keepsLargerMagnitude
                  (collect annualPoint (unitFacts facts tag unitPredicate))
                  (pickAnnualSeriesByUnit localeCompare facts tagCandidates
                                          unitPredicate))
  /\ pickAnnualUSDSeries localeCompare restatedRevenue ["Revenues"]
     = [ {| end_ := "2020-12-31"; val := (-150)%float |} ]
  /\ mergeAnnualUSDSeries localeCompare restatedRevenue ["Revenues"]
     = [ {| end_ := "2020-12-31"; val := (-150)%float |} ].
Proof.
  assert (Hturn : forall facts tag unitPredicate,
      keepsLargerMagnitude
        (collect annualPoint (unitFacts facts tag unitPredicate))
        (tagAnnual localeCompare facts tag unitPredicate)).
  { intros facts tag unitPredicate.
    apply annualOf_keepsLargerMagnitude. apply qualifying_finite. }
  split; [exact Hturn|]. split; [|split; [|split; reflexivity]].
  - intros facts tagCandidates. unfold mergeAnnualUSDSeries.
    rewrite collect_flat_map.
    apply annualOf_keepsLargerMagnitude. apply qualifying_finite.
  - intros facts tagCandidates unitPredicate.
    destruct (pickAnnualSeriesByUnit_split localeCompare facts tagCandidates
                                           unitPredicate)
      as [[H _]|(pre & tag & post & -> & _ & _ & ->)]; [now left | right].
    exists tag. split; [apply in_or_app; right; now left | apply Hturn].
Qed.

(** ** The annual series invariant *)

Section Collated.

Variable localeCompare : string -> string -> comparison.

(** The collation is a strict total order on the period ends of the
    filings, the strings that satisfy [isPeriodEnd]. *)
Variable isPeriodEnd : string -> Prop.
Hypothesis localeCompare_antisym :
  forall a b, isPeriodEnd a -> isPeriodEnd b ->
              localeCompare b a = CompOpp (localeCompare a b).
Hypothesis localeCompare_eq :
  forall a b, isPeriodEnd a -> isPeriodEnd b -> localeCompare a b = Eq -> a = b.
Hypothesis localeCompare_trans :
  forall a b c, isPeriodEnd a -> isPeriodEnd b -> isPeriodEnd c ->
                localeCompare a b = Lt -> localeCompare b c = Lt ->
                localeCompare a c = Lt.

Lemma ordered_increasing series :
  Forall (fun p => isPeriodEnd (end_ p)) series ->
  ordered (compareByEnd localeCompare) series -> NoDup (map end_ series) ->
  increasing localeCompare series.
Proof.
  unfold increasing.
  induction series as [|p series IH]; intros HD Hord ND; [constructor|].
  inversion ND as [|? ? Hnot ND']; subst.
  inversion HD as [|? ? Dp HD']; subst.
  specialize (IH HD' (ordered_tail Hord) ND').
  constructor; trivial.
  destruct series as [|q series]; [constructor|].
  inversion HD' as [|? ? Dq HD'']; subst.
  destruct Hord as [Hpq _]. unfold compareByEnd in Hpq.
  assert (Lpq : localeCompare (end_ p) (end_ q) = Lt).
  { destruct (localeCompare (end_ p) (end_ q)) eqn:E; trivial; [|congruence].
    exfalso. apply Hnot. left. symmetry. now apply localeCompare_eq. }
  inversion IH as [|? ? _ Hq]; subst.
  constructor; trivial.
  apply Forall_forall. intros r Hr.
  rewrite Forall_forall in Hq, HD''.
  exact (localeCompare_trans Dp Dq (HD'' r Hr) Lpq (Hq r Hr)).
Qed.

Lemma annualOf_invariant raw :
  (forall p, In p raw -> is_finite (val p) = true) ->
  NoDup (map end_ (annualOf localeCompare raw))
  /\ Forall (fun p => is_finite (val p) = true) (annualOf localeCompare raw)
  /\ (Forall (fun p => isPeriodEnd (end_ p)) (annualOf localeCompare raw) ->
      increasing localeCompare (annualOf localeCompare raw)).
Proof.
  intros Hfin. split; [|split].
  - now apply annualOf_NoDup.
  - apply Forall_forall. intros q Hq. exact (annualOf_finite Hfin Hq).
  - intros HD. apply ordered_increasing; trivial.
    + apply (sort_ordered (P := fun p => isPeriodEnd (end_ p))).
      * intros a b. apply localeCompare_antisym.
      * eapply Permutation_Forall; [apply annualOf_perm | exact HD].
    + now apply annualOf_NoDup.
Qed.

(** C7 (as amended). Whatever the facts document and the tag candidates,
    the annual series of the first-match normalisation and that of the
    merge-across-tags normalisation have no two points on one period end
    and hold finite values only. They are strictly increasing by period
    end when the collation is a strict total order on the period ends of
    the series: antisymmetric, transitive, and equal on identical strings
    only. *)
Theorem annual_series_invariant
  (facts : value) (tagCandidates : list string) (unitPredicate : string -> bool) :
  let first := pickAnnualSeriesByUnit localeCompare facts tagCandidates
                                      unitPredicate in
  let merged := mergeAnnualUSDSeries localeCompare facts tagCandidates in
  (NoDup (map end_ first)
   /\ Forall (fun p => is_finite (val p) = true) first
   /\ (Forall (fun p => isPeriodEnd (end_ p)) first ->
       increasing localeCompare first))
  /\
  (NoDup (map end_ merged)
   /\ Forall (fun p => is_finite (val p) = true) merged
   /\ (Forall (fun p => isPeriodEnd (end_ p)) merged ->
       increasing localeCompare merged)).
Proof.
  intros first merged. split.
  - subst first.
    destruct (pickAnnualSeriesByUnit_split localeCompare facts tagCandidates
                                           unitPredicate)
      as [[-> _]|(pre & tag & post & _ & _ & _ & ->)].
    + repeat constructor.
    + apply annualOf_invariant, qualifying_finite.
  - subst merged. unfold mergeAnnualUSDSeries. rewrite collect_flat_map.
    apply annualOf_invariant, qualifying_finite.
Qed.

End Collated.

(** Under code-unit collation the scattered filings normalise to the three
    fiscal years in order, 2019 with its larger figure. *)
Lemma annual_series_invariant_scattered :
  pickAnnualUSDSeries String.compare scatteredRevenue ["Revenues"; "SalesRevenueNet"]
  = [ {| end_ := "2018-12-31"; val := 100 |};
      {| end_ := "2019-12-31"; val := 200 |};
      {| end_ := "2020-12-31"; val := 300 |} ]
  /\ increasing String.compare
       (pickAnnualUSDSeries String.compare scatteredRevenue
                            ["Revenues"; "SalesRevenueNet"])
  /\ mergeAnnualUSDSeries String.compare scatteredRevenue
                          ["Revenues"; "SalesRevenueNet"]
     = [ {| end_ := "2017-12-31"; val := 90 |};
         {| end_ := "2018-12-31"; val := 100 |};
         {| end_ := "2019-12-31"; val := 200 |};
         {| end_ := "2020-12-31"; val := 300 |} ]
  /\ increasing String.compare
       (mergeAnnualUSDSeries String.compare scatteredRevenue
                             ["Revenues"; "SalesRevenueNet"]).
Proof.
  pose proof (@annual_series_invariant String.compare isISODate
                (fun a b _ _ => String.compare_antisym b a)
                (fun a b _ _ => String.compare_eq_iff a b)
                (fun a b c _ _ _ => @string_compare_trans a b c)
                scatteredRevenue ["Revenues"; "SalesRevenueNet"]
                (fun u => String.eqb u "USD"))
    as ((_ & _ & Hfirst) & (_ & _ & Hmerged)).
  split; [reflexivity|]. split; [|split; [reflexivity|]].
  - apply Hfirst. repeat constructor.
  - apply Hmerged. repeat constructor.
Defined.

(** A period end may be any string. Under a collation that ignores soft
    hyphens (it is antisymmetric and transitive, but equates two different
    strings) both normalisations keep the two facts, whose period ends are
    different strings, in the order they were met: the series has one point
    per period end and finite values, and is strictly increasing neither in
    that collation nor in the order of code units. *)
Lemma annual_series_not_increasing :
  (forall a b, compareIgnoringSoftHyphens b a
               = CompOpp (compareIgnoringSoftHyphens a b))
  /\ (forall a b c, compareIgnoringSoftHyphens a b = Lt ->
                    compareIgnoringSoftHyphens b c = Lt ->
                    compareIgnoringSoftHyphens a c = Lt)
  /\ pickAnnualUSDSeries compareIgnoringSoftHyphens softHyphenRevenue ["Revenues"]
     = softHyphenSeries
  /\ mergeAnnualUSDSeries compareIgnoringSoftHyphens softHyphenRevenue ["Revenues"]
     = softHyphenSeries
  /\ NoDup (map end_ softHyphenSeries)
  /\ Forall (fun p => is_finite (val p) = true) softHyphenSeries
  /\ ~ increasing compareIgnoringSoftHyphens softHyphenSeries
  /\ ~ increasing String.compare softHyphenSeries.
Proof.
  split; [intros a b; apply String.compare_antisym|].
  split; [intros a b c; apply string_compare_trans|].
  split; [reflexivity|]. split; [reflexivity|].
  split.
  { constructor; [cbn; intros [H|[]]; discriminate H|].
    constructor; [intros [] | constructor]. }
  split; [repeat constructor|].
  split; intros H; inversion H as [|? ? _ Hall]; subst;
    inversion Hall as [|? ? Hlt _]; subst; vm_compute in Hlt; discriminate Hlt.
Qed.

(** ** First match wins *)

Lemma assoc_None (A : Type) (k : string) (props : list (string * A)) :
  (forall k', In k' (map fst props) -> String.eqb k k' = false) ->
  assoc k props = None.
Proof.
  induction props as [|[k0 v0] props IH]; cbn; trivial.
  intros H. rewrite (H k0) by now left. apply IH. intros k' Hk'. apply H. now right.
Qed.

Lemma combine_keys (A : Type) (ks : list string) (vs : list A) k :
  In k (map fst (combine ks vs)) -> In k ks.
Proof.
  revert vs. induction ks as [|k0 ks IH]; intros [|v vs]; cbn; try tauto.
  intros [<-|H]; eauto.
Qed.

Lemma indexKey_first_digit i c s :
  NilEmpty.string_of_uint (Nat.to_uint i) = String c s -> isDigit c = true.
Proof. destruct (Nat.to_uint i); cbn; intros [= <- _]; reflexivity. Qed.

Lemma get_Arr_name xs k c s :
  k = String c s -> isDigit c = false -> get (Arr xs) k = None.
Proof.
  intros -> Hc. cbn [get]. apply assoc_None. intros k' Hk'.
  apply combine_keys in Hk'. unfold indexKeys in Hk'.
  apply in_map_iff in Hk'. destruct Hk' as (i & <- & _).
  destruct (String.eqb (String c s) (NilEmpty.string_of_uint (Nat.to_uint i))) eqn:E;
    trivial.
  apply String.eqb_eq in E. symmetry in E.
  apply indexKey_first_digit in E. congruence.
Qed.

Lemma matchesQuarter_quarterFrame f : matchesQuarter f = true <-> quarterFrame f.
Proof.
  split.
  - induction f as [|c f IH]; cbn [matchesQuarter]; [discriminate|].
    intros H. apply orb_true_iff in H. destruct H as [H|H].
    + apply andb_true_iff in H. destruct H as [Hc Hd].
      apply Ascii.eqb_eq in Hc. subst c.
      destruct f as [|d f]; [discriminate|].
      exists "", d, f. split; [reflexivity|].
      repeat (apply orb_true_iff in Hd; destruct Hd as [Hd|Hd]);
        apply Ascii.eqb_eq in Hd; tauto.
    + destruct (IH H) as (pre & d & post & -> & Hd).
      exists (String c pre), d, post. split; [reflexivity | exact Hd].
  - intros (pre & d & post & -> & Hd).
    induction pre as [|c pre IH]; cbn [append matchesQuarter].
    + apply orb_true_iff. left. rewrite Ascii.eqb_refl. cbn [andb].
      destruct Hd as [-> | [-> | [-> | ->]]]; reflexivity.
    + apply orb_true_iff. right. exact IH.
Qed.

Lemma annualPoint_qualifying x p : annualPoint x = Some p <-> qualifyingFact x p.
Proof.
  split.
  - unfold annualPoint. destruct x as [| b | n | s | xs | props].
    1-4: cbn; try discriminate;
      repeat match goal with |- context [if ?c then _ else _] => destruct c end;
      discriminate.
    + rewrite (@get_Arr_name xs "form" "f" "orm" eq_refl eq_refl).
      cbn. discriminate.
    + cbn [truthy negb get].
      destruct (assoc "form" props) as [[]|] eqn:Eform; cbn [isStr]; try discriminate.
      destruct (String.eqb s "10-K") eqn:E1; [|discriminate].
      apply String.eqb_eq in E1. subst s. cbn [negb].
      destruct (assoc "fp" props) as [[]|] eqn:Efp; cbn [isStr]; try discriminate.
      destruct (String.eqb s "FY") eqn:E2; [|discriminate].
      apply String.eqb_eq in E2. subst s. cbn [negb].
      destruct (assoc "end" props) as [[]|] eqn:Eend; try discriminate.
      destruct (assoc "val" props) as [[]|] eqn:Eval; try discriminate.
      unfold Number_isFinite. destruct (is_finite x) eqn:F; [|discriminate].
      cbn [negb].
      assert (Q : (forall f, assoc "frame" props = Some (Str f) -> ~ quarterFrame f) ->
                  qualifyingFact (Obj props) {| end_ := s; val := x |}).
      { intros Hq. exists props. repeat split; trivial. }
      destruct (assoc "frame" props) as [[]|] eqn:Eframe;
        try (intros [= <-]; apply Q; intros f; discriminate).
      destruct (matchesQuarter s0) eqn:M; [discriminate|].
      intros [= <-]. apply Q. intros f [= <-] Hf.
      apply matchesQuarter_quarterFrame in Hf. congruence.
  - intros (props & -> & Eform & Efp & Eend & Eval & F & Hframe).
    unfold annualPoint. cbn [truthy negb get].
    rewrite Eform, Efp, Eend, Eval. cbn [isStr String.eqb negb].
    unfold Number_isFinite. rewrite F. cbn [negb].
    destruct p as [e v]. cbn [end_ val] in *.
    destruct (assoc "frame" props) as [[]|] eqn:Eframe; trivial.
    destruct (matchesQuarter s) eqn:M; trivial.
    exfalso. apply (Hframe s eq_refl). now apply matchesQuarter_quarterFrame.
Qed.

Lemma read_present v k : truthy v = true -> read (Some v) k = Return (get v k).
Proof. destruct v; cbn; trivial; discriminate. Qed.

Lemma readOptional_oget o k : readOptional o k = Return (oget o k).
Proof. destruct o as [[]|]; reflexivity. Qed.

Lemma annualPoint_run_returns x : annualPoint_run x = Return (annualPoint x).
Proof.
  unfold annualPoint_run, annualPoint.
  destruct (truthy x) eqn:T; cbn [negb]; [|reflexivity].
  rewrite !(read_present _ T). cbn [bind].
  destruct (negb (isStr (get x "form") "10-K")); [reflexivity|].
  destruct (negb (isStr (get x "fp") "FY")); [reflexivity|].
  destruct (get x "end") as [[]|]; try reflexivity.
  destruct (get x "val") as [[]|]; try reflexivity.
  destruct (negb (Number_isFinite x0)); [reflexivity|].
  destruct (get x "frame") as [[]|]; try reflexivity.
  destruct (matchesQuarter s0); reflexivity.
Qed.

Lemma collect_run_returns (A B : Type) (f : A -> completion (option B))
  (g : A -> option B) (l : list A) :
  (forall x, f x = Return (g x)) -> collect_run f l = Return (collect g l).
Proof.
  intros H. induction l as [|x l IH]; [reflexivity|].
  cbn [collect_run]. rewrite H, IH. cbn [bind].
  unfold collect. cbn [flat_map]. now destruct (g x).
Qed.

Lemma tagAnnual_run_returns localeCompare facts tag unitPredicate :
  tagAnnual_run localeCompare facts tag unitPredicate
  = Return (tagAnnual localeCompare facts tag unitPredicate).
Proof.
  unfold tagAnnual_run, tagAnnual, unitFacts, unitsOf.
  repeat (rewrite readOptional_oget; cbn [bind]).
  destruct (oget (oget (oget (oget (Some facts) "facts") "us-gaap") tag) "units")
    as [n|]; [|reflexivity].
  destruct n as [| b | x | s | xs | props]; cbn [isObjectLike negb]; try reflexivity.
  - cbn [Object_keys bind keys].
    destruct (find unitPredicate (indexKeys (List.length xs))) as [u|];
      [|reflexivity].
    destruct (truthyStr u); cbn [negb]; [|reflexivity].
    cbn [read bind].
    destruct (get (Arr xs) u) as [[]|]; cbn [isArray negb]; try reflexivity.
    cbn [filterMap_run]. rewrite (collect_run_returns xs0 annualPoint_run_returns).
    reflexivity.
  - cbn [Object_keys bind keys].
    destruct (find unitPredicate (map fst props)) as [u|]; [|reflexivity].
    destruct (truthyStr u); cbn [negb]; [|reflexivity].
    cbn [read bind].
    destruct (get (Obj props) u) as [[]|]; cbn [isArray negb]; try reflexivity.
    cbn [filterMap_run]. rewrite (collect_run_returns xs annualPoint_run_returns).
    reflexivity.
Qed.

Lemma pickAnnualSeriesByUnit_run_returns localeCompare facts tagCandidates
  unitPredicate :
  pickAnnualSeriesByUnit_run localeCompare facts tagCandidates unitPredicate
  = Return (pickAnnualSeriesByUnit localeCompare facts tagCandidates unitPredicate).
Proof.
  induction tagCandidates as [|tag rest IH]; [reflexivity|].
  cbn [pickAnnualSeriesByUnit_run pickAnnualSeriesByUnit].
  rewrite tagAnnual_run_returns. cbn [bind].
  now destruct (tagAnnual localeCompare facts tag unitPredicate).
Qed.

Lemma tagAnnual_qualifying localeCompare facts tag unitPredicate :
  tagAnnual localeCompare facts tag unitPredicate <> [] <->
  exists x p, In x (unitFacts facts tag unitPredicate) /\ qualifyingFact x p.
Proof.
  unfold tagAnnual.
  pose proof (annualOf_nil localeCompare
                (@qualifying_finite (unitFacts facts tag unitPredicate))) as Hnil.
  split.
  - intros Hne.
    destruct (collect annualPoint (unitFacts facts tag unitPredicate))
      as [|p raw] eqn:E; [exfalso; apply Hne; now apply Hnil|].
    assert (Hp : In p (collect annualPoint (unitFacts facts tag unitPredicate)))
      by (rewrite E; now left).
    apply collect_In in Hp. destruct Hp as (x & Hx & Hp).
    exists x, p. split; trivial. now apply annualPoint_qualifying.
  - intros (x & p & Hx & Hq) E. apply Hnil in E.
    assert (Hp : In p (collect annualPoint (unitFacts facts tag unitPredicate))).
    { apply collect_In. exists x. split; trivial. now apply annualPoint_qualifying. }
    rewrite E in Hp. destruct Hp.
Qed.

Lemma tagAnnual_empty localeCompare facts tag unitPredicate :
  tagAnnual localeCompare facts tag unitPredicate = [] <->
  ~ exists x p, In x (unitFacts facts tag unitPredicate) /\ qualifyingFact x p.
Proof.
  rewrite <- (tagAnnual_qualifying localeCompare).
  destruct (tagAnnual localeCompare facts tag unitPredicate) as [|q s].
  - split; [intros _ H; now apply H | reflexivity].
  - split; [discriminate | intros H; exfalso; apply H; discriminate].
Qed.

(** C8. [pickAnnualSeriesByUnit] never throws: run with every property
    read, the call of [Object.keys] and the call of [filter] as steps that
    can throw, it returns, and returns the series of the model used
    throughout. It consults the tag candidates in list order. When no
    candidate before [tag] has a qualifying annual fact among the facts of
    its unit and [tag] has one, the result is not empty, is the result for
    [tag] alone whatever candidates follow, holds only points of
    qualifying facts of [tag], and has a point on the period end of every
    such fact. The result is the empty series exactly when no candidate has
    a qualifying fact, and every candidate list is in one of the two
    cases. A qualifying fact is an object filed on form 10-K for the
    fiscal period FY, with a string for its period end, a finite number
    for its value and no quarterly frame; the facts of a tag are the array
    under the first unit key that satisfies the predicate. *)
Theorem pickAnnualSeriesByUnit_first_match
  (localeCompare : string -> string -> comparison)
  (facts : value) (unitPredicate : string -> bool) :
  let qualifies tag :=
    exists x p, In x (unitFacts facts tag unitPredicate) /\ qualifyingFact x p in
  (forall tagCandidates,
      pickAnnualSeriesByUnit_run localeCompare facts tagCandidates unitPredicate
      = Return (pickAnnualSeriesByUnit localeCompare facts tagCandidates
                                       unitPredicate))
  /\ (forall pre tag post,
        (forall t, In t pre -> ~ qualifies t) -> qualifies tag ->
        let series := pickAnnualSeriesByUnit localeCompare facts
                        (pre ++ tag :: post)%list unitPredicate in
        series <> []
        /\ series = pickAnnualSeriesByUnit localeCompare facts [tag] unitPredicate
        /\ (forall q, In q series ->
              exists x, In x (unitFacts facts tag unitPredicate)
                        /\ qualifyingFact x q)
        /\ (forall x p, In x (unitFacts facts tag unitPredicate) ->
              qualifyingFact x p ->
              exists q, In q series /\ end_ q = end_ p))
  /\ (forall tagCandidates,
        pickAnnualSeriesByUnit localeCompare facts tagCandidates unitPredicate = []
        <-> forall t, In t tagCandidates -> ~ qualifies t)
  /\ (forall tagCandidates,
        (forall t, In t tagCandidates -> ~ qualifies t)
        \/ exists pre tag post,
             tagCandidates = (pre ++ tag :: post)%list
             /\ (forall t, In t pre -> ~ qualifies t) /\ qualifies tag)
  /\ (forall tag units u arr,
        unitsOf facts tag = Some (Obj units) ->
        find unitPredicate (map fst units) = Some u -> u <> "" ->
        assoc u units = Some (Arr arr) ->
        unitFacts facts tag unitPredicate = arr).
Proof.
  intros qualifies.
  assert (Hfirst : forall pre tag post,
             (forall t, In t pre -> ~ qualifies t) -> qualifies tag ->
             pickAnnualSeriesByUnit localeCompare facts (pre ++ tag :: post)%list
                                    unitPredicate
             = tagAnnual localeCompare facts tag unitPredicate).
  { intros pre tag post Hpre Htag.
    induction pre as [|t pre IH]; cbn [app pickAnnualSeriesByUnit].
    - apply (proj2 (tagAnnual_qualifying localeCompare facts tag unitPredicate))
        in Htag.
      destruct (tagAnnual localeCompare facts tag unitPredicate); congruence.
    - rewrite (proj2 (tagAnnual_empty localeCompare facts t unitPredicate))
        by (apply Hpre; now left).
      apply IH. intros; apply Hpre; now right. }
  split; [intros; apply pickAnnualSeriesByUnit_run_returns|].
  split; [|split; [|split]].
  - intros pre tag post Hpre Htag series. subst series.
    rewrite (Hfirst pre tag post Hpre Htag).
    split; [exact (proj2 (tagAnnual_qualifying localeCompare facts tag
                                               unitPredicate) Htag)|].
    split; [|split].
    + symmetry. apply (Hfirst [] tag []); [intros t [] | exact Htag].
    + intros q Hq. unfold tagAnnual in Hq.
      apply (annualOf_from_raw (@qualifying_finite _)) in Hq.
      apply collect_In in Hq. destruct Hq as (x & Hx & Hq).
      exists x. split; trivial. now apply annualPoint_qualifying.
    + intros x p Hx Hq. unfold tagAnnual.
      destruct (@annualOf_covers localeCompare
                  (collect annualPoint (unitFacts facts tag unitPredicate)) p
                  (@qualifying_finite _)) as (q & Hq' & He & _).
      * apply collect_In. exists x. split; trivial. now apply annualPoint_qualifying.
      * now exists q.
  - intros tagCandidates.
    destruct (pickAnnualSeriesByUnit_split localeCompare facts tagCandidates
                                           unitPredicate)
      as [[E Hall]|(pre & tag & post & -> & Hpre & Hne & E)].
    + split; trivial. intros _ t Ht.
      exact (proj1 (tagAnnual_empty localeCompare facts t unitPredicate) (Hall t Ht)).
    + split.
      * intros E'. rewrite E' in E. symmetry in E. contradiction.
      * intros Hall. exfalso.
        apply (Hall tag); [apply in_or_app; right; now left|].
        exact (proj1 (tagAnnual_qualifying localeCompare facts tag unitPredicate) Hne).
  - intros tagCandidates.
    destruct (pickAnnualSeriesByUnit_split localeCompare facts tagCandidates
                                           unitPredicate)
      as [[E Hall]|(pre & tag & post & -> & Hpre & Hne & E)].
    + left. intros t Ht.
      exact (proj1 (tagAnnual_empty localeCompare facts t unitPredicate) (Hall t Ht)).
    + right. exists pre, tag, post. split; [reflexivity|]. split.
      * intros t Ht.
        exact (proj1 (tagAnnual_empty localeCompare facts t unitPredicate)
                     (Hpre t Ht)).
      * exact (proj1 (tagAnnual_qualifying localeCompare facts tag unitPredicate) Hne).
  - intros tag units u arr Hunits Hfind Hu Harr.
    unfold unitFacts. rewrite Hunits. cbn [isObjectLike negb keys get].
    rewrite Hfind, Harr.
    destruct u; [congruence | reflexivity].
Qed.

(** The first candidate is absent; every entry of the second fails the
    filter, for six different reasons; the third gives the series, and the
    2017 fact of the fourth is not merged in. *)
Lemma pickAnnualSeriesByUnit_first_match_mixed :
  pickAnnualUSDSeries String.compare mixedFilings
    ["Unreported"; "Revenues"; "SalesRevenueNet"; "SalesRevenueGoodsNet"]
  = [ {| end_ := "2018-12-31"; val := 100 |};
      {| end_ := "2019-12-31"; val := 200 |} ]
  /\ pickAnnualUSDSeries String.compare mixedFilings ["SalesRevenueNet"]
     = [ {| end_ := "2018-12-31"; val := 100 |};
         {| end_ := "2019-12-31"; val := 200 |} ]
  /\ List.length (unitFacts mixedFilings "Revenues" (fun u => String.eqb u "USD")) = 6
  /\ pickAnnualUSDSeries String.compare mixedFilings ["Unreported"; "Revenues"] = []
  /\ pickAnnualSeriesByUnit_run String.compare mixedFilings
       ["Unreported"; "Revenues"; "SalesRevenueNet"; "SalesRevenueGoodsNet"]
       (fun u => String.eqb u "USD")
     = Return [ {| end_ := "2018-12-31"; val := 100 |};
                {| end_ := "2019-12-31"; val := 200 |} ].
Proof.
  destruct (pickAnnualSeriesByUnit_first_match String.compare mixedFilings
              (fun u => String.eqb u "USD")) as (Hrun & Hfirst & Hnone & _).
  assert (Hpre : forall t, In t ["Unreported"; "Revenues"] ->
             ~ exists x p, In x (unitFacts mixedFilings t (fun u => String.eqb u "USD"))
                           /\ qualifyingFact x p).
  { intros t Ht (x & p & Hx & Hq). apply annualPoint_qualifying in Hq.
    destruct Ht as [<-|[<-|[]]]; [destruct Hx|].
    cbn in Hx.
    repeat (destruct Hx as [<-|Hx]; [discriminate Hq|]). destruct Hx. }
  destruct (Hfirst ["Unreported"; "Revenues"] "SalesRevenueNet"
              ["SalesRevenueGoodsNet"] Hpre) as (_ & Hsame & _).
  { exists (fact "2019-12-31" 200), {| end_ := "2019-12-31"; val := 200 |}.
    split; [now left|]. apply annualPoint_qualifying. reflexivity. }
  split; [exact Hsame|]. split; [reflexivity|]. split; [reflexivity|].
  split; [now apply Hnone|].
  rewrite Hrun. reflexivity.
Defined.

(** ** [closeOnOrBefore] *)

Lemma latestOnOrBefore_None history isoDate :
  latestOnOrBefore history isoDate = None <->
  forall h, In h history -> str_le (date h) isoDate = false.
Proof.
  induction history as [|h rest IH]; cbn; [tauto|].
  destruct (latestOnOrBefore rest isoDate) as [later|].
  - split; [discriminate|]. intros H.
    assert (C : Some later = None) by (apply IH; auto). discriminate C.
  - destruct (str_le (date h) isoDate) eqn:E.
    + split; [discriminate|]. intros H. rewrite (H h) in E by auto. discriminate.
    + split; trivial. intros _ x [<-|Hx]; trivial. now apply IH.
Qed.

Lemma latestOnOrBefore_at history isoDate k h :
  nth_error history k = Some h ->
  str_le (date h) isoDate = true ->
  (forall i x, k < i -> nth_error history i = Some x ->
               str_le (date x) isoDate = false) ->
  latestOnOrBefore history isoDate = Some h.
Proof.
  revert k. induction history as [|y rest IH]; intros k Hk Hle Hafter.
  - destruct k; discriminate.
  - cbn [latestOnOrBefore]. destruct k as [|k]; cbn in Hk.
    + injection Hk as ->.
      assert (N : latestOnOrBefore rest isoDate = None).
      { apply latestOnOrBefore_None. intros x Hx.
        apply In_nth_error in Hx. destruct Hx as [i Hi].
        apply (Hafter (S i) x); [lia | exact Hi]. }
      now rewrite N, Hle.
    + rewrite (IH k Hk Hle); trivial.
      intros i x Hi Hx. apply (Hafter (S i) x); [lia | exact Hx].
Qed.

Lemma sortedByDate_nth history i j a b :
  sortedByDate history -> i <= j ->
  nth_error history i = Some a -> nth_error history j = Some b ->
  str_le (date a) (date b) = true.
Proof.
  intros Hs. apply Sorted_StronglySorted in Hs.
  2:{ intros x y z. apply str_le_trans. }
  revert i j a b. induction Hs as [|h rest Hs IH Hall]; intros i j a b Hij Hi Hj.
  - destruct i; discriminate.
  - destruct i as [|i], j as [|j]; cbn in Hi, Hj; try lia.
    + injection Hi as <-. injection Hj as <-. apply str_le_refl.
    + injection Hi as <-. rewrite Forall_forall in Hall.
      apply Hall. eapply nth_error_In, Hj.
    + apply (IH i j); trivial; lia.
Qed.

(** The loop, started below [lo] on entries at or before the date and
    above [hi] on later ones, ends on the index of the latest entry at or
    before the date, or on [-1]. *)
Lemma searchLoop_spec history isoDate lo hi ans :
  sortedByDate history ->
  (0 <= lo)%Z -> (hi < Z.of_nat (List.length history))%Z -> (lo <= hi + 1)%Z ->
  ans = (lo - 1)%Z ->
  (forall i x, (Z.of_nat i < lo)%Z -> nth_error history i = Some x ->
               str_le (date x) isoDate = true) ->
  (forall i x, (hi < Z.of_nat i)%Z -> nth_error history i = Some x ->
               str_le (date x) isoDate = false) ->
  exists k,
    searchLoop history isoDate lo hi ans = Return k
    /\ (-1 <= k < Z.of_nat (List.length history))%Z
    /\ (forall i x, (Z.of_nat i <= k)%Z -> nth_error history i = Some x ->
                    str_le (date x) isoDate = true)
    /\ (forall i x, (k < Z.of_nat i)%Z -> nth_error history i = Some x ->
                    str_le (date x) isoDate = false).
Proof.
  intros Hs.
  funelim (searchLoop history isoDate lo hi ans);
    intros Hlo Hhi Hgap Hans Hbelow Habove.
  - (* lo > hi *)
    exists ans. subst ans. repeat split; trivial; try lia.
    + intros i x Hi. apply Hbelow. lia.
    + intros i x Hi. apply Habove. lia.
  - (* the read of history[mid] cannot fail *)
    exfalso.
    assert (Hmid : (lo <= (lo + hi) / 2 <= hi)%Z)
      by (split; [apply Z.div_le_lower_bound | apply Z.div_le_upper_bound]; lia).
    unfold elementZ in Heq.
    destruct ((lo + hi) / 2 <? 0)%Z eqn:N; [apply Z.ltb_lt in N; lia|].
    destruct (element_in_range (l := history) (i := Z.to_nat ((lo + hi) / 2)))
      as (x & _ & Hx); [lia|].
    rewrite Hx in Heq. discriminate Heq.
  - (* history[mid].date <= isoDate *)
    assert (Hmid : (lo <= (lo + hi) / 2 <= hi)%Z)
      by (split; [apply Z.div_le_lower_bound | apply Z.div_le_upper_bound]; lia).
    unfold elementZ in Heq0.
    destruct ((lo + hi) / 2 <? 0)%Z; [discriminate|].
    unfold element in Heq0.
    destruct (nth_error history (Z.to_nat ((lo + hi) / 2))) as [m|] eqn:Hm;
      [|discriminate].
    injection Heq0 as ->.
    apply H; trivial; try lia.
    intros i x Hi Hx.
    apply (str_le_trans (b := date h)); [|exact Heq].
    apply (sortedByDate_nth (i := i) (j := Z.to_nat ((lo + hi) / 2)) Hs);
      trivial; lia.
  - (* history[mid].date > isoDate *)
    assert (Hmid : (lo <= (lo + hi) / 2 <= hi)%Z)
      by (split; [apply Z.div_le_lower_bound | apply Z.div_le_upper_bound]; lia).
    unfold elementZ in Heq0.
    destruct ((lo + hi) / 2 <? 0)%Z; [discriminate|].
    unfold element in Heq0.
    destruct (nth_error history (Z.to_nat ((lo + hi) / 2))) as [m|] eqn:Hm;
      [|discriminate].
    injection Heq0 as ->.
    apply H; trivial; try lia.
    intros i x Hi Hx.
    destruct (str_le (date x) isoDate) eqn:E; trivial.
    assert (C : str_le (date h) isoDate = true).
    { apply (str_le_trans (b := date x)); [|exact E].
      apply (sortedByDate_nth (i := Z.to_nat ((lo + hi) / 2)) (j := i) Hs);
        trivial; lia. }
    congruence.
Qed.

(** C9. On a price history sorted ascending by date, [closeOnOrBefore]
    returns the close of the latest entry whose date is at most the query
    date, and returns [null] exactly when there is no such entry (the
    query date precedes every entry, or the history is empty). It never
    throws. *)
Theorem closeOnOrBefore_latest (history : list DailyClose) (isoDate : string) :
  sortedByDate history ->
  closeOnOrBefore history isoDate
  = Return (option_map close (latestOnOrBefore history isoDate))
  /\ (closeOnOrBefore history isoDate = Return None
      <-> forall h, In h history -> str_le (date h) isoDate = false).
Proof.
  intros Hs.
  assert (E : closeOnOrBefore history isoDate
              = Return (option_map close (latestOnOrBefore history isoDate))).
  { unfold closeOnOrBefore.
    assert (Hbelow : forall i x, (Z.of_nat i < 0)%Z ->
              nth_error history i = Some x -> str_le (date x) isoDate = true)
      by (intros; lia).
    assert (Habove : forall i x,
              (Z.of_nat (List.length history) - 1 < Z.of_nat i)%Z ->
              nth_error history i = Some x -> str_le (date x) isoDate = false).
    { intros i x Hi Hx.
      assert (i < List.length history) by (apply nth_error_Some; congruence).
      lia. }
    destruct (@searchLoop_spec history isoDate 0
                (Z.of_nat (List.length history) - 1) (-1) Hs
                ltac:(lia) ltac:(lia) ltac:(lia) ltac:(lia) Hbelow Habove)
      as (k & -> & Hk & Hle & Hgt).
    cbn [bind]. destruct (0 <=? k)%Z eqn:K.
    - apply Z.leb_le in K. unfold elementZ.
      destruct (k <? 0)%Z eqn:N; [apply Z.ltb_lt in N; lia|].
      destruct (element_in_range (l := history) (i := Z.to_nat k))
        as (h & Hh & ->); [lia|]. cbn [bind].
      rewrite (latestOnOrBefore_at (k := Z.to_nat k) (h := h)); trivial.
      + apply (Hle (Z.to_nat k)); trivial. lia.
      + intros i x Hi. apply Hgt. lia.
    - apply Z.leb_gt in K.
      assert (N : latestOnOrBefore history isoDate = None).
      { apply latestOnOrBefore_None. intros h Hh.
        apply In_nth_error in Hh. destruct Hh as [i Hi].
        apply (Hgt i); trivial. lia. }
      now rewrite N. }
  split; trivial. rewrite E, <- latestOnOrBefore_None.
  destruct (latestOnOrBefore history isoDate); cbn; split; congruence.
Qed.

Lemma closeOnOrBefore_latest_january :
  sortedByDate firstWeekOfJanuary
  /\ closeOnOrBefore firstWeekOfJanuary "2020-01-05" = Return (Some 11%float)
  /\ closeOnOrBefore firstWeekOfJanuary "2020-01-06" = Return (Some 12%float)
  /\ closeOnOrBefore firstWeekOfJanuary "2020-01-01" = Return None
  /\ closeOnOrBefore [] "2020-01-01" = Return None.
Proof.
  assert (Hs : sortedByDate firstWeekOfJanuary) by (repeat constructor).
  split; [exact Hs|]. split; [|split; [|split]].
  - exact (proj1 (closeOnOrBefore_latest "2020-01-05" Hs)).
  - exact (proj1 (closeOnOrBefore_latest "2020-01-06" Hs)).
  - apply (closeOnOrBefore_latest "2020-01-01" Hs).
    intros h [<-|[<-|[<-|[]]]]; reflexivity.
  - apply (@closeOnOrBefore_latest [] "2020-01-01"); [constructor|].
    intros h [].
Defined.

(** ** Nearest-date lookups *)

Lemma nearestLoop_state dist candidates seen best bestDiff :
  loopState dist seen best bestDiff ->
  loopState dist (seen ++ candidates)
            (fst (nearestLoop dist candidates best bestDiff))
            (snd (nearestLoop dist candidates best bestDiff)).
Proof.
  revert seen best bestDiff.
  induction candidates as [|c rest IH]; intros seen best bestDiff Hst.
  - cbn. now rewrite app_nil_r.
  - cbn [nearestLoop].
    replace (seen ++ c :: rest)%list with ((seen ++ [c]) ++ rest)%list
      by (rewrite <- app_assoc; reflexivity).
    destruct (dist c <? bestDiff)%float eqn:L; apply IH.
    + (* [c] becomes the best *)
      cbn. split; trivial.
      destruct best as [b|]; cbn in Hst.
      * destruct Hst as (-> & Hb & pre & post & -> & Hpre & Hpost).
        split; [exact (ltb_trans L Hb)|].
        exists (pre ++ b :: post)%list, []. split; [reflexivity|]. split; [|intros ? []].
        intros p Hp. apply in_app_or in Hp.
        destruct (dist p <=? dist c)%float eqn:E; trivial.
        pose proof (leb_ltb_trans E L) as Lp.
        destruct Hp as [Hp|[<-|Hp]].
        -- rewrite <- (Hpre p Hp). symmetry. now apply ltb_leb.
        -- now rewrite ltb_irrefl in Lp.
        -- rewrite <- (Hpost p Hp). now symmetry.
      * destruct Hst as (-> & Hnone).
        split; [exact L|].
        exists seen, []. split; [reflexivity|]. split; [|intros ? []].
        intros p Hp.
        destruct (dist p <=? dist c)%float eqn:E; trivial.
        rewrite <- (Hnone p Hp). symmetry. exact (leb_ltb_trans E L).
    + (* the best stays *)
      destruct best as [b|]; cbn in Hst |- *.
      * destruct Hst as (-> & Hb & pre & post & -> & Hpre & Hpost).
        split; trivial. split; trivial.
        exists pre, (post ++ [c])%list. split.
        { rewrite <- app_assoc. reflexivity. }
        split; trivial.
        intros p Hp. apply in_app_or in Hp. destruct Hp as [Hp|[<-|[]]]; auto.
      * destruct Hst as (-> & Hnone). split; trivial.
        intros p Hp. apply in_app_or in Hp. destruct Hp as [Hp|[<-|[]]]; auto.
Qed.

Lemma nearestLoop_from_start dist candidates :
  loopState dist candidates
            (fst (nearestLoop dist candidates None infinity))
            (snd (nearestLoop dist candidates None infinity)).
Proof.
  apply (@nearestLoop_state dist candidates [] None infinity).
  split; trivial. intros c [].
Qed.

Lemma lookupSpec_loop dist candidates tolerance :
  lookupSpec dist candidates tolerance
    (let '(best, bestDiff) := nearestLoop dist candidates None infinity in
     match best with
     | None => None
     | Some b =>
         match tolerance with
         | Some t => if (t <? bestDiff)%float then None else Some (val b)
         | None => Some (val b)
         end
     end).
Proof.
  pose proof (nearestLoop_from_start dist candidates) as H.
  destruct (nearestLoop dist candidates None infinity) as [[b|] bestDiff];
    cbn [fst snd loopState] in H.
  - destruct H as (-> & Hb). destruct tolerance as [t|].
    + destruct (t <? dist b)%float eqn:T; cbn.
      * right. exists b. now split.
      * exists b. split; [exact Hb|]. now split.
    + cbn. exists b. split; [exact Hb|]. now split.
  - destruct H as (_ & Hnone). cbn. now left.
Qed.

(** C5 (as amended). Each nearest-date lookup returns the value of the
    first candidate, in candidate order (tag order, then array order),
    among those at the least distance from the target; on a tie it is the
    candidate met first, whatever its date. The distance is the rounded
    number of days between the dates for shares outstanding and the
    difference of the two dates read as [YYYYMMDD] numbers for debt,
    equity and cash. The shares lookup answers nothing when the least
    distance is above 180, and the equity and cash lookup answers nothing
    when it is above ten times [maxDays]; the debt lookup answers with its
    nearest candidate. Each answers nothing when there is no candidate at
    a distance below infinity. *)
Theorem nearest_date_lookups
  (Number Date_getTime : string -> float) (Math_round : float -> float)
  (facts : value) (endDate : string)
  (tagCandidates : list string) (maxDays : float) :
  lookupSpec (fun c => daysBetween Date_getTime Math_round (end_ c) endDate)
             (shareCandidates facts) (Some 180%float)
             (pickSharesNearestToEndDate Date_getTime Math_round facts endDate)
  /\ lookupSpec (encodedDistance Number endDate)
                (usdCandidates facts tagCandidates) (Some (maxDays * 10)%float)
                (pickNearestUSDValue Number facts tagCandidates endDate maxDays)
  /\ lookupSpec (encodedDistance Number endDate)
                (usdCandidates facts ["LongTermDebtNoncurrent"; "LongTermDebt"])
                None
                (pickDebtNearestToEndDate Number facts endDate).
Proof.
  assert (Hempty : forall dist tolerance, lookupSpec dist [] tolerance None).
  { intros dist tolerance. left. intros c []. }
  split; [|split].
  - unfold pickSharesNearestToEndDate.
    pose proof (lookupSpec_loop
                  (fun c => daysBetween Date_getTime Math_round (end_ c) endDate)
                  (shareCandidates facts) (Some 180%float)) as H.
    destruct (shareCandidates facts); [apply Hempty | exact H].
  - unfold pickNearestUSDValue.
    pose proof (lookupSpec_loop (encodedDistance Number endDate)
                  (usdCandidates facts tagCandidates)
                  (Some (maxDays * 10)%float)) as H.
    destruct (usdCandidates facts tagCandidates); [apply Hempty | exact H].
  - unfold pickDebtNearestToEndDate.
    pose proof (lookupSpec_loop (encodedDistance Number endDate)
                  (usdCandidates facts ["LongTermDebtNoncurrent"; "LongTermDebt"])
                  None) as H.
    destruct (usdCandidates facts ["LongTermDebtNoncurrent"; "LongTermDebt"]);
      [apply Hempty | exact H].
Qed.

(** Two cash candidates at the same distance, the later-dated one first in
    the array: the lookup returns the later-dated one; so does the shares
    lookup on two counts twenty days either side of the target. Between an
    equity candidate one day before the target and one 59 days after it,
    the lookup returns the one 59 days after, and alone the one a day
    before is refused. *)
Lemma nearest_date_lookup_ties_and_tolerance :
  (usdCandidates cashAroundMidDecember ["CashAndCashEquivalentsAtCarryingValue"]
   = [ {| end_ := "2020-12-20"; val := 2 |}; {| end_ := "2020-12-10"; val := 1 |} ]
   /\ encodedDistance digitsToNumber "2020-12-15" {| end_ := "2020-12-20"; val := 2 |}
      = 5%float
   /\ encodedDistance digitsToNumber "2020-12-15" {| end_ := "2020-12-10"; val := 1 |}
      = 5%float
   /\ pickNearestUSDValue digitsToNumber cashAroundMidDecember
        ["CashAndCashEquivalentsAtCarryingValue"] "2020-12-15" 200
      = Some 2%float)
  /\ (shareCandidates sharesAroundYearEnd
      = [ {| end_ := "2020-10-16"; val := 17 |}; {| end_ := "2020-09-06"; val := 16 |} ]
      /\ daysBetween midnightMs roundWhole "2020-10-16" "2020-09-26" = 20%float
      /\ daysBetween midnightMs roundWhole "2020-09-06" "2020-09-26" = 20%float
      /\ pickSharesNearestToEndDate midnightMs roundWhole sharesAroundYearEnd
           "2020-09-26"
         = Some 17%float)
  /\ (pickNearestUSDValue digitsToNumber equityAroundNewYear
        ["StockholdersEquity"] "2021-01-01" 200
      = Some 59%float
      /\ pickNearestUSDValue digitsToNumber
           (companyFacts [("StockholdersEquity",
                           [("USD", [ fact "2020-12-31" 1 ])])])
           ["StockholdersEquity"] "2021-01-01" 200
         = None).
Proof. repeat split. Qed.

(** The debt lookup has no tolerance test: a fact ten years from the target
    is its answer. *)
Lemma pickDebtNearestToEndDate_far_candidate :
  pickDebtNearestToEndDate digitsToNumber debtTenYearsBefore "2020-12-31"
  = Some 7%float.
Proof. reflexivity. Qed.

(** On the two share counts twenty days either side of the target, the
    lookup answers with the first one, 20 days away; the count dated 182
    days before the target is refused. *)
Lemma nearest_date_lookups_shares :
  (exists b,
      nearestFirst (fun c => daysBetween midnightMs roundWhole (end_ c) "2020-09-26")
                   (shareCandidates sharesAroundYearEnd) b
      /\ val b = 17%float
      /\ daysBetween midnightMs roundWhole (end_ b) "2020-09-26" = 20%float)
  /\ pickSharesNearestToEndDate midnightMs roundWhole sharesAroundYearEnd "2020-09-26"
     = Some 17%float
  /\ (exists b,
        nearestFirst (fun c => daysBetween midnightMs roundWhole (end_ c) "2020-09-26")
                     (shareCandidates sharesHalfAYearBefore) b
        /\ daysBetween midnightMs roundWhole (end_ b) "2020-09-26" = 182%float)
  /\ pickSharesNearestToEndDate midnightMs roundWhole sharesHalfAYearBefore "2020-09-26"
     = None.
Proof.
  destruct (nearest_date_lookups digitsToNumber midnightMs roundWhole
              sharesAroundYearEnd "2020-09-26" [] 200) as (Hnear & _).
  destruct (nearest_date_lookups digitsToNumber midnightMs roundWhole
              sharesHalfAYearBefore "2020-09-26" [] 200) as (Hfar & _).
  change (pickSharesNearestToEndDate midnightMs roundWhole sharesAroundYearEnd
            "2020-09-26") with (Some 17%float) in Hnear.
  change (pickSharesNearestToEndDate midnightMs roundWhole sharesHalfAYearBefore
            "2020-09-26") with (@None float) in Hfar.
  cbn [lookupSpec] in Hnear, Hfar.
  destruct Hnear as (b & Hb & Hv & _).
  split; [|split; [reflexivity | split; [|reflexivity]]].
  - exists b. split; [exact Hb|]. split; [exact Hv|].
    destruct Hb as (_ & pre & post & E & _).
    change (shareCandidates sharesAroundYearEnd)
      with [ {| end_ := "2020-10-16"; val := 17%float |};
             {| end_ := "2020-09-06"; val := 16%float |} ] in E.
    destruct pre as [|p1 [|p2 [|p3 pre]]]; cbn in E.
    + injection E as <- _. reflexivity.
    + injection E as _ <- _. reflexivity.
    + injection E as _ _ E. discriminate E.
    + injection E as _ _ E. discriminate E.
  - destruct Hfar as [Hnone|(b' & Hb' & _)].
    + exfalso.
      specialize (Hnone {| end_ := "2020-03-28"; val := 15%float |} (or_introl eq_refl)).
      discriminate Hnone.
    + exists b'. split; [exact Hb'|].
      destruct Hb' as (_ & pre & post & E & _).
      change (shareCandidates sharesHalfAYearBefore)
        with [ {| end_ := "2020-03-28"; val := 15%float |} ] in E.
      destruct pre as [|p1 [|p2 pre]]; cbn in E.
      * injection E as <- _. reflexivity.
      * injection E as _ E. discriminate E.
      * injection E as _ E. discriminate E.
Defined.

(** ** The last years of a series *)

(** X6. [lastNYears] keeps the last [n] points of a series, in order: its
    result is a suffix of the series, of length [min(length, n)], and the
    whole series when that has at most [n] points. *)
Theorem lastNYears_suffix (series : list YearPoint) (n : nat) :
  (exists earlier, series = (earlier ++ lastNYears series n)%list)
  /\ List.length (lastNYears series n) = Nat.min (List.length series) n
  /\ (List.length series <= n -> lastNYears series n = series).
Proof.
  unfold lastNYears. destruct (List.length series <=? n)%nat eqn:E.
  - apply Nat.leb_le in E. split; [now exists []|]. split; [lia | trivial].
  - apply Nat.leb_gt in E. split; [|split].
    + exists (firstn (List.length series - n) series).
      symmetry. apply firstn_skipn.
    + rewrite length_skipn. lia.
    + lia.
Qed.

(** ** Lookup maps *)

Lemma Map_get_set m k v e :
  Map_get (Map_set m k v) e = if String.eqb k e then Some v else Map_get m e.
Proof.
  destruct (String.eqb k e) eqn:E.
  - apply String.eqb_eq in E. subst. apply Map_get_set_same.
  - apply String.eqb_neq in E. now apply Map_get_set_other.
Qed.

Lemma toMap_snoc series p :
  toMap (series ++ [p]) = Map_set (toMap series) (end_ p) (val p).
Proof. unfold toMap. now rewrite fold_left_app. Qed.

Lemma toMap_get series e :
  Map_get (toMap series) e
  = option_map val (find (fun p => String.eqb (end_ p) e) (rev series)).
Proof.
  induction series as [|p series IH] using rev_ind; [reflexivity|].
  rewrite toMap_snoc, Map_get_set, rev_app_distr. cbn [rev app find].
  destruct (String.eqb (end_ p) e); [reflexivity | exact IH].
Qed.

Lemma find_unique (series : list YearPoint) p :
  NoDup (map end_ series) -> In p series ->
  find (fun q => String.eqb (end_ q) (end_ p)) series = Some p.
Proof.
  induction series as [|x series IH]; intros ND Hin; [destruct Hin|].
  destruct Hin as [->|Hin].
  - cbn. now rewrite String.eqb_refl.
  - inversion ND as [|? ? Hn ND']; subst. cbn.
    destruct (String.eqb (end_ x) (end_ p)) eqn:E; [|now apply IH].
    apply String.eqb_eq in E. exfalso. apply Hn. rewrite E. now apply in_map.
Qed.

(** X7. [toMap] answers a period end with the value of the last point of
    the series on that end, and with nothing when no point ends there;
    [alignByEnd] lists, for each end asked, what the map holds. On a series
    with one point per period end, aligning its own ends gives the series
    back. *)
Theorem alignByEnd_toMap (series : list YearPoint) :
  (forall e,
      Map_get (toMap series) e
      = option_map val (find (fun p => String.eqb (end_ p) e) (rev series)))
  /\ (forall ends,
        alignByEnd ends (toMap series)
        = map (fun e => {| metricEnd := e; metricVal := Map_get (toMap series) e |})
              ends)
  /\ (NoDup (map end_ series) ->
      alignByEnd (map end_ series) (toMap series)
      = map (fun p => {| metricEnd := end_ p; metricVal := Some (val p) |}) series).
Proof.
  assert (Hal : forall ends,
             alignByEnd ends (toMap series)
             = map (fun e => {| metricEnd := e;
                                metricVal := Map_get (toMap series) e |}) ends).
  { intros ends. unfold alignByEnd, Map_has. apply map_ext. intros e.
    now destruct (Map_get (toMap series) e). }
  split; [apply toMap_get|]. split; [exact Hal|].
  intros ND. rewrite Hal, map_map. apply map_ext_in. intros p Hp.
  rewrite toMap_get, find_unique; trivial.
  - rewrite map_rev. now apply NoDup_rev.
  - now apply in_rev in Hp.
Qed.

(** ** Tickers *)

Lemma tickerChar_plain c :
  isTickerChar c = true ->
  isWhiteSpace c = false /\ upperChar c = String c EmptyString.
Proof.
  destruct c as [[] [] [] [] [] [] [] []]; vm_compute; intros H;
    (discriminate H || (split; reflexivity)).
Qed.

Lemma ticker_trimStart t :
  forallb isTickerChar (list_ascii_of_string t) = true -> trimStart t = t.
Proof.
  destruct t as [|c t]; cbn; trivial.
  intros H. apply andb_prop in H. destruct H as [Hc _].
  now rewrite (proj1 (tickerChar_plain Hc)).
Qed.

Lemma ticker_trimEnd t :
  forallb isTickerChar (list_ascii_of_string t) = true -> trimEnd t = t.
Proof.
  induction t as [|c t IH]; cbn; trivial.
  intros H. apply andb_prop in H. destruct H as [Hc Ht].
  rewrite (IH Ht). destruct t; trivial.
  now rewrite (proj1 (tickerChar_plain Hc)).
Qed.

Lemma ticker_toUpperCase t :
  forallb isTickerChar (list_ascii_of_string t) = true -> toUpperCase t = t.
Proof.
  induction t as [|c t IH]; cbn; trivial.
  intros H. apply andb_prop in H. destruct H as [Hc Ht].
  now rewrite (IH Ht), (proj2 (tickerChar_plain Hc)).
Qed.

Lemma matchesTicker_chars t :
  matchesTicker t = true -> forallb isTickerChar (list_ascii_of_string t) = true.
Proof. unfold matchesTicker. intros H. now apply andb_prop in H. Qed.

Lemma cleanTicker_fixed t : matchesTicker t = true -> cleanTicker (Some t) = Return t.
Proof.
  intros H. pose proof (matchesTicker_chars H) as Hc.
  unfold cleanTicker, trim.
  now rewrite (ticker_trimStart Hc), (ticker_trimEnd Hc), (ticker_toUpperCase Hc), H.
Qed.

Lemma cleanTicker_matches input t :
  cleanTicker input = Return t -> matchesTicker t = true.
Proof.
  unfold cleanTicker.
  set (u := toUpperCase (trim match input with Some s => s | None => "" end)).
  destruct (matchesTicker u) eqn:M; cbn [negb]; [|discriminate].
  now intros [= <-].
Qed.

(** X8. A ticker that [cleanTicker] returns has 1 to 10 characters, each a
    capital ASCII letter, a dot or a hyphen; it is the input trimmed and
    upper-cased; and cleaning it again returns it unchanged. *)
Theorem cleanTicker_accepted (input : option string) (t : string) :
  cleanTicker input = Return t ->
  matchesTicker t = true
  /\ (1 <= String.length t <= 10
      /\ forall c, In c (list_ascii_of_string t) -> isTickerChar c = true)
  /\ t = toUpperCase (trim (match input with Some s => s | None => "" end))
  /\ cleanTicker (Some t) = Return t.
Proof.
  unfold cleanTicker.
  set (u := toUpperCase (trim match input with Some s => s | None => "" end)).
  destruct (matchesTicker u) eqn:M; cbn [negb]; [|discriminate].
  intros [= <-]. split; [exact M|]. split; [|split; [reflexivity|]].
  - unfold matchesTicker in M.
    apply andb_prop in M. destruct M as [M Hc].
    apply andb_prop in M. destruct M as [H1 H2].
    apply Nat.leb_le in H1, H2. split; [lia|].
    now apply forallb_forall.
  - now apply cleanTicker_fixed.
Qed.

(** A padded lower-case ticker is trimmed and upper-cased; a missing
    ticker and one with a space inside are refused. *)
Lemma cleanTicker_accepted_padded :
  cleanTicker (Some "  brk.b ") = Return "BRK.B"
  /\ matchesTicker "BRK.B" = true
  /\ cleanTicker (Some "BRK.B") = Return "BRK.B"
  /\ cleanTicker None = Throw
  /\ cleanTicker (Some "a b") = Throw.
Proof.
  destruct (@cleanTicker_accepted (Some "  brk.b ") "BRK.B" eq_refl)
    as (M & _ & _ & F).
  repeat split; trivial.
Defined.

(** ** Stock splits *)

Lemma inherited_not_ticker t :
  matchesTicker t = true -> existsb (String.eqb t) inheritedNames = false.
Proof.
  intros M. destruct (existsb (String.eqb t) inheritedNames) eqn:E; trivial.
  apply existsb_exists in E. destruct E as (n & Hn & E).
  apply String.eqb_eq in E. subst n.
  cbn in Hn.
  repeat (destruct Hn as [<-|Hn]; [vm_compute in M; discriminate M|]).
  destruct Hn.
Qed.

Lemma cumulativeSplitFactor_returns t endDate :
  matchesTicker t = true ->
  exists factor, cumulativeSplitFactor t endDate = Return factor.
Proof.
  intros M. unfold cumulativeSplitFactor.
  destruct (assoc t SPLITS_BY_TICKER) as [splits|]; [eexists; reflexivity|].
  rewrite (inherited_not_ticker M). eexists; reflexivity.
Qed.

(** X9. For a ticker accepted by [cleanTicker], [cumulativeSplitFactor]
    never throws: no accepted ticker names a property inherited from
    [Object.prototype]. The factor is 4 for AAPL on period ends before
    2020-08-31, in code-unit order, and 1 in every other case. *)
Theorem cumulativeSplitFactor_cleaned (input : option string) (t endDate : string) :
  cleanTicker input = Return t ->
  cumulativeSplitFactor t endDate
  = Return (if String.eqb t "AAPL" && str_lt endDate "2020-08-31"
            then 4%float else 1%float).
Proof.
  intros H. apply cleanTicker_matches in H. rename H into M.
  unfold cumulativeSplitFactor, SPLITS_BY_TICKER. cbn [assoc].
  destruct (String.eqb t "AAPL") eqn:E; cbn [andb fold_left effectiveDate ratio].
  - destruct (str_lt endDate "2020-08-31"); reflexivity.
  - now rewrite (inherited_not_ticker M).
Qed.

(** AAPL before and after its split of 2020-08-31; and a name inherited
    from [Object.prototype], which no cleaned ticker can be. *)
Lemma cumulativeSplitFactor_cleaned_aapl :
  cleanTicker (Some "aapl") = Return "AAPL"
  /\ cumulativeSplitFactor "AAPL" "2019-09-28" = Return 4%float
  /\ cumulativeSplitFactor "AAPL" "2020-09-26" = Return 1%float
  /\ cumulativeSplitFactor "constructor" "2019-09-28" = Throw.
Proof.
  split; [reflexivity|]. split; [|split; [|reflexivity]].
  - exact (@cumulativeSplitFactor_cleaned (Some "aapl") "AAPL" "2019-09-28" eq_refl).
  - exact (@cumulativeSplitFactor_cleaned (Some "aapl") "AAPL" "2020-09-26" eq_refl).
Defined.

(** ** The most common month of the fiscal year end

    SameValueZero, the equality of [Map] keys, is an equivalence. *)

Lemma sameValueZero_iff a b :
  sameValueZero a b = true <->
  (notNaN a /\ notNaN b /\ eq3 (key a) (key b))
  \/ (is_nan a = true /\ is_nan b = true).
Proof.
  unfold sameValueZero. rewrite orb_true_iff, andb_true_iff, eqb_key. tauto.
Qed.

Lemma sameValueZero_refl a : sameValueZero a a = true.
Proof.
  apply sameValueZero_iff. destruct (is_nan a) eqn:E; [now right|].
  left. apply is_nan_false in E. repeat split; trivial. by_keys.
Qed.

Lemma sameValueZero_sym a b : sameValueZero a b = true -> sameValueZero b a = true.
Proof.
  rewrite !sameValueZero_iff. intros [(Ha & Hb & E)|[Ha Hb]]; [left|right; tauto].
  repeat split; trivial. revert E. by_keys.
Qed.

Lemma sameValueZero_trans a b c :
  sameValueZero a b = true -> sameValueZero b c = true -> sameValueZero a c = true.
Proof.
  rewrite !sameValueZero_iff.
  intros [(Ha & Hb & E)|[Ha Hb]] [(Hb' & Hc & E')|[Hb' Hc]].
  - left. repeat split; trivial. revert E E'. by_keys.
  - apply is_nan_false in Hb. congruence.
  - apply is_nan_false in Hb'. congruence.
  - now right.
Qed.

Lemma sameValueZero_congr a b x :
  sameValueZero a b = true -> sameValueZero a x = sameValueZero b x.
Proof.
  intros H. destruct (sameValueZero a x) eqn:A, (sameValueZero b x) eqn:B; trivial.
  - rewrite <- B. symmetry.
    apply (sameValueZero_trans (b := a)); [now apply sameValueZero_sym | exact A].
  - rewrite <- A. apply (sameValueZero_trans (b := b)); trivial.
Qed.

Lemma sameValueZero_congr_r a b x :
  sameValueZero a b = true -> sameValueZero x a = sameValueZero x b.
Proof.
  intros H. destruct (sameValueZero x a) eqn:A, (sameValueZero x b) eqn:B; trivial.
  - rewrite <- B. symmetry. exact (sameValueZero_trans A H).
  - rewrite <- A. apply (sameValueZero_trans B). now apply sameValueZero_sym.
Qed.

Lemma strictEquals_congr a b x :
  sameValueZero a b = true -> strictEquals x a = strictEquals x b.
Proof.
  intros H. unfold strictEquals.
  apply sameValueZero_iff in H. destruct H as [(Ha & Hb & E)|[Ha Hb]].
  - destruct (x =? a)%float eqn:A, (x =? b)%float eqn:B; trivial.
    + rewrite <- B. symmetry. apply eqb_key in A. apply eqb_key.
      destruct A as (Hx & _ & A). repeat split; trivial. revert E A. by_keys.
    + rewrite <- A. apply eqb_key in B. apply eqb_key.
      destruct B as (Hx & _ & B). repeat split; trivial. revert E B. by_keys.
  - destruct (x =? a)%float eqn:A.
    + apply eqb_key in A. destruct A as (_ & A & _).
      apply is_nan_false in A. congruence.
    + destruct (x =? b)%float eqn:B; trivial.
      apply eqb_key in B. destruct B as (_ & B & _).
      apply is_nan_false in B. congruence.
Qed.

Lemma strictEquals_sameValueZero a b :
  strictEquals a b = true -> sameValueZero a b = true.
Proof. unfold strictEquals, sameValueZero. now intros ->. Qed.

Lemma sameValueZero_strictEquals a b :
  is_nan b = false -> sameValueZero a b = strictEquals a b.
Proof.
  intros H. unfold sameValueZero, strictEquals. rewrite H.
  now rewrite andb_false_r, orb_false_r.
Qed.

Lemma stored_key k :
  sameValueZero (if is_zero k then 0%float else k) k = true.
Proof.
  destruct (is_zero k) eqn:Z; [|apply sameValueZero_refl].
  unfold is_zero in Z. unfold sameValueZero.
  apply orb_true_iff. left. exact (eqb_sym Z).
Qed.

(** The count map. *)

Lemma Count_get_set m k c x :
  Count_get (Count_set m k c) x
  = if sameValueZero k x then Some c else Count_get m x.
Proof.
  induction m as [|[k' c'] m IH]; cbn [Count_set Count_get].
  - now rewrite (sameValueZero_congr x (stored_key k)).
  - destruct (sameValueZero k' k) eqn:E; cbn [Count_get].
    + rewrite (sameValueZero_congr x E).
      now destruct (sameValueZero k x).
    + rewrite IH. destruct (sameValueZero k' x) eqn:A, (sameValueZero k x) eqn:B;
        trivial.
      rewrite (sameValueZero_trans A (sameValueZero_sym B)) in E. discriminate E.
Qed.

Lemma Count_get_congr m k k' :
  sameValueZero k k' = true -> Count_get m k = Count_get m k'.
Proof.
  intros H. induction m as [|[k0 c0] m IH]; cbn; trivial.
  rewrite (sameValueZero_congr_r k0 H), IH. reflexivity.
Qed.

Lemma Count_get_In m x c :
  Count_get m x = Some c -> exists k, In (k, c) m /\ sameValueZero k x = true.
Proof.
  induction m as [|[k0 c0] m IH]; cbn; [discriminate|].
  destruct (sameValueZero k0 x) eqn:E.
  - intros [= ->]. exists k0. auto.
  - intros H. destruct (IH H) as (k & Hk & Hs). exists k. auto.
Qed.

Lemma Count_get_None m x :
  Count_get m x = None -> forall k, In k (map fst m) -> sameValueZero k x = false.
Proof.
  induction m as [|[k0 c0] m IH]; cbn; [intros _ k []|].
  destruct (sameValueZero k0 x) eqn:E; [discriminate|].
  intros H k [<-|Hk]; auto.
Qed.

Lemma Count_set_keys m k c :
  map fst (Count_set m k c)
  = match Count_get m k with
    | Some _ => map fst m
    | None => (map fst m ++ [if is_zero k then 0%float else k])%list
    end.
Proof.
  induction m as [|[k' c'] m IH]; cbn [Count_set Count_get map app]; trivial.
  destruct (sameValueZero k' k) eqn:E; cbn [map fst]; trivial.
  rewrite IH. now destruct (Count_get m k).
Qed.

Lemma distinctKeys_snoc keys k :
  distinctKeys keys -> (forall k', In k' keys -> sameValueZero k' k = false) ->
  distinctKeys (keys ++ [k]).
Proof.
  unfold distinctKeys. induction 1 as [|k0 keys H0 Hk IH]; intros Hn; cbn.
  - repeat constructor.
  - constructor.
    + apply Forall_app. split; [exact H0|]. constructor; [|constructor].
      apply Hn. now left.
    + apply IH. intros k' Hk'. apply Hn. now right.
Qed.

Lemma distinctKeys_get m k c :
  distinctKeys (map fst m) -> In (k, c) m -> Count_get m k = Some c.
Proof.
  unfold distinctKeys. induction m as [|[k0 c0] m IH]; cbn; intros HD Hin; [easy|].
  inversion HD as [|? ? H0 HD']; subst.
  destruct Hin as [[= -> ->]|Hin].
  - now rewrite sameValueZero_refl.
  - rewrite Forall_forall in H0.
    rewrite (H0 k); [now apply IH|].
    apply in_map_iff. now exists (k, c).
Qed.

Lemma distinctKeys_split (l1 l2 l1' l2' : list float) k k' :
  distinctKeys (l1 ++ k :: l2) ->
  (l1 ++ k :: l2 = l1' ++ k' :: l2')%list ->
  sameValueZero k k' = true -> l1 = l1'.
Proof.
  unfold distinctKeys. revert l1'.
  induction l1 as [|a l1 IH]; intros l1' HD E S.
  - destruct l1' as [|b l1']; trivial. cbn in E. injection E as -> ->.
    inversion HD as [|? ? H0 _]; subst. rewrite Forall_forall in H0.
    rewrite H0 in S; [discriminate | apply in_elt].
  - destruct l1' as [|b l1']; cbn in E; injection E as -> E.
    + inversion HD as [|? ? H0 _]; subst. rewrite Forall_forall in H0.
      apply sameValueZero_sym in S.
      rewrite H0 in S; [discriminate | apply in_elt].
    + f_equal. inversion HD; subst. eapply IH; eauto.
Qed.

Section Months.

Variable Number : string -> float.

Lemma monthCount_congr series k k' :
  sameValueZero k k' = true -> monthCount Number series k = monthCount Number series k'.
Proof.
  intros H. unfold Route.monthCount. f_equal. apply filter_ext.
  intros p. now apply sameValueZero_congr_r.
Qed.

Lemma monthCount_cons p series k :
  monthCount Number (p :: series) k
  = (if sameValueZero (monthOf Number p) k then 1 else 0) + monthCount Number series k.
Proof.
  unfold Route.monthCount. cbn [filter].
  now destruct (sameValueZero (monthOf Number p) k).
Qed.

Lemma monthCount_positive series p :
  In p series -> 0 < monthCount Number series (monthOf Number p).
Proof.
  intros H. unfold Route.monthCount.
  assert (Hin : In p (filter (fun q => sameValueZero (monthOf Number q) (monthOf Number p)) series)).
  { apply filter_In. split; trivial. apply sameValueZero_refl. }
  destruct (filter _ series); [destruct Hin | cbn; lia].
Qed.

Lemma monthCount_zero series k :
  monthCount Number series k = 0 -> forall p, In p series -> sameValueZero (monthOf Number p) k = false.
Proof.
  intros H p Hp. destruct (sameValueZero (monthOf Number p) k) eqn:E; trivial.
  pose proof (monthCount_positive Hp) as Hpos.
  rewrite (monthCount_congr series E) in Hpos. lia.
Qed.

Lemma Count_get_countMonth m p x :
  Count_get (countMonth Number m p) x
  = if sameValueZero (monthOf Number p) x
    then Some (match Count_get m x with Some c => c | None => 0 end + 1)
    else Count_get m x.
Proof.
  unfold Route.countMonth. rewrite Count_get_set.
  destruct (sameValueZero (monthOf Number p) x) eqn:E; trivial.
  now rewrite (Count_get_congr m E).
Qed.

(** The counts after the loop. *)
Lemma counted series : forall m x,
  Count_get (fold_left (countMonth Number) series m) x
  = match monthCount Number series x with
    | 0 => Count_get m x
    | S n => Some (match Count_get m x with Some c => c | None => 0 end + S n)
    end.
Proof.
  induction series as [|p series IH]; intros m x; [reflexivity|].
  cbn [fold_left]. rewrite IH, monthCount_cons, Count_get_countMonth.
  destruct (sameValueZero (monthOf Number p) x), (monthCount Number series x); cbn [Nat.add];
    trivial; f_equal; lia.
Qed.

Lemma countMonth_distinct m p :
  distinctKeys (map fst m) -> distinctKeys (map fst (countMonth Number m p)).
Proof.
  intros HD. unfold Route.countMonth. rewrite Count_set_keys.
  destruct (Count_get m (monthOf Number p)) eqn:E; trivial.
  apply distinctKeys_snoc; trivial.
  intros k' Hk'. rewrite (sameValueZero_congr_r k' (stored_key (monthOf Number p))).
  exact (Count_get_None E Hk').
Qed.

Lemma counted_distinct series : forall m,
  distinctKeys (map fst m) -> distinctKeys (map fst (fold_left (countMonth Number) series m)).
Proof.
  induction series as [|p series IH]; intros m HD; [exact HD|].
  cbn [fold_left]. apply IH. now apply countMonth_distinct.
Qed.

Lemma counted_keys_grow series : forall m,
  exists later, map fst (fold_left (countMonth Number) series m) = (map fst m ++ later)%list.
Proof.
  induction series as [|p series IH]; intros m.
  - exists []. now rewrite app_nil_r.
  - cbn [fold_left]. destruct (IH (countMonth Number m p)) as [later ->].
    unfold Route.countMonth. rewrite Count_set_keys.
    destruct (Count_get m (monthOf Number p)).
    + now exists later.
    + rewrite <- app_assoc. eexists. reflexivity.
Qed.

(** The entries of the count map of a series: one for each month, in the
    order the months first occur, each with the count of its month. *)
Lemma counted_entry series k c :
  In (k, c) (fold_left (countMonth Number) series []) ->
  c = monthCount Number series k /\ 0 < c.
Proof.
  intros Hin.
  apply distinctKeys_get in Hin; [|apply counted_distinct; constructor].
  rewrite counted in Hin. cbn [Count_get] in Hin.
  destruct (monthCount Number series k); [discriminate|].
  injection Hin as <-. lia.
Qed.

Lemma counted_has series p :
  In p series ->
  exists k, In (k, monthCount Number series (monthOf Number p)) (fold_left (countMonth Number) series [])
            /\ sameValueZero k (monthOf Number p) = true.
Proof.
  intros Hp. apply Count_get_In. rewrite counted. cbn [Count_get].
  pose proof (monthCount_positive Hp).
  destruct (monthCount Number series (monthOf Number p)); [lia | reflexivity].
Qed.

(** The key of the first point of a month stands right after the keys of
    the points before it. *)
Lemma counted_first pre p post :
  (forall q, In q pre -> sameValueZero (monthOf Number q) (monthOf Number p) = false) ->
  exists later,
    map fst (fold_left (countMonth Number) (pre ++ p :: post) [])
    = (map fst (fold_left (countMonth Number) pre [])
       ++ (if is_zero (monthOf Number p) then 0%float else monthOf Number p) :: later)%list.
Proof.
  intros Hnew. rewrite fold_left_app. cbn [fold_left].
  destruct (counted_keys_grow post (countMonth Number (fold_left (countMonth Number) pre []) p))
    as [later ->].
  unfold Route.countMonth at 1. rewrite Count_set_keys.
  assert (N : Count_get (fold_left (countMonth Number) pre []) (monthOf Number p) = None).
  { rewrite counted. cbn [Count_get].
    destruct (monthCount Number pre (monthOf Number p)) eqn:E; trivial.
    assert (Hex : exists q, In q pre /\ sameValueZero (monthOf Number q) (monthOf Number p) = true).
    { unfold Route.monthCount in E.
      destruct (filter (fun q => sameValueZero (monthOf Number q) (monthOf Number p)) pre)
        as [|q l] eqn:F; [discriminate|].
      exists q.
      apply (proj1 (filter_In (fun q => sameValueZero (monthOf Number q) (monthOf Number p))
                              q pre)).
      rewrite F. now left. }
    destruct Hex as (q & Hq & S). rewrite (Hnew q Hq) in S. discriminate. }
  rewrite N, <- app_assoc. exists later. reflexivity.
Qed.

(** The loop over the entries. *)

Lemma betterMonth_first_max (m : CountMap) : forall bestMonth bestCount,
  (fold_left betterMonth m (bestMonth, bestCount) = (bestMonth, bestCount)
   /\ forall k c, In (k, c) m -> (Z.of_nat c <= bestCount)%Z)
  \/ (exists m1 k c m2,
        m = (m1 ++ (k, c) :: m2)%list
        /\ fold_left betterMonth m (bestMonth, bestCount) = (k, Z.of_nat c)
        /\ (bestCount < Z.of_nat c)%Z
        /\ (forall k1 c1, In (k1, c1) m1 -> c1 < c)
        /\ (forall k2 c2, In (k2, c2) m2 -> c2 <= c)).
Proof.
  induction m as [|[k0 c0] m IH]; intros bestMonth bestCount.
  - left. split; [reflexivity | intros k c []].
  - cbn [fold_left betterMonth].
    destruct (bestCount <? Z.of_nat c0)%Z eqn:E.
    + apply Z.ltb_lt in E.
      destruct (IH k0 (Z.of_nat c0)) as [[Hf Hall]|(m1 & k & c & m2 & -> & Hf & Hc & H1 & H2)].
      * right. exists [], k0, c0, m. repeat split; trivial.
        -- intros k1 c1 [].
        -- intros k2 c2 Hin. specialize (Hall k2 c2 Hin). lia.
      * right. exists ((k0, c0) :: m1), k, c, m2. repeat split; trivial; try lia.
        intros k1 c1 [[= <- <-]|Hin]; [lia | eauto].
    + apply Z.ltb_ge in E.
      destruct (IH bestMonth bestCount) as [[Hf Hall]|(m1 & k & c & m2 & -> & Hf & Hc & H1 & H2)].
      * left. split; trivial.
        intros k c [[= <- <-]|Hin]; [lia | eauto].
      * right. exists ((k0, c0) :: m1), k, c, m2. repeat split; trivial.
        intros k1 c1 [[= <- <-]|Hin]; [lia | eauto].
Qed.

Lemma first_of_month series k :
  0 < monthCount Number series k ->
  exists pre p post,
    series = (pre ++ p :: post)%list
    /\ sameValueZero (monthOf Number p) k = true
    /\ forall q, In q pre -> sameValueZero (monthOf Number q) k = false.
Proof.
  induction series as [|x series IH]; [cbn; lia|].
  rewrite monthCount_cons. intros H.
  destruct (sameValueZero (monthOf Number x) k) eqn:E.
  - exists [], x, series. repeat split; trivial. intros q [].
  - destruct (IH H) as (pre & p & post & -> & S & Hpre).
    exists (x :: pre), p, post. repeat split; trivial.
    intros q [<-|Hq]; auto.
Qed.

(** The month the function keeps is that of the first point whose month
    is the most common. *)
Lemma kept_month (series : list YearPoint) :
  series <> [] ->
  exists pre p post bestCount,
    series = (pre ++ p :: post)%list
    /\ (exists bestMonth,
          fold_left betterMonth (fold_left (countMonth Number) series [])
                    ((-1)%float, (-1)%Z) = (bestMonth, bestCount)
          /\ sameValueZero bestMonth (monthOf Number p) = true)
    /\ (forall q, In q pre -> monthCount Number series (monthOf Number q) < monthCount Number series (monthOf Number p))
    /\ (forall q, In q post -> monthCount Number series (monthOf Number q) <= monthCount Number series (monthOf Number p)).
Proof.
  intros Hne.
  set (m := fold_left (countMonth Number) series []).
  destruct (betterMonth_first_max m (-1)%float (-1)%Z)
    as [[_ Hall]|(m1 & k & c & m2 & Hm & Hf & _ & H1 & H2)].
  { exfalso. destruct series as [|x series]; [congruence|].
    destruct (@counted_has (x :: series) x (or_introl eq_refl)) as (k & Hk & _).
    specialize (Hall _ _ Hk). lia. }
  assert (Hkc : In (k, c) m) by (rewrite Hm; apply in_elt).
  destruct (counted_entry Hkc) as [Hc Hpos].
  destruct (@first_of_month series k) as (pre & p & post & Hs & Sp & Hpre);
    [lia|].
  assert (Cp : monthCount Number series (monthOf Number p) = c)
    by (rewrite Hc; now apply monthCount_congr).
  assert (HD : distinctKeys (map fst m))
    by (apply counted_distinct; constructor).
  (* the entries before the winner are the months of the points before p *)
  assert (Hnew : forall q, In q pre -> sameValueZero (monthOf Number q) (monthOf Number p) = false).
  { intros q Hq. rewrite (sameValueZero_congr_r (monthOf Number q) Sp). auto. }
  destruct (counted_first post Hnew) as [later Hkeys].
  rewrite <- Hs in Hkeys. fold m in Hkeys.
  assert (Hm1 : map fst m1 = map fst (fold_left (countMonth Number) pre [])).
  { assert (Hk' : map fst m = (map fst m1 ++ k :: map fst m2)%list)
      by (rewrite Hm, map_app; reflexivity).
    rewrite Hk' in HD. rewrite Hk' in Hkeys.
    apply (distinctKeys_split HD Hkeys).
    apply sameValueZero_sym.
    apply (sameValueZero_trans (stored_key (monthOf Number p)) Sp). }
  exists pre, p, post, (Z.of_nat c). split; [exact Hs|]. split; [|split].
  - exists k. split; [exact Hf | now apply sameValueZero_sym].
  - intros q Hq. rewrite Cp.
    destruct (counted_has Hq) as (kq & Hin & Sq).
    assert (Hkq : In kq (map fst m1)).
    { rewrite Hm1. apply in_map_iff. eexists. split; [|exact Hin]. reflexivity. }
    apply in_map_iff in Hkq. destruct Hkq as ([kq' c1] & E & Hin1).
    cbn in E. subst kq'.
    assert (Hin1' : In (kq, c1) m) by (rewrite Hm; apply in_or_app; now left).
    destruct (counted_entry Hin1') as [-> _].
    rewrite <- (monthCount_congr series Sq).
    exact (H1 _ _ Hin1).
  - intros q Hq. rewrite Cp.
    assert (Hq' : In q series) by (rewrite Hs; apply in_or_app; right; now right).
    destruct (counted_has Hq') as (kq & Hin & _). fold m in Hin.
    rewrite Hm in Hin. apply in_app_or in Hin.
    destruct Hin as [Hin|[[= _ <-]|Hin]].
    + specialize (H1 _ _ Hin). lia.
    + lia.
    + exact (H2 _ _ Hin).
Qed.

Lemma keepMost_filter (series : list YearPoint) :
  series <> [] ->
  exists pre p post,
    series = (pre ++ p :: post)%list
    /\ (exists bestMonth,
          keepMostCommonFiscalYearEndMonth Number series
          = filter (fun q => strictEquals (monthOf Number q) bestMonth) series
          /\ sameValueZero bestMonth (monthOf Number p) = true)
    /\ (forall q, In q pre ->
          monthCount Number series (monthOf Number q)
          < monthCount Number series (monthOf Number p))
    /\ (forall q, In q post ->
          monthCount Number series (monthOf Number q)
          <= monthCount Number series (monthOf Number p)).
Proof.
  intros Hne.
  destruct (kept_month Hne)
    as (pre & p & post & bestCount & Hs & (bestMonth & Hf & S) & Hpre & Hpost).
  exists pre, p, post. split; [exact Hs|]. split; [|now split].
  exists bestMonth. split; [|exact S].
  unfold keepMostCommonFiscalYearEndMonth.
  destruct series as [|x series]; [congruence|].
  now rewrite Hf.
Qed.

(** X10. On a non-empty series [keepMostCommonFiscalYearEndMonth] keeps the
    points whose month is strictly equal to that of the first point whose
    month is the most common: no point has a more common month, and every
    point before it has a strictly less common one, so that on a tie the
    month met first wins. Months are counted as the [Map] compares its
    keys, NaN being one month. *)
Theorem keepMostCommonFiscalYearEndMonth_most_common (series : list YearPoint) :
  series <> [] ->
  exists pre p post,
    series = (pre ++ p :: post)%list
    /\ keepMostCommonFiscalYearEndMonth Number series
       = filter (fun q => strictEquals (monthOf Number q) (monthOf Number p)) series
    /\ (forall q, In q pre ->
          monthCount Number series (monthOf Number q)
          < monthCount Number series (monthOf Number p))
    /\ (forall q, In q post ->
          monthCount Number series (monthOf Number q)
          <= monthCount Number series (monthOf Number p)).
Proof.
  intros Hne.
  destruct (keepMost_filter Hne)
    as (pre & p & post & Hs & (bestMonth & Hk & S) & Hpre & Hpost).
  exists pre, p, post. repeat split; trivial.
  rewrite Hk. apply filter_ext. intros q. now apply strictEquals_congr.
Qed.

Lemma strictEquals_notNaN a b : strictEquals a b = true -> is_nan a = false.
Proof.
  unfold strictEquals. intros H. apply eqb_key in H. now apply is_nan_false.
Qed.

Lemma strictEquals_same a b c :
  strictEquals a c = true -> strictEquals b c = true -> strictEquals a b = true.
Proof.
  unfold strictEquals. intros H1 H2. apply eqb_key in H1, H2. apply eqb_key.
  destruct H1 as (Ha & _ & E1), H2 as (Hb & _ & E2). repeat split; trivial.
  revert E1 E2. by_keys.
Qed.

(** What the function returns: nothing of an empty series, and otherwise
    the points whose month is strictly equal to that of some point. *)
Lemma keepMost_form (series : list YearPoint) :
  (series = [] /\ keepMostCommonFiscalYearEndMonth Number series = [])
  \/ exists p bestMonth,
       In p series
       /\ keepMostCommonFiscalYearEndMonth Number series
          = filter (fun q => strictEquals (monthOf Number q) bestMonth) series
       /\ sameValueZero bestMonth (monthOf Number p) = true.
Proof.
  assert (D : series = [] \/ series <> [])
    by (destruct series; [now left | right; discriminate]).
  destruct D as [D|D]; [left; now rewrite D|]. right.
  destruct (keepMost_filter D)
    as (pre & p & post & Hs & (bestMonth & Hk & S) & _).
  exists p, bestMonth. repeat split; trivial.
  rewrite Hs. apply in_elt.
Qed.

Lemma keepMost_same_month (series : list YearPoint) p q :
  In p (keepMostCommonFiscalYearEndMonth Number series) ->
  In q (keepMostCommonFiscalYearEndMonth Number series) ->
  strictEquals (monthOf Number p) (monthOf Number q) = true.
Proof.
  destruct (keepMost_form series) as [[_ ->]|(p0 & bestMonth & _ & -> & _)];
    [intros []|].
  intros Hp Hq. apply filter_In in Hp, Hq.
  exact (strictEquals_same (proj2 Hp) (proj2 Hq)).
Qed.

(** X11. The kept points are a sub-series in the original order, all of
    one month, and none has a NaN month: when every month is NaN the
    result is empty, the [Map] finding NaN equal to NaN where [===] does
    not. When no month is NaN a non-empty series keeps at least one point.
    A series whose points are all of one month is returned whole, and
    applying the function to its own result changes nothing. *)
Theorem keepMostCommonFiscalYearEndMonth_one_month (series : list YearPoint) :
  let kept := keepMostCommonFiscalYearEndMonth Number series in
  (exists m, kept = filter (fun q => strictEquals (monthOf Number q) m) series)
  /\ (forall p, In p kept -> In p series /\ is_nan (monthOf Number p) = false)
  /\ (forall p q, In p kept -> In q kept ->
                  strictEquals (monthOf Number p) (monthOf Number q) = true)
  /\ ((forall p, In p series -> is_nan (monthOf Number p) = true) -> kept = [])
  /\ ((forall p, In p series -> is_nan (monthOf Number p) = false) ->
      series <> [] -> kept <> [])
  /\ ((forall p q, In p series -> In q series ->
                   strictEquals (monthOf Number p) (monthOf Number q) = true) ->
      kept = series)
  /\ keepMostCommonFiscalYearEndMonth Number kept = kept.
Proof.
  intros kept.
  pose proof (keepMost_form series) as Hform. fold kept in Hform.
  assert (Hin : forall p, In p kept -> In p series /\ is_nan (monthOf Number p) = false).
  { destruct Hform as [[_ ->]|(p0 & bestMonth & _ & -> & _)]; [intros p []|].
    intros p Hp. apply filter_In in Hp. destruct Hp as [Hp E].
    split; [exact Hp | exact (strictEquals_notNaN E)]. }
  assert (Hsame : forall p q, In p kept -> In q kept ->
                   strictEquals (monthOf Number p) (monthOf Number q) = true)
    by (intros p q; apply keepMost_same_month).
  split; [|split; [exact Hin|split; [exact Hsame|split; [|split; [|split]]]]].
  - destruct Hform as [[-> ->]|(p0 & bestMonth & _ & -> & _)];
      [now exists 0%float | now exists bestMonth].
  - intros Hnan. destruct kept as [|x l] eqn:E; trivial.
    destruct (Hin x (or_introl eq_refl)) as [Hx Nx].
    rewrite (Hnan x Hx) in Nx. discriminate Nx.
  - intros Hnum Hne.
    destruct Hform as [[-> _]|(p0 & bestMonth & Hp0 & -> & S)]; [congruence|].
    assert (Hin0 : In p0 (filter (fun q => strictEquals (monthOf Number q) bestMonth)
                                 series)).
    { apply filter_In. split; trivial.
      rewrite (strictEquals_congr (monthOf Number p0) S).
      rewrite <- sameValueZero_strictEquals by auto.
      apply sameValueZero_refl. }
    intros C. rewrite C in Hin0. destruct Hin0.
  - intros Hone.
    destruct Hform as [[-> ->]|(p0 & bestMonth & Hp0 & -> & S)]; [reflexivity|].
    apply Rule1Facts.filter_id. intros q Hq.
    rewrite (strictEquals_congr (monthOf Number q) S). now apply Hone.
  - destruct kept as [|x l] eqn:E; [reflexivity|]. rewrite <- E in *.
    destruct (@keepMost_filter kept)
      as (pre & p & post & Hs & (bestMonth & Hk & S) & _); [rewrite E; discriminate|].
    rewrite Hk. apply Rule1Facts.filter_id. intros q Hq.
    rewrite (strictEquals_congr (monthOf Number q) S).
    apply Hsame; trivial. rewrite Hs. apply in_elt.
Qed.

End Months.

(** Two September and two December year ends: September, met first,
    wins the tie. *)
Lemma keepMostCommonFiscalYearEndMonth_most_common_tie :
  fiscalYearEndMoved <> []
  /\ keepMostCommonFiscalYearEndMonth digitsToNumber fiscalYearEndMoved
     = firstn 2 fiscalYearEndMoved
  /\ monthCount digitsToNumber fiscalYearEndMoved 9 = 2
  /\ monthCount digitsToNumber fiscalYearEndMoved 12 = 2
  /\ exists pre p post,
       fiscalYearEndMoved = (pre ++ p :: post)%list
       /\ keepMostCommonFiscalYearEndMonth digitsToNumber fiscalYearEndMoved
          = filter (fun q => strictEquals (monthOf digitsToNumber q)
                                          (monthOf digitsToNumber p))
                   fiscalYearEndMoved
       /\ (forall q, In q pre ->
             monthCount digitsToNumber fiscalYearEndMoved (monthOf digitsToNumber q)
             < monthCount digitsToNumber fiscalYearEndMoved (monthOf digitsToNumber p))
       /\ (forall q, In q post ->
             monthCount digitsToNumber fiscalYearEndMoved (monthOf digitsToNumber q)
             <= monthCount digitsToNumber fiscalYearEndMoved (monthOf digitsToNumber p)).
Proof.
  assert (Hne : fiscalYearEndMoved <> []) by discriminate.
  split; [exact Hne|]. split; [reflexivity|]. split; [reflexivity|].
  split; [reflexivity|].
  exact (keepMostCommonFiscalYearEndMonth_most_common digitsToNumber Hne).
Defined.

(** ** Merge across tags and first match on the USD unit *)

Lemma find_None_all (A : Type) (f : A -> bool) (l : list A) :
  find f l = None -> forall x, In x l -> f x = false.
Proof. intros H x Hx. exact (find_none f l H x Hx). Qed.

Lemma indexKey_not_USD i :
  String.eqb (NilEmpty.string_of_uint (Nat.to_uint i)) "USD" = false.
Proof. destruct (Nat.to_uint i); reflexivity. Qed.

Lemma indexKeys_not_USD n k : In k (indexKeys n) -> String.eqb k "USD" = false.
Proof.
  unfold indexKeys. intros H. apply in_map_iff in H.
  destruct H as (i & <- & _). apply indexKey_not_USD.
Qed.

Lemma unitFacts_USD facts tag :
  unitFacts facts tag (fun u => String.eqb u "USD") = usdFacts facts tag.
Proof.
  unfold unitFacts, usdFacts.
  destruct (unitsOf facts tag) as [n|]; [|reflexivity].
  destruct n as [| b | x | s | xs | props]; cbn [isObjectLike negb oget get keys];
    trivial.
  - (* an array of units *)
    destruct (find (fun u => String.eqb u "USD") (indexKeys (List.length xs))) as [u|] eqn:F.
    + apply find_some in F. destruct F as [Hin E].
      rewrite (indexKeys_not_USD Hin) in E. discriminate E.
    + rewrite assoc_None; trivial.
      intros k' Hk'. apply combine_keys in Hk'.
      rewrite String.eqb_sym. exact (indexKeys_not_USD Hk').
  - (* an object of units *)
    destruct (find (fun u => String.eqb u "USD") (map fst props)) as [u|] eqn:F.
    + apply find_some in F. destruct F as [_ E].
      apply String.eqb_eq in E. subst u. reflexivity.
    + rewrite assoc_None; trivial.
      intros k' Hk'. rewrite String.eqb_sym. exact (find_None_all F Hk').
Qed.

(** X12. For a single tag the merge-across-tags normalisation and the
    first-match normalisation of the USD unit give the same series. For any
    tag candidates, every point of the first-match series has a point on
    the same period end in the merged series, of at least its magnitude. *)
Theorem merged_series_covers_first_match
  (localeCompare : string -> string -> comparison)
  (facts : value) (tagCandidates : list string) :
  (forall tag,
      mergeAnnualUSDSeries localeCompare facts [tag]
      = pickAnnualUSDSeries localeCompare facts [tag])
  /\ (forall q,
        In q (pickAnnualUSDSeries localeCompare facts tagCandidates) ->
        exists q',
          In q' (mergeAnnualUSDSeries localeCompare facts tagCandidates)
          /\ end_ q' = end_ q
          /\ (Math_abs (val q) <=? Math_abs (val q'))%float = true).
Proof.
  split.
  - intros tag. unfold mergeAnnualUSDSeries, pickAnnualUSDSeries.
    cbn [flat_map pickAnnualSeriesByUnit]. rewrite app_nil_r.
    unfold tagAnnual. rewrite unitFacts_USD.
    now destruct (annualOf localeCompare (collect annualPoint (usdFacts facts tag))).
  - intros q Hq. unfold pickAnnualUSDSeries in Hq.
    destruct (pickAnnualSeriesByUnit_split localeCompare facts tagCandidates
                (fun u => String.eqb u "USD"))
      as [[E _]|(pre & tag & post & Ht & _ & _ & E)]; rewrite E in Hq; [destruct Hq|].
    unfold tagAnnual in Hq. rewrite unitFacts_USD in Hq.
    apply annualOf_from_raw in Hq; [|intros p; apply qualifying_finite].
    unfold mergeAnnualUSDSeries.
    apply annualOf_covers.
    + intros p Hp. apply in_flat_map in Hp. destruct Hp as (t & _ & Hp).
      exact (qualifying_finite Hp).
    + apply in_flat_map. exists tag. split; trivial.
      rewrite Ht. apply in_elt.
Qed.

(** ** The latest value *)

Section LatestFacts.

Variable localeCompare : string -> string -> comparison.
Variable isPeriodEnd : string -> Prop.
Hypothesis localeCompare_antisym :
  forall a b, isPeriodEnd a -> isPeriodEnd b ->
              localeCompare b a = CompOpp (localeCompare a b).
Hypothesis localeCompare_eq :
  forall a b, isPeriodEnd a -> isPeriodEnd b -> localeCompare a b = Eq -> a = b.
Hypothesis localeCompare_trans :
  forall a b c, isPeriodEnd a -> isPeriodEnd b -> isPeriodEnd c ->
                localeCompare a b = Lt -> localeCompare b c = Lt ->
                localeCompare a c = Lt.

Lemma localeCompare_le_trans a b c :
  isPeriodEnd a -> isPeriodEnd b -> isPeriodEnd c ->
  localeCompare a b <> Gt -> localeCompare b c <> Gt -> localeCompare a c <> Gt.
Proof.
  intros Pa Pb Pc Hab Hbc.
  destruct (localeCompare a b) eqn:Eab; [| |congruence].
  - apply localeCompare_eq in Eab; trivial. now subst.
  - destruct (localeCompare b c) eqn:Ebc; [| |congruence].
    + apply localeCompare_eq in Ebc; trivial. subst. now rewrite Eab.
    + now rewrite (localeCompare_trans Pa Pb Pc Eab Ebc).
Qed.

Lemma descending_head x (l : list YearPoint) :
  Forall (fun p => isPeriodEnd (end_ p)) (x :: l) ->
  ordered (compareByEndDescending localeCompare) (x :: l) ->
  forall c, In c (x :: l) -> localeCompare (end_ c) (end_ x) <> Gt.
Proof.
  revert x. induction l as [|y l IH]; intros x HP Ho c Hc.
  - destruct Hc as [<-|[]]. inversion HP as [|? ? Px _]; subst.
    pose proof (@localeCompare_antisym (end_ x) (end_ x) Px Px) as H.
    destruct (localeCompare (end_ x) (end_ x)); discriminate.
  - inversion HP as [|? ? Px HP']; subst.
    inversion HP' as [|? ? Py _]; subst.
    destruct Ho as [Hxy Ho]. unfold compareByEndDescending in Hxy.
    destruct Hc as [<-|Hc].
    + apply (IH x); [constructor; [trivial|] | | now left].
      * inversion HP'; trivial.
      * destruct l; cbn; trivial. split; [|exact (proj2 Ho)].
        unfold compareByEndDescending.
        apply (@localeCompare_le_trans _ (end_ y)); trivial.
        -- inversion HP' as [|? ? _ HP'']; subst. now inversion HP''.
        -- exact (proj1 Ho).
    + apply (@localeCompare_le_trans _ (end_ y)); trivial.
      * rewrite Forall_forall in HP'. now apply HP'.
      * now apply (IH y).
Qed.

Lemma pickLatestValue_split facts tagCandidates unitKey :
  (pickLatestValue localeCompare facts tagCandidates unitKey = None
   /\ forall tag, In tag tagCandidates ->
                  collect datedPoint (unitArray facts tag unitKey) = [])
  \/ (exists pre tag post latest rest,
        tagCandidates = (pre ++ tag :: post)%list
        /\ (forall t, In t pre -> collect datedPoint (unitArray facts t unitKey) = [])
        /\ sort (compareByEndDescending localeCompare)
                (collect datedPoint (unitArray facts tag unitKey)) = latest :: rest
        /\ pickLatestValue localeCompare facts tagCandidates unitKey = Some latest).
Proof.
  induction tagCandidates as [|tag tags IH]; cbn [pickLatestValue].
  - left. split; [reflexivity | intros tag []].
  - destruct (sort (compareByEndDescending localeCompare)
                   (collect datedPoint (unitArray facts tag unitKey)))
      as [|latest rest] eqn:E.
    + assert (N : collect datedPoint (unitArray facts tag unitKey) = []).
      { apply Permutation_nil. rewrite <- E. apply sort_perm. }
      destruct IH as [[-> Hall]|(pre & t & post & latest & rest & -> & Hpre & Hs & ->)].
      * left. split; trivial. intros t [<-|Ht]; auto.
      * right. exists (tag :: pre), t, post, latest, rest. repeat split; trivial.
        intros t' [<-|Ht']; auto.
    + right. exists [], tag, tags, latest, rest. repeat split; trivial.
      intros t [].
Qed.

(** X13. [pickLatestValue] answers with a dated fact of the first tag
    candidate that has one, and with [null] when none has. Where the
    collation is a total order on the period ends of that tag's facts, no
    fact of the tag ends later than the one returned. *)
Theorem pickLatestValue_latest
  (facts : value) (tagCandidates : list string) (unitKey : string) :
  match pickLatestValue localeCompare facts tagCandidates unitKey with
  | None =>
      forall tag, In tag tagCandidates ->
                  collect datedPoint (unitArray facts tag unitKey) = []
  | Some latest =>
      exists pre tag post,
        tagCandidates = (pre ++ tag :: post)%list
        /\ (forall t, In t pre -> collect datedPoint (unitArray facts t unitKey) = [])
        /\ In latest (collect datedPoint (unitArray facts tag unitKey))
        /\ (Forall (fun c => isPeriodEnd (end_ c))
                   (collect datedPoint (unitArray facts tag unitKey)) ->
            forall c, In c (collect datedPoint (unitArray facts tag unitKey)) ->
                      localeCompare (end_ c) (end_ latest) <> Gt)
  end.
Proof.
  destruct (pickLatestValue_split facts tagCandidates unitKey)
    as [[-> Hall]|(pre & tag & post & latest & rest & Ht & Hpre & Hs & ->)];
    [exact Hall|].
  exists pre, tag, post. split; [exact Ht|]. split; [exact Hpre|].
  set (cands := collect datedPoint (unitArray facts tag unitKey)) in *.
  assert (HP : Permutation (latest :: rest) cands)
    by (rewrite <- Hs; apply sort_perm).
  split.
  - eapply Permutation_in; [exact HP | now left].
  - intros HD c Hc.
    apply (@descending_head latest rest).
    + eapply Permutation_Forall; [symmetry; exact HP | exact HD].
    + rewrite <- Hs.
      apply (sort_ordered (P := fun p => isPeriodEnd (end_ p))); trivial.
      intros a b Pa Pb. unfold compareByEndDescending.
      now apply localeCompare_antisym.
    + eapply Permutation_in; [symmetry; exact HP | exact Hc].
Qed.

End LatestFacts.

(** Of three debt facts out of order, the one of 2020-12-31 is the
    latest. *)
Lemma pickLatestValue_latest_debt :
  pickLatestValue String.compare debtOverTheYears
                  ["LongTermDebtNoncurrent"; "LongTermDebt"] "USD"
  = Some {| end_ := "2020-12-31"; val := 7 |}
  /\ exists pre tag post,
       ["LongTermDebtNoncurrent"; "LongTermDebt"] = (pre ++ tag :: post)%list
       /\ (forall t, In t pre ->
             collect datedPoint (unitArray debtOverTheYears t "USD") = [])
       /\ In {| end_ := "2020-12-31"; val := 7 |}
             (collect datedPoint (unitArray debtOverTheYears tag "USD"))
       /\ (Forall (fun c => True)
                  (collect datedPoint (unitArray debtOverTheYears tag "USD")) ->
           forall c, In c (collect datedPoint (unitArray debtOverTheYears tag "USD")) ->
                     String.compare (end_ c) "2020-12-31" <> Gt).
Proof.
  assert (E : pickLatestValue String.compare debtOverTheYears
                ["LongTermDebtNoncurrent"; "LongTermDebt"] "USD"
              = Some {| end_ := "2020-12-31"; val := 7 |}) by reflexivity.
  split; [exact E|].
  pose proof (@pickLatestValue_latest String.compare (fun _ => True)
                (fun a b _ _ => String.compare_antisym b a)
                (fun a b _ _ => String.compare_eq_iff a b)
                (fun a b c _ _ _ => @string_compare_trans a b c)
                debtOverTheYears ["LongTermDebtNoncurrent"; "LongTermDebt"] "USD")
    as H.
  rewrite E in H. exact H.
Defined.

(** ** The binary search on any history *)

Lemma searchLoop_safe history isoDate lo hi ans :
  (0 <= lo)%Z -> (hi < Z.of_nat (List.length history))%Z ->
  (ans = (-1)%Z
   \/ exists h, nth_error history (Z.to_nat ans) = Some h /\ (0 <= ans)%Z
                /\ str_le (date h) isoDate = true) ->
  exists k,
    searchLoop history isoDate lo hi ans = Return k
    /\ (k = (-1)%Z
        \/ exists h, nth_error history (Z.to_nat k) = Some h /\ (0 <= k)%Z
                     /\ str_le (date h) isoDate = true).
Proof.
  funelim (searchLoop history isoDate lo hi ans); intros Hlo Hhi Hans.
  - exists ans. now split.
  - exfalso.
    assert (Hmid : (lo <= (lo + hi) / 2 <= hi)%Z)
      by (split; [apply Z.div_le_lower_bound | apply Z.div_le_upper_bound]; lia).
    unfold elementZ in Heq.
    destruct ((lo + hi) / 2 <? 0)%Z eqn:N; [apply Z.ltb_lt in N; lia|].
    destruct (element_in_range (l := history) (i := Z.to_nat ((lo + hi) / 2)))
      as (x & _ & Hx); [lia|].
    rewrite Hx in Heq. discriminate Heq.
  - assert (Hmid : (lo <= (lo + hi) / 2 <= hi)%Z)
      by (split; [apply Z.div_le_lower_bound | apply Z.div_le_upper_bound]; lia).
    unfold elementZ in Heq0.
    destruct ((lo + hi) / 2 <? 0)%Z; [discriminate|].
    unfold element in Heq0.
    destruct (nth_error history (Z.to_nat ((lo + hi) / 2))) as [m|] eqn:Hm;
      [|discriminate].
    injection Heq0 as ->.
    apply H; trivial; try lia.
    right. exists h. repeat split; trivial. lia.
  - assert (Hmid : (lo <= (lo + hi) / 2 <= hi)%Z)
      by (split; [apply Z.div_le_lower_bound | apply Z.div_le_upper_bound]; lia).
    apply H; trivial; lia.
Qed.

Lemma closeOnOrBefore_returns (history : list DailyClose) (isoDate : string) :
  exists answer,
    closeOnOrBefore history isoDate = Return answer
    /\ forall c, answer = Some c ->
         exists h, In h history /\ str_le (date h) isoDate = true /\ close h = c.
Proof.
  unfold closeOnOrBefore.
  destruct (@searchLoop_safe history isoDate 0
              (Z.of_nat (List.length history) - 1) (-1))
    as (k & -> & Hk); [lia | lia | now left|].
  cbn [bind].
  destruct Hk as [->|(h & Hh & Hk & Hle)].
  - exists None. split; [reflexivity | discriminate].
  - apply Z.leb_le in Hk. rewrite Hk. apply Z.leb_le in Hk.
    unfold elementZ, element.
    destruct (k <? 0)%Z eqn:N; [apply Z.ltb_lt in N; lia|].
    rewrite Hh. cbn [bind].
    exists (Some (close h)). split; [reflexivity|].
    intros c [= <-]. exists h. repeat split; trivial.
    eapply nth_error_In, Hh.
Qed.

(** X14. On any history, sorted or not, [closeOnOrBefore] never throws:
    every index the binary search reads is inside the array. A close it
    returns is that of an entry dated on or before the query date, so it
    returns [null] when no entry is. *)
Theorem closeOnOrBefore_any_history (history : list DailyClose) (isoDate : string) :
  exists answer,
    closeOnOrBefore history isoDate = Return answer
    /\ (forall c, answer = Some c ->
          exists h, In h history /\ str_le (date h) isoDate = true /\ close h = c)
    /\ ((forall h, In h history -> str_le (date h) isoDate = false) ->
        answer = None).
Proof.
  destruct (closeOnOrBefore_returns history isoDate) as (answer & E & Hsome).
  exists answer. split; [exact E|]. split; [exact Hsome|].
  intros Hnone. destruct answer as [c|]; trivial.
  destruct (Hsome c eq_refl) as (h & Hin & Hle & _).
  rewrite (Hnone h Hin) in Hle. discriminate Hle.
Qed.

(** ** The latest quote

    Strings. *)

Lemma allChars_app test a b :
  allChars test (a ++ b) = allChars test a && allChars test b.
Proof.
  induction a as [|c a IH]; cbn; trivial. now rewrite IH, andb_assoc.
Qed.

Lemma allChars_weaken (test test' : ascii -> bool) s :
  (forall c, test c = true -> test' c = true) ->
  allChars test s = true -> allChars test' s = true.
Proof.
  intros H. induction s as [|c s IH]; cbn; trivial.
  intros E. apply andb_prop in E. destruct E as [Ec Es].
  now rewrite (H c Ec), (IH Es).
Qed.

Lemma append_assoc (a b c : string) : (a ++ b) ++ c = a ++ b ++ c.
Proof. induction a as [|x a IH]; cbn; trivial. now rewrite IH. Qed.

Lemma append_nil_r (a : string) : a ++ "" = a.
Proof. induction a as [|x a IH]; cbn; trivial. now rewrite IH. Qed.

Lemma removeAll_app c a b : removeAll c (a ++ b) = removeAll c a ++ removeAll c b.
Proof.
  induction a as [|d a IH]; cbn; trivial.
  destruct (Ascii.eqb d c); cbn; now rewrite IH.
Qed.

Lemma removeAll_none c s :
  allChars (fun d => negb (Ascii.eqb d c)) s = true -> removeAll c s = s.
Proof.
  induction s as [|d s IH]; cbn; trivial.
  intros E. apply andb_prop in E. destruct E as [Ed Es].
  apply negb_true_iff in Ed. now rewrite Ed, (IH Es).
Qed.

Lemma split_nonempty sep s : split sep s <> [].
Proof.
  destruct s as [|c s]; cbn; [discriminate|].
  destruct (Ascii.eqb c sep); [discriminate|].
  destruct (split sep s); discriminate.
Qed.

Lemma split_at sep a b :
  allChars (fun d => negb (Ascii.eqb d sep)) a = true ->
  split sep (a ++ String sep b) = a :: split sep b.
Proof.
  induction a as [|d a IH]; cbn.
  - intros _. now rewrite Ascii.eqb_refl.
  - intros E. apply andb_prop in E. destruct E as [Ed Ea].
    apply negb_true_iff in Ed. now rewrite Ed, (IH Ea).
Qed.

Lemma split_none sep a :
  allChars (fun d => negb (Ascii.eqb d sep)) a = true -> split sep a = [a].
Proof.
  induction a as [|d a IH]; cbn; trivial.
  intros E. apply andb_prop in E. destruct E as [Ed Ea].
  apply negb_true_iff in Ed. now rewrite Ed, (IH Ea).
Qed.

Lemma trimEnd_none s :
  allChars (fun c => negb (isWhiteSpace c)) s = true -> trimEnd s = s.
Proof.
  induction s as [|c s IH]; cbn; trivial.
  intros E. apply andb_prop in E. destruct E as [Ec Es].
  apply negb_true_iff in Ec. rewrite (IH Es), Ec. now destruct s.
Qed.

Lemma trim_none s :
  allChars (fun c => negb (isWhiteSpace c)) s = true -> trim s = s.
Proof.
  intros E. unfold trim.
  assert (S : trimStart s = s).
  { destruct s as [|c s]; cbn; trivial. cbn in E.
    apply andb_prop in E. destruct E as [Ec _].
    apply negb_true_iff in Ec. now rewrite Ec. }
  rewrite S. now apply trimEnd_none.
Qed.

Lemma toLowerCase_app a b : toLowerCase (a ++ b) = toLowerCase a ++ toLowerCase b.
Proof. induction a as [|c a IH]; cbn; trivial. now rewrite IH. Qed.

Lemma prefix_app t b : prefix t (t ++ b) = true.
Proof.
  induction t as [|c t IH]; cbn; [now destruct b|].
  destruct (ascii_dec c c); [exact IH | congruence].
Qed.

Lemma includes_app t a b : includes t (a ++ t ++ b) = true.
Proof.
  induction a as [|c a IH].
  - cbn [append]. destruct (t ++ b) eqn:E; cbn [includes];
      rewrite <- E, prefix_app; reflexivity.
  - cbn [append includes]. rewrite IH. apply orb_true_r.
Qed.

Lemma indexOf_nth x l i : indexOf x l = Some i -> nth_error l i = Some x.
Proof.
  revert i. induction l as [|y l IH]; intros i; cbn; [discriminate|].
  destruct (String.eqb y x) eqn:E.
  - intros [= <-]. apply String.eqb_eq in E. now subst.
  - destruct (indexOf x l) as [j|]; cbn; [|discriminate].
    intros [= <-]. now apply IH.
Qed.

(** Lines of plain cells. *)

Lemma plainChar_not_space c : plainChar c = true -> negb (isWhiteSpace c) = true.
Proof. unfold plainChar. intros H. now apply andb_prop in H. Qed.

Lemma plainChar_not_comma c :
  plainChar c = true -> negb (Ascii.eqb c ","%char) = true.
Proof. unfold plainChar. intros H. now apply andb_prop in H. Qed.

Lemma csvLine_cons c line :
  line <> [] -> csvLine (c :: line) = c ++ String ","%char (csvLine line).
Proof. destruct line; [congruence | reflexivity]. Qed.

Lemma csvLine_no_space line :
  Forall plainCell line ->
  allChars (fun c => negb (isWhiteSpace c)) (csvLine line) = true.
Proof.
  induction 1 as [|c line [_ Hc] Hl IH]; [reflexivity|].
  destruct line as [|c' line].
  - cbn. exact (allChars_weaken plainChar_not_space Hc).
  - rewrite csvLine_cons by discriminate.
    rewrite allChars_app. cbn [allChars].
    rewrite (allChars_weaken plainChar_not_space Hc), IH. reflexivity.
Qed.

Lemma csvLine_not_empty line :
  Forall plainCell line -> line <> [] -> csvLine line <> "".
Proof.
  intros HP Hne. destruct line as [|c line]; [congruence|].
  inversion HP as [|? ? [Hc _] _]; subst.
  destruct line; cbn; destruct c; cbn; congruence.
Qed.

Lemma cells_csvLine line :
  Forall plainCell line -> line <> [] -> cells (csvLine line) = line.
Proof.
  unfold cells. induction 1 as [|c line [_ Hc] Hl IH]; [congruence|]. intros _.
  assert (T : trim c = c)
    by (apply trim_none; exact (allChars_weaken plainChar_not_space Hc)).
  destruct line as [|c' line].
  - cbn [csvLine concat].
    rewrite split_none by exact (allChars_weaken plainChar_not_comma Hc).
    cbn. now rewrite T.
  - rewrite csvLine_cons by discriminate.
    rewrite split_at by exact (allChars_weaken plainChar_not_comma Hc).
    cbn [map]. rewrite T, IH by discriminate. reflexivity.
Qed.

Lemma csvLine_holds line h :
  In h line -> exists before after, csvLine line = before ++ h ++ after.
Proof.
  induction line as [|c line IH]; [intros []|].
  intros [->|Hin].
  - destruct line as [|c' line].
    + exists "", "". cbn. now rewrite append_nil_r.
    + exists "", (String ","%char (csvLine (c' :: line))).
      now rewrite csvLine_cons by discriminate.
  - destruct (IH Hin) as (before & after & E).
    destruct line as [|c' line]; [destruct Hin|].
    exists (c ++ String ","%char before), after.
    rewrite csvLine_cons by discriminate. rewrite E.
    now rewrite append_assoc.
Qed.

Lemma whiteSpace_breaks c :
  Ascii.eqb c "010"%char || Ascii.eqb c "013"%char = true -> isWhiteSpace c = true.
Proof.
  intros H. apply orb_prop in H.
  destruct H as [H|H]; apply Ascii.eqb_eq in H; subst; reflexivity.
Qed.

Lemma no_space_no_break (b : ascii) s :
  isWhiteSpace b = true ->
  allChars (fun c => negb (isWhiteSpace c)) s = true ->
  allChars (fun d => negb (Ascii.eqb d b)) s = true.
Proof.
  intros Hb. apply allChars_weaken. intros c Hc.
  destruct (Ascii.eqb c b) eqn:E; trivial.
  apply Ascii.eqb_eq in E. subst. now rewrite Hb in Hc.
Qed.

(** The lines of a text that starts with a line free of white space. *)
Lemma nonBlankLines_first line b more :
  allChars (fun c => negb (isWhiteSpace c)) line = true -> line <> "" ->
  lineBreak b ->
  nonBlankLines (line ++ b ++ more) = line :: nonBlankLines more.
Proof.
  intros Hs Hne Hb. unfold nonBlankLines.
  assert (R : removeAll "013"%char (line ++ b ++ more)
              = line ++ String "010"%char (removeAll "013"%char more)).
  { rewrite removeAll_app, removeAll_app.
    rewrite removeAll_none by (apply no_space_no_break; trivial).
    now destruct Hb as [->| ->]. }
  rewrite R, split_at by (apply no_space_no_break; trivial).
  cbn [map filter]. rewrite (trim_none Hs).
  destruct line; [congruence | reflexivity].
Qed.

Lemma nonBlankLines_only line :
  allChars (fun c => negb (isWhiteSpace c)) line = true -> line <> "" ->
  nonBlankLines line = [line].
Proof.
  intros Hs Hne. unfold nonBlankLines.
  rewrite removeAll_none by (apply no_space_no_break; trivial).
  rewrite split_none by (apply no_space_no_break; trivial).
  cbn [map filter]. rewrite (trim_none Hs).
  destruct line; [congruence | reflexivity].
Qed.

Lemma trim_blank s : allChars isWhiteSpace s = true -> trim s = "".
Proof.
  unfold trim. induction s as [|c s IH]; cbn; trivial.
  intros E. apply andb_prop in E. destruct E as [Ec Es]. rewrite Ec. now apply IH.
Qed.

Lemma split_blank sep s :
  allChars isWhiteSpace s = true ->
  Forall (fun piece => allChars isWhiteSpace piece = true) (split sep s).
Proof.
  induction s as [|c s IH]; cbn.
  - repeat constructor.
  - intros E. apply andb_prop in E. destruct E as [Ec Es].
    specialize (IH Es).
    destruct (Ascii.eqb c sep).
    + constructor; trivial.
    + destruct (split sep s) as [|piece pieces].
      * constructor; [cbn; now rewrite Ec | constructor].
      * inversion IH as [|? ? Hp Hps]; subst.
        constructor; [cbn; now rewrite Ec | exact Hps].
Qed.

Lemma removeAll_blank c s :
  allChars isWhiteSpace s = true -> allChars isWhiteSpace (removeAll c s) = true.
Proof.
  induction s as [|d s IH]; cbn; trivial.
  intros E. apply andb_prop in E. destruct E as [Ed Es].
  destruct (Ascii.eqb d c); cbn; [|rewrite Ed]; now apply IH.
Qed.

Lemma nonBlankLines_blank text :
  allChars isWhiteSpace text = true -> nonBlankLines text = [].
Proof.
  intros E. unfold nonBlankLines.
  pose proof (split_blank "010"%char (removeAll_blank "013"%char E)) as H.
  induction H as [|piece pieces Hp _ IH]; cbn; trivial.
  now rewrite (trim_blank Hp).
Qed.

Section CsvFacts.

Variable Number : string -> float.

Lemma finiteOrNull_finite x y : finiteOrNull x = Some y -> y = x /\ is_finite y = true.
Proof.
  unfold finiteOrNull, Number_isFinite. destruct (is_finite x) eqn:E; [|discriminate].
  now intros [= <-].
Qed.

(** X15. [parseStooqClose] returns a finite number or [null], never NaN or
    an infinity. It returns [null] on a text of white space only, and on a
    text whose only non-blank line contains the word close in any letter
    case: a header without a data line, or a quote without header whose
    symbol happens to contain the word. *)
Theorem parseStooqClose_finite_or_null (csvText : string) :
  (forall close, parseStooqClose Number csvText = Some close ->
                 is_finite close = true)
  /\ (allChars isWhiteSpace csvText = true ->
      parseStooqClose Number csvText = None)
  /\ (forall line,
        nonBlankLines csvText = [line] ->
        includes "close" (toLowerCase line) = true ->
        parseStooqClose Number csvText = None).
Proof.
  split; [|split].
  - intros close. unfold parseStooqClose.
    destruct (nonBlankLines csvText) as [|first rest]; [discriminate|].
    destruct (includes "close" (toLowerCase first)).
    + destruct rest as [|second rest]; [discriminate|].
      destruct (indexOf "close" (map toLowerCase (cells first))); [|discriminate].
      intros H. now apply finiteOrNull_finite in H.
    + destruct (List.length (cells first) <? 7)%nat; [discriminate|].
      intros H. now apply finiteOrNull_finite in H.
  - intros E. unfold parseStooqClose. now rewrite (nonBlankLines_blank E).
  - intros line E I. unfold parseStooqClose. now rewrite E, I.
Qed.

(** X16. The two layouts of a Stooq quote, for lines of plain cells (not
    empty, free of commas and white space) ended by LF or CR LF. With a
    header line, the close is read from the first data line at the column
    whose header cell is the word close in any letter case, wherever that
    column stands. Without one (the first line does not contain the word)
    it is read from the seventh cell, and the answer is [null] when the
    line has fewer than seven cells. In both, a cell that is not a finite
    number gives [null]. *)
Theorem parseStooqClose_layouts
  (header row : list string) (b tail : string) (closeIndex : nat) :
  Forall plainCell header -> header <> [] ->
  Forall plainCell row -> row <> [] ->
  lineBreak b ->
  tail = "" \/ (exists b' more, lineBreak b' /\ tail = b' ++ more) ->
  (indexOf "close" (map toLowerCase header) = Some closeIndex ->
   parseStooqClose Number (csvLine header ++ b ++ csvLine row ++ tail)
   = finiteOrNull (numberAt Number row closeIndex))
  /\ (includes "close" (toLowerCase (csvLine row)) = false ->
      parseStooqClose Number (csvLine row ++ tail)
      = if (List.length row <? 7)%nat then None
        else finiteOrNull (numberAt Number row 6)).
Proof.
  intros Hh Hhne Hr Hrne Hb Htail.
  assert (Lr : exists rest, nonBlankLines (csvLine row ++ tail) = csvLine row :: rest).
  { destruct Htail as [->|(b' & more & Hb' & ->)].
    - rewrite append_nil_r. exists [].
      apply nonBlankLines_only;
        [now apply csvLine_no_space | now apply csvLine_not_empty].
    - eexists. apply nonBlankLines_first; trivial;
        [now apply csvLine_no_space | now apply csvLine_not_empty]. }
  destruct Lr as [rest Lr].
  split.
  - intros Hi. unfold parseStooqClose.
    rewrite nonBlankLines_first, Lr; trivial;
      [|now apply csvLine_no_space | now apply csvLine_not_empty].
    assert (I : includes "close" (toLowerCase (csvLine header)) = true).
    { pose proof (indexOf_nth Hi) as Hn. apply nth_error_In in Hn.
      apply in_map_iff in Hn. destruct Hn as (h & Eh & Hin).
      destruct (csvLine_holds Hin) as (before & after & ->).
      rewrite !toLowerCase_app, Eh. apply includes_app. }
    rewrite I, !cells_csvLine, Hi; trivial.
  - intros I. unfold parseStooqClose.
    rewrite Lr, I, cells_csvLine; trivial.
Qed.

End CsvFacts.

(** A quote of AAPL with and without the header line: the close is the
    seventh cell in both. *)
Lemma parseStooqClose_layouts_quote :
  (forall Number,
      parseStooqClose Number (csvLine quoteHeader ++ crlf ++ csvLine quoteRow ++ crlf)
      = finiteOrNull (Number "181.18"))
  /\ (forall Number,
        parseStooqClose Number (csvLine quoteRow ++ crlf)
        = finiteOrNull (Number "181.18")).
Proof.
  assert (Hh : Forall plainCell quoteHeader)
    by (repeat constructor; discriminate).
  assert (Hr : Forall plainCell quoteRow)
    by (repeat constructor; discriminate).
  assert (Hb : lineBreak crlf) by (right; reflexivity).
  assert (Ht : crlf = "" \/ exists b' more, lineBreak b' /\ crlf = b' ++ more)
    by (right; exists crlf, ""; split; [exact Hb | reflexivity]).
  split; intros Number;
    destruct (@parseStooqClose_layouts Number quoteHeader quoteRow crlf crlf 6
                Hh ltac:(discriminate) Hr ltac:(discriminate) Hb Ht) as [H1 H2].
  - exact (H1 eq_refl).
  - exact (H2 eq_refl).
Defined.

(** ** The daily history *)

Section HistoryFacts.

Variable Number : string -> float.
Variable localeCompare : string -> string -> comparison.

(** On the dates of the history the collation is consistent and agrees
    with the order of code units. *)
Variable isDate : string -> Prop.
Hypothesis localeCompare_antisym :
  forall a b, isDate a -> isDate b ->
              localeCompare b a = CompOpp (localeCompare a b).
Hypothesis localeCompare_code_units :
  forall a b, isDate a -> isDate b ->
              localeCompare a b <> Gt -> str_le a b = true.

Lemma ordered_sortedByDate (history : list DailyClose) :
  Forall (fun h => isDate (date h)) history ->
  ordered (fun a b => localeCompare (date a) (date b)) history ->
  sortedByDate history.
Proof.
  unfold sortedByDate.
  induction history as [|h history IH]; intros HD Ho; [constructor|].
  inversion HD as [|? ? Dh HD']; subst.
  constructor; [apply IH; [exact HD' | exact (ordered_tail Ho)]|].
  destruct history as [|h' history]; constructor.
  inversion HD' as [|? ? Dh' _]; subst.
  apply localeCompare_code_units; trivial. exact (proj1 Ho).
Qed.

Lemma dailyCloseOf_entry dateIdx closeIdx line h :
  dailyCloseOf Number dateIdx closeIdx line = Some h ->
  10 <= String.length (date h) /\ is_finite (close h) = true
  /\ nth_error (cells line) dateIdx = Some (date h)
  /\ close h = numberAt Number (cells line) closeIdx.
Proof.
  unfold dailyCloseOf.
  destruct (nth_error (cells line) dateIdx) as [d|]; [|discriminate].
  destruct (10 <=? String.length d)%nat eqn:L; [|discriminate].
  destruct (Number_isFinite (numberAt Number (cells line) closeIdx)) eqn:F;
    [|discriminate].
  intros [= <-]. cbn. apply Nat.leb_le in L. auto.
Qed.

(** X17. The daily history made of a response text holds only entries with
    a date of at least 10 characters and a finite close, and is empty when
    the text has fewer than two non-blank lines. Where the collation is
    consistent and agrees with code-unit order on the dates, the history
    is sorted ascending by date, which is what [closeOnOrBefore] requires
    of it. *)
Theorem dailyHistoryOf_sorted (text : string) :
  let history := dailyHistoryOf Number localeCompare text in
  Forall (fun h => 10 <= String.length (date h) /\ is_finite (close h) = true)
         history
  /\ (List.length (nonBlankLines text) < 2 -> history = [])
  /\ (Forall (fun h => isDate (date h)) history -> sortedByDate history).
Proof.
  intros history. subst history. unfold dailyHistoryOf.
  destruct (List.length (nonBlankLines text) <? 2)%nat eqn:L.
  { repeat split; trivial; constructor. }
  apply Nat.ltb_ge in L.
  destruct (nonBlankLines text) as [|first rest]; [cbn in L; lia|].
  split; [|split; [intros H; cbn [List.length] in *; lia|]].
  - destruct (indexOf "date" (map toLowerCase (cells first))) as [dateIdx|];
      [|constructor].
    destruct (indexOf "close" (map toLowerCase (cells first))) as [closeIdx|];
      [|constructor].
    apply Forall_forall. intros h Hh. apply sort_In in Hh.
    apply collect_In in Hh. destruct Hh as (line & _ & Hh).
    apply dailyCloseOf_entry in Hh. tauto.
  - destruct (indexOf "date" (map toLowerCase (cells first))) as [dateIdx|];
      [|constructor].
    destruct (indexOf "close" (map toLowerCase (cells first))) as [closeIdx|];
      [|constructor].
    intros HD. apply ordered_sortedByDate; trivial.
    apply (sort_ordered (P := fun h => isDate (date h))).
    + intros a b. apply localeCompare_antisym.
    + eapply Permutation_Forall; [apply sort_perm | exact HD].
Qed.

End HistoryFacts.

Lemma compare_le a b : String.compare a b <> Gt -> str_le a b = true.
Proof. unfold str_le, String.leb. destruct (String.compare a b); congruence. Qed.

(** Two trading days sent latest first come out in date order. *)
Lemma dailyHistoryOf_sorted_two_days :
  dailyHistoryOf digitsToNumber String.compare twoDaysOfHistory
  = [ {| date := "2020-01-02"; close := 10 |};
      {| date := "2020-01-03"; close := 11 |} ]
  /\ sortedByDate (dailyHistoryOf digitsToNumber String.compare twoDaysOfHistory).
Proof.
  destruct (@dailyHistoryOf_sorted digitsToNumber String.compare (fun _ => True)
              (fun a b _ _ => String.compare_antisym b a)
              (fun a b _ _ => @compare_le a b)
              twoDaysOfHistory) as (_ & _ & Hs).
  split; [reflexivity|]. apply Hs. apply Forall_forall. trivial.
Defined.

(** ** The knobs of the query string *)

Section HandlerFacts.

Variable localeCompare : string -> string -> comparison.
Variable Number : string -> float.
Variable Date_getTime : string -> float.
Variable Math_round : float -> float.
Variable Math_pow : float -> float -> float.

Lemma numParam_finite searchParams key def :
  is_finite def = true -> is_finite (numParam Number searchParams key def) = true.
Proof.
  intros H. unfold numParam, Number_isFinite.
  destruct (searchParams_get searchParams key) as [s|].
  - destruct (is_finite (Number s)) eqn:E; trivial.
  - exact H.
Qed.

Lemma growthBasisOf_key b : growthBasisOf (Rule1.growthBasisKey b) = b.
Proof. destruct b; reflexivity. Qed.

Lemma growthBasisOf_other raw :
  (forall b, raw <> Rule1.growthBasisKey b) -> growthBasisOf raw = Rule1.bvps_5y.
Proof.
  intros H. unfold growthBasisOf.
  destruct (String.eqb raw "bvps_5y"); trivial.
  destruct (String.eqb raw "bvps_10y") eqn:E1;
    [apply String.eqb_eq in E1; exfalso; now apply (H Rule1.bvps_10y)|].
  destruct (String.eqb raw "fcf_5y") eqn:E2;
    [apply String.eqb_eq in E2; exfalso; now apply (H Rule1.fcf_5y)|].
  destruct (String.eqb raw "fcf_10y") eqn:E3;
    [apply String.eqb_eq in E3; exfalso; now apply (H Rule1.fcf_10y)|].
  destruct (String.eqb raw "eps_5y") eqn:E4;
    [apply String.eqb_eq in E4; exfalso; now apply (H Rule1.eps_5y)|].
  destruct (String.eqb raw "eps_10y") eqn:E5;
    [apply String.eqb_eq in E5; exfalso; now apply (H Rule1.eps_10y)|].
  reflexivity.
Qed.

(** X18. Whatever the query string, the knobs [GET] hands to the engine
    have a finite growth estimate, desired return and margin of safety,
    and a horizon that is never below 1: a parameter that is absent, or
    not a finite number, is replaced by its default. The growth basis is
    the one the query names, and [bvps_5y] when it names none or an unknown
    one. *)
Theorem assumptions_sanitised (searchParams : URLSearchParams) :
  let knobs := assumptions Number Math_round searchParams in
  is_finite (Rule1.analystGrowth knobs) = true
  /\ is_finite (Rule1.desiredReturn knobs) = true
  /\ is_finite (Rule1.marginOfSafetyPercent knobs) = true
  /\ (Rule1.years knobs <? 1)%float = false
  /\ (forall key def,
        searchParams_get searchParams key = None ->
        numParam Number searchParams key def = def)
  /\ (forall b,
        searchParams_get searchParams "growthBasis" = Some (Rule1.growthBasisKey b) ->
        Rule1.growthBasis knobs = b)
  /\ (forall raw,
        searchParams_get searchParams "growthBasis" = Some raw ->
        (forall b, raw <> Rule1.growthBasisKey b) ->
        Rule1.growthBasis knobs = Rule1.bvps_5y)
  /\ (searchParams_get searchParams "growthBasis" = None ->
      Rule1.growthBasis knobs = Rule1.bvps_5y).
Proof.
  intros knobs. subst knobs. unfold assumptions. cbn.
  split; [now apply numParam_finite|].
  split; [now apply numParam_finite|].
  split; [now apply numParam_finite|].
  split; [apply Rule1Facts.Math_max_one_least|].
  split; [|split; [|split]].
  - intros key def E. unfold numParam. now rewrite E.
  - intros b ->. apply growthBasisOf_key.
  - intros raw -> H. now apply growthBasisOf_other.
  - intros ->. reflexivity.
Qed.

End HandlerFacts.

(** ** The P/E by year and the valuation *)

Lemma positive_of_not_le x :
  is_finite x = true -> (x <=? 0)%float = false -> (0 <? x)%float = true.
Proof.
  intros F L. destruct (0 <? x)%float eqn:E; trivial.
  assert (C : (x <=? 0)%float = true).
  { apply nltb_leb; trivial;
      [apply is_nan_false; reflexivity | now apply is_finite_notNaN]. }
  congruence.
Qed.

Lemma peAt_returns epsMap history e :
  exists m,
    peAt epsMap history e = Return m
    /\ metricEnd m = e
    /\ forall v, metricVal m = Some v ->
         exists eps px,
           Map_get epsMap e = Some eps
           /\ is_finite eps = true /\ (0 <? eps)%float = true
           /\ In px history /\ str_le (date px) e = true
           /\ is_finite (close px) = true
           /\ v = (close px / eps)%float.
Proof.
  unfold peAt.
  destruct (Map_get epsMap e) as [eps|];
    [|eexists; split; [reflexivity|]; split; [reflexivity | discriminate]].
  destruct (Number_isFinite eps) eqn:F; cbn [negb orb];
    [|eexists; split; [reflexivity|]; split; [reflexivity | discriminate]].
  destruct (eps <=? 0)%float eqn:L;
    [eexists; split; [reflexivity|]; split; [reflexivity | discriminate]|].
  destruct (closeOnOrBefore_returns history e) as (answer & -> & Hsome).
  cbn [bind].
  destruct answer as [c|];
    [|eexists; split; [reflexivity|]; split; [reflexivity | discriminate]].
  destruct (Number_isFinite c) eqn:Fc; cbn [negb];
    [|eexists; split; [reflexivity|]; split; [reflexivity | discriminate]].
  eexists. split; [reflexivity|]. split; [reflexivity|].
  cbn. intros v [= <-].
  destruct (Hsome c eq_refl) as (px & Hin & Hle & <-).
  exists eps, px. repeat split; trivial.
  now apply positive_of_not_le.
Qed.

Lemma mapM_returns (A B : Type) (f : A -> completion B) (Q : A -> B -> Prop)
  (l : list A) :
  (forall x, exists y, f x = Return y /\ Q x y) ->
  exists ys, mapM f l = Return ys /\ Forall2 Q l ys.
Proof.
  intros H. induction l as [|x l (ys & E & HQ)]; cbn [mapM].
  - exists []. split; [reflexivity | constructor].
  - destruct (H x) as (y & -> & Hy). rewrite E. cbn [bind].
    exists (y :: ys). split; [reflexivity | now constructor].
Qed.

Lemma peValues_nil peByYear :
  peValues peByYear = [] <->
  forall m v, In m peByYear -> metricVal m = Some v -> is_finite v = false.
Proof.
  unfold peValues. split.
  - intros E m v Hm Hv. destruct (is_finite v) eqn:F; trivial.
    assert (Hin : In v (collect
                          (fun p => match metricVal p with
                                    | Some v => if Number_isFinite v then Some v else None
                                    | None => None
                                    end) peByYear)).
    { apply collect_In. exists m. split; trivial.
      unfold Number_isFinite. now rewrite Hv, F. }
    rewrite E in Hin. destruct Hin.
  - intros H.
    destruct (collect _ peByYear) as [|v l] eqn:E; trivial.
    assert (Hin : In v (v :: l)) by now left.
    rewrite <- E in Hin. apply collect_In in Hin.
    destruct Hin as (m & Hm & Hv).
    destruct (metricVal m) as [w|] eqn:Hw; [|discriminate].
    unfold Number_isFinite in Hv.
    destruct (is_finite w) eqn:F; [|discriminate].
    rewrite (H m w Hm Hw) in F. discriminate F.
Qed.

Lemma peByYear_run (eps : list YearPoint) (history : list DailyClose)
  (ends : list string) :
  exists peByYear, mapM (peAt (toMap eps) history) ends = Return peByYear.
Proof.
  destruct (@mapM_returns _ _ (peAt (toMap eps) history) (fun _ _ => True) ends)
    as (peByYear & E & _).
  - intros e. destruct (peAt_returns (toMap eps) history e) as (m & -> & _).
    now exists m.
  - now exists peByYear.
Qed.

(** X19. Computing the P/E by year never throws and yields one metric per
    period end asked, in order. A year has a P/E only when its EPS is
    finite and above zero and the history has an entry on or before the
    period end, with a finite close; the P/E is that close divided by the
    EPS. The average is [null] exactly when no year has a finite P/E. *)
Theorem peByYear_from_closes (eps : list YearPoint) (history : list DailyClose)
  (ends : list string) :
  exists peByYear,
    mapM (peAt (toMap eps) history) ends = Return peByYear
    /\ map metricEnd peByYear = ends
    /\ (forall m v, In m peByYear -> metricVal m = Some v ->
          exists e px,
            Map_get (toMap eps) (metricEnd m) = Some e
            /\ is_finite e = true /\ (0 <? e)%float = true
            /\ In px history /\ str_le (date px) (metricEnd m) = true
            /\ is_finite (close px) = true
            /\ v = (close px / e)%float)
    /\ (averagePe10y peByYear = None
        <-> forall m v, In m peByYear -> metricVal m = Some v ->
                        is_finite v = false).
Proof.
  destruct (@mapM_returns _ _ (peAt (toMap eps) history)
              (fun e m =>
                 metricEnd m = e
                 /\ forall v, metricVal m = Some v ->
                      exists eps0 px,
                        Map_get (toMap eps) e = Some eps0
                        /\ is_finite eps0 = true /\ (0 <? eps0)%float = true
                        /\ In px history /\ str_le (date px) e = true
                        /\ is_finite (close px) = true
                        /\ v = (close px / eps0)%float)
              ends (peAt_returns (toMap eps) history))
    as (peByYear & E & HQ).
  exists peByYear. split; [exact E|]. split; [|split].
  - clear E. induction HQ as [|e m ends ms [He _] _ IH]; cbn; [reflexivity|].
    now rewrite He, IH.
  - clear E. intros m v Hm Hv.
    induction HQ as [|e m' ends ms [He Hval] _ IH]; [destruct Hm|].
    destruct Hm as [->|Hm]; [|now apply IH].
    rewrite He. now apply Hval.
  - rewrite <- peValues_nil. unfold averagePe10y.
    destruct (peValues peByYear); split; congruence.
Qed.

Section ValuationFacts.

Variable localeCompare : string -> string -> comparison.
Variable Number : string -> float.
Variable Date_getTime : string -> float.
Variable Math_round : float -> float.
Variable Math_pow : float -> float -> float.

Lemma splitAdjusted_run (ticker : string) (series : list YearMetric) :
  matchesTicker ticker = true ->
  exists adjusted, mapM (splitAdjustedAt ticker) series = Return adjusted.
Proof.
  intros M.
  destruct (@mapM_returns _ _ (splitAdjustedAt ticker) (fun _ _ => True) series)
    as (adjusted & E & _).
  - intros p. unfold splitAdjustedAt.
    destruct (metricVal p) as [v|]; [|now exists p].
    destruct (Number_isFinite v); cbn [negb]; [|now exists p].
    destruct (cumulativeSplitFactor_returns (metricEnd p) M) as (factor & ->).
    cbn [bind]. eexists. split; [reflexivity | trivial].
  - now exists adjusted.
Qed.

(** X20. For a ticker accepted by [cleanTicker], the valuation inside
    [GET] never throws, whatever the company facts, the price history
    (sorted or not), the latest price and the query string: neither the
    split adjustment nor the price lookups can fail. It is [null] when the
    EPS series is empty and when no year has a finite P/E. In a Result the
    current price is the latest price and, the growth estimate being
    finite, the chosen growth is at most the estimate and at most the
    basis growth whenever the basis growth is not NaN. *)
Theorem rule1_returns (input : option string) (ticker : string) (facts : value)
  (history : list DailyClose) (price : option float)
  (searchParams : URLSearchParams) :
  cleanTicker input = Return ticker ->
  let knobs := assumptions Number Math_round searchParams in
  exists outcome,
    rule1 localeCompare Number Date_getTime Math_round Math_pow
          ticker facts history price searchParams = Return outcome
    /\ (epsSeries localeCompare Number facts = [] -> outcome = None)
    /\ (forall peByYear,
          mapM (peAt (toMap (epsSeries localeCompare Number facts)) history)
               (map end_ (epsSeries localeCompare Number facts)) = Return peByYear ->
          averagePe10y peByYear = None -> outcome = None)
    /\ (forall r,
          outcome = Some (Rule1.Result r) ->
          Rule1.currentPrice r = price
          /\ Rule1.chosenGrowth r
             = Math_min (Rule1.analystGrowth knobs) (Rule1.growth (Rule1.basis r))
          /\ (is_nan (Rule1.growth (Rule1.basis r)) = false ->
              (Rule1.chosenGrowth r <=? Rule1.analystGrowth knobs)%float = true
              /\ (Rule1.chosenGrowth r <=? Rule1.growth (Rule1.basis r))%float = true)).
Proof.
  intros Hticker knobs. apply cleanTicker_matches in Hticker. unfold rule1.
  set (eps := epsSeries localeCompare Number facts).
  match goal with
  | |- context [mapM (splitAdjustedAt ticker) ?bvps] =>
      destruct (splitAdjusted_run bvps Hticker) as (adjusted & Ea)
  end.
  rewrite Ea. cbn [bind].
  destruct (peByYear_run eps history (map end_ eps)) as (peByYear & E).
  rewrite E. cbn [bind]. fold knobs.
  set (inputs := {| Rule1.eps := seriesOfPoints eps;
                    Rule1.bookValuePerShareUSD := _;
                    Rule1.freeCashFlowUSD := _;
                    Rule1.historicPeRatio := averagePe10y peByYear;
                    Rule1.latestPriceUSD := price |}).
  destruct (Rule1Facts.calculateRule1_cases Math_pow Number inputs knobs)
    as [[Hc H]|[(Hatt & _ & H)|(Hatt & _ & lastEps & pe & st & e & _ & _ & _ & _ & H)]];
    rewrite H; eexists; (split; [reflexivity|]).
  - repeat split; trivial; discriminate.
  - split; [|split; [|discriminate]].
    + intros Ee. exfalso. apply Hatt. left. subst inputs. cbn. now rewrite Ee.
    + intros pbY EpbY Havg. exfalso. apply Hatt. right.
      assert (X : pbY = peByYear) by congruence. subst pbY.
      subst inputs. cbn. now rewrite Havg.
  - split; [|split].
    + intros Ee. exfalso. apply Hatt. left. subst inputs. cbn. now rewrite Ee.
    + intros pbY EpbY Havg. exfalso. apply Hatt. right.
      assert (X : pbY = peByYear) by congruence. subst pbY.
      subst inputs. cbn. now rewrite Havg.
    + intros r [= <-]. cbn. split; [reflexivity|]. split; [reflexivity|].
      intros Hg. apply Math_min_le; trivial.
      assert (F : is_finite (Rule1.analystGrowth knobs) = true)
        by (subst knobs; cbn; now apply numParam_finite).
      apply is_nan_false. now apply is_finite_notNaN.
Qed.

End ValuationFacts.

(** Six fiscal years of EPS valued on the EPS basis: only fiscal 2020
    has a close on or before its end, 11, and the P/E used is 11 / 2.5. *)
Lemma rule1_returns_six_years :
  cleanTicker (Some "aapl") = Return "AAPL"
  /\ forall Math_pow, exists r,
       rule1 String.compare digitsToNumber midnightMs roundWhole Math_pow
             "AAPL" sixYearsOfEps
             (dailyHistoryOf digitsToNumber String.compare twoDaysOfHistory)
             (Some 30%float) [("growthBasis", "eps_5y")]
       = Return (Some (Rule1.Result r))
       /\ Rule1.currentPrice r = Some 30%float
       /\ Rule1.historicPeUsed r = 4.4%float
       /\ Rule1.chosenGrowth r = Math_min 0.1 (Rule1.growth (Rule1.basis r)).
Proof.
  split; [reflexivity|]. intros Math_pow.
  destruct (@rule1_returns String.compare digitsToNumber midnightMs roundWhole
              Math_pow (Some "aapl") "AAPL" sixYearsOfEps
              (dailyHistoryOf digitsToNumber String.compare twoDaysOfHistory)
              (Some 30%float) [("growthBasis", "eps_5y")] eq_refl)
    as (outcome & E & _ & _ & Hr).
  assert (R : exists r,
             rule1 String.compare digitsToNumber midnightMs roundWhole Math_pow
                   "AAPL" sixYearsOfEps
                   (dailyHistoryOf digitsToNumber String.compare twoDaysOfHistory)
                   (Some 30%float) [("growthBasis", "eps_5y")]
             = Return (Some (Rule1.Result r))
             /\ Rule1.historicPeUsed r = 4.4%float)
    by (eexists; split; reflexivity).
  destruct R as (r & R & Hpe). exists r. split; [exact R|].
  rewrite R in E. injection E as <-.
  destruct (Hr r eq_refl) as (Hp & Hc & _).
  split; [exact Hp|]. split; [exact Hpe | exact Hc].
Defined.

(** ** The reported EPS series *)

Lemma increasing_filter localeCompare (f : YearPoint -> bool) series :
  increasing localeCompare series -> increasing localeCompare (filter f series).
Proof.
  unfold increasing. induction 1 as [|p series Hs IH Hp]; cbn; [constructor|].
  destruct (f p); trivial. constructor; trivial.
  rewrite Forall_forall in *. intros q Hq. apply Hp.
  now apply filter_In in Hq.
Qed.

Lemma increasing_suffix localeCompare earlier series :
  increasing localeCompare (earlier ++ series) -> increasing localeCompare series.
Proof.
  unfold increasing. induction earlier as [|p earlier IH]; cbn; trivial.
  intros H. inversion H; subst. auto.
Qed.

Lemma NoDup_suffix (A : Type) (earlier l : list A) : NoDup (earlier ++ l) -> NoDup l.
Proof.
  induction earlier as [|x earlier IH]; cbn; trivial.
  intros H. inversion H; subst. auto.
Qed.

Section ReportedSeries.

Variable localeCompare : string -> string -> comparison.
Variable Number : string -> float.

Variable isPeriodEnd : string -> Prop.
Hypothesis localeCompare_antisym :
  forall a b, isPeriodEnd a -> isPeriodEnd b ->
              localeCompare b a = CompOpp (localeCompare a b).
Hypothesis localeCompare_eq :
  forall a b, isPeriodEnd a -> isPeriodEnd b -> localeCompare a b = Eq -> a = b.
Hypothesis localeCompare_trans :
  forall a b c, isPeriodEnd a -> isPeriodEnd b -> isPeriodEnd c ->
                localeCompare a b = Lt -> localeCompare b c = Lt ->
                localeCompare a c = Lt.

Lemma pickAnnualSeriesByUnit_invariant facts tagCandidates unitPredicate :
  let series := pickAnnualSeriesByUnit localeCompare facts tagCandidates
                                       unitPredicate in
  NoDup (map end_ series)
  /\ Forall (fun p => is_finite (val p) = true) series
  /\ (Forall (fun p => isPeriodEnd (end_ p)) series ->
      increasing localeCompare series).
Proof.
  intros series. subst series.
  destruct (pickAnnualSeriesByUnit_split localeCompare facts tagCandidates
                                         unitPredicate)
    as [[-> _]|(pre & tag & post & _ & _ & _ & ->)].
  - repeat constructor.
  - apply (annualOf_invariant localeCompare_antisym localeCompare_eq
             localeCompare_trans), qualifying_finite.
Qed.

(** X21. The EPS series [GET] reports and values has at most 10 points,
    all of them points of the first-match annual series, one per period
    end, finite, and all of one month; it is strictly increasing by period
    end where the collation is a strict total order on the period ends of
    the annual series. *)
Theorem epsSeries_invariant (facts : value) :
  let annual := pickAnnualEPSSeries localeCompare facts
                  ["EarningsPerShareDiluted"; "EarningsPerShareBasic"] in
  let eps := epsSeries localeCompare Number facts in
  List.length eps <= 10
  /\ (forall p, In p eps -> In p annual)
  /\ NoDup (map end_ eps)
  /\ Forall (fun p => is_finite (val p) = true) eps
  /\ (forall p q, In p eps -> In q eps ->
                  strictEquals (monthOf Number p) (monthOf Number q) = true)
  /\ (Forall (fun p => isPeriodEnd (end_ p)) annual ->
      increasing localeCompare eps).
Proof.
  intros annual eps.
  destruct (@pickAnnualSeriesByUnit_invariant facts
              ["EarningsPerShareDiluted"; "EarningsPerShareBasic"]
              (fun u => includes "usd" (toLowerCase u)
                        && includes "shares" (toLowerCase u)))
    as (ND & HF & HI).
  fold (pickAnnualEPSSeries localeCompare facts
          ["EarningsPerShareDiluted"; "EarningsPerShareBasic"]) in ND, HF, HI.
  fold annual in ND, HF, HI.
  set (kept := keepMostCommonFiscalYearEndMonth Number annual).
  assert (Hk : exists m, kept = filter (fun q => strictEquals (monthOf Number q) m)
                                       annual).
  { destruct (keepMost_form Number annual) as [[E1 E2]|(p & m & _ & E & _)].
    - exists 0%float. subst kept. now rewrite E2, E1.
    - now exists m. }
  destruct Hk as [m Hk].
  assert (Hs : exists earlier, kept = (earlier ++ eps)%list
                               /\ List.length eps <= 10).
  { subst eps. unfold epsSeries. fold annual. fold kept. unfold lastNYears.
    destruct (List.length kept <=? 10)%nat eqn:L.
    - apply Nat.leb_le in L. exists []. now split.
    - apply Nat.leb_gt in L. exists (firstn (List.length kept - 10) kept).
      split; [symmetry; apply firstn_skipn | rewrite length_skipn; lia]. }
  destruct Hs as (earlier & Hs & Hlen).
  assert (Hin : forall p, In p eps -> In p kept)
    by (intros p Hp; rewrite Hs; apply in_or_app; now right).
  split; [exact Hlen|]. split; [|split; [|split; [|split]]].
  - intros p Hp. apply Hin in Hp. rewrite Hk in Hp. now apply filter_In in Hp.
  - apply (@NoDup_suffix _ (map end_ earlier)). rewrite <- map_app, <- Hs, Hk.
    now apply Rule1Facts.NoDup_map_filter.
  - apply Forall_forall. intros p Hp. rewrite Forall_forall in HF. apply HF.
    apply Hin in Hp. rewrite Hk in Hp. now apply filter_In in Hp.
  - intros p q Hp Hq. apply (keepMost_same_month (series := annual)); now apply Hin.
  - intros HD. apply (@increasing_suffix _ earlier). rewrite <- Hs, Hk.
    apply increasing_filter. now apply HI.
Qed.

End ReportedSeries.

(** Three fiscal years of diluted EPS, filed out of order. *)
Lemma epsSeries_invariant_three_years :
  epsSeries String.compare digitsToNumber threeYearsOfEps
  = [ {| end_ := "2018-09-29"; val := 2 |}; {| end_ := "2019-09-28"; val := 3 |};
      {| end_ := "2020-09-26"; val := 4 |} ]
  /\ NoDup (map end_ (epsSeries String.compare digitsToNumber threeYearsOfEps))
  /\ increasing String.compare
       (epsSeries String.compare digitsToNumber threeYearsOfEps).
Proof.
  destruct (@epsSeries_invariant String.compare digitsToNumber (fun _ => True)
              (fun a b _ _ => String.compare_antisym b a)
              (fun a b _ _ => String.compare_eq_iff a b)
              (fun a b c _ _ _ => @string_compare_trans a b c)
              threeYearsOfEps)
    as (_ & _ & ND & _ & _ & HI).
  split; [reflexivity|]. split; [exact ND|].
  apply HI. apply Forall_forall. trivial.
Defined.

End RouteFacts.
